(** * centerpoint-connect-api: the performance and resilience layer

    A shallow embedding of the stateful helpers of the MCP server
    ([security.ts], [performance.ts], [logging.ts]) together with the
    properties the specification states about them.

    Conventions used throughout:
    - [Date.now()] is an explicit argument [now : Z] (milliseconds);
    - a JavaScript [Map] keyed by strings whose iteration order is never
      observed is a [gmap string _]; the response cache, whose eviction
      reads [keys().next()], is an association list in insertion order;
    - the counters of the health monitor, which the code only ever
      increments from [0], are [N]; other integers are [Z];
    - the numbers the health checks compare (success rate, mean latency,
      [successful * 0.1]) are exact rationals [Q], the real-number
      reading of the code's double-precision values: the mean latency
      kept by the monitor is the exact mean, of which the code keeps the
      double-precision rounding;
    - the numbers that are reported (the rates of the health report, the
      rates and the mean of [RequestMetrics]) are IEEE 754 binary64
      values, Rocq's primitive [float], computed with the operations the
      code uses in the order it uses them;
    - text handled character by character ([maskToken]) is a list of
      code units, [list ascii], which covers the code units below 256;
    - promises, timers and executors are named by numbers or by values of
      an abstract type, and what the event loop does (a timer firing, an
      executor's promise settling) is an event applied to the state. *)

From Stdlib Require Import ZArith NArith QArith Qround Ascii String Lia Bool.
From Stdlib Require PrimFloat SpecFloat FloatOps Uint63.
From stdpp Require Import base option list sorting gmap strings.

Local Open Scope Z_scope.

(** ** JavaScript text helpers *)

Module JsText.

Definition str (s : string) : list ascii := list_ascii_of_string s.

(** Code units matched by [\s] and removed by [trim()], among those
    that fit one byte: TAB, LF, VT, FF, CR, SPACE and NO-BREAK SPACE. *)
Definition is_white_space (c : ascii) : bool :=
  match nat_of_ascii c with
  | 9%nat | 10%nat | 11%nat | 12%nat | 13%nat | 32%nat | 160%nat => true
  | _ => false
  end.

Fixpoint trimStart (s : list ascii) : list ascii :=
  match s with
  | c :: s' => if is_white_space c then trimStart s' else s
  | [] => []
  end.

Definition trimEnd (s : list ascii) : list ascii :=
  rev (trimStart (rev s)).

Definition trim (s : list ascii) : list ascii := trimEnd (trimStart s).

(** One pattern character under the [i] flag: the letter itself in
    either case. *)
Definition matches_ci (upper lower c : ascii) : bool :=
  bool_decide (c = upper) || bool_decide (c = lower).

(** [s.replace(/^Bearer\s+/i, '')]: the word, then one or more white
    space characters (greedy), anchored at the start; no match leaves
    [s] as it is. *)
Definition replace_bearer_prefix (s : list ascii) : list ascii :=
  match s with
  | c1 :: c2 :: c3 :: c4 :: c5 :: c6 :: w :: rest =>
      if matches_ci "B" "b" c1 && matches_ci "E" "e" c2 &&
         matches_ci "A" "a" c3 && matches_ci "R" "r" c4 &&
         matches_ci "E" "e" c5 && matches_ci "R" "r" c6 &&
         is_white_space w
      then trimStart rest
      else s
  | _ => s
  end.

(** [s.split('?')[0]] *)
Fixpoint before_question_mark (s : string) : string :=
  match s with
  | EmptyString => EmptyString
  | String c s' =>
      if bool_decide (c = "?"%char) then EmptyString
      else String c (before_question_mark s')
  end.

(** [String.prototype.toLowerCase] on code units below 256: the ASCII
    capitals and the Latin-1 capitals (192 to 214 and 216 to 222) move
    32 up, everything else stays. *)
Definition toLowerCaseChar (c : ascii) : ascii :=
  let n := nat_of_ascii c in
  if ((65 <=? n) && (n <=? 90) || (192 <=? n) && (n <=? 214)
      || (216 <=? n) && (n <=? 222))%nat
  then ascii_of_nat (n + 32)
  else c.

Definition toLowerCase (s : list ascii) : list ascii := toLowerCaseChar <$> s.

(** [s.startsWith(prefix)] *)
Definition startsWith (prefix s : list ascii) : bool :=
  bool_decide (take (length prefix) s = prefix).

(** The capital of an ASCII small letter; other characters stay. *)
Definition asciiCapital (c : ascii) : ascii :=
  let n := nat_of_ascii c in
  if ((97 <=? n) && (n <=? 122))%nat then ascii_of_nat (n - 32) else c.

(** A pattern of small letters and digits matched at the start of [s]
    under the [i] flag: each character of [s] is the pattern's or its
    capital. *)
Fixpoint matchesPrefixCi (pattern s : list ascii) : bool :=
  match pattern, s with
  | [], _ => true
  | p :: pattern', c :: s' =>
      (bool_decide (c = p) || bool_decide (c = asciiCapital p))
      && matchesPrefixCi pattern' s'
  | _ :: _, [] => false
  end.

(** No white space at the start, at the end. *)
Definition cleanStart (s : list ascii) : Prop :=
  match s with
  | c :: _ => is_white_space c = false
  | [] => True
  end.

Definition cleanEnd (s : list ascii) : Prop := cleanStart (rev s).

End JsText.

(** ** JavaScript numbers where their rounding is observed

    A JavaScript number is an IEEE 754 binary64 value, which Rocq's
    primitive [float] is: [+], [*] and [/] are [PrimFloat.add],
    [PrimFloat.mul] and [PrimFloat.div].  A counter [n : N] read as a
    number is [ofN n], which is exact below 2^53. *)

Module JsNumber.

Definition ofN (n : N) : PrimFloat.float :=
  PrimFloat.of_uint63 (Uint63.of_Z (Z.of_N n)).

Definition ofNat (n : nat) : PrimFloat.float := ofN (N.of_nat n).

(** [numbers.reduce((sum, x) => sum + x, 0)] *)
Definition sum (numbers : list PrimFloat.float) : PrimFloat.float :=
  foldl PrimFloat.add (ofN 0) numbers.

(** [Math.round(x)]: the integer nearest to [x], halves upwards.  NaN,
    the infinities, the zeros and the integers are returned as they
    are; a negative [x] that rounds to zero gives [-0].  A finite [x] is
    [m * 2^e] or its negative, with [m] of 53 bits; when [e < 0] its
    magnitude is below 2^53 and the rounded integer is exact. *)
Definition Math_round (x : PrimFloat.float) : PrimFloat.float :=
  match FloatOps.Prim2SF x with
  | SpecFloat.S754_finite negative m e =>
      if 0 <=? e then x
      else
        let den := 2 ^ (- e) in
        let num := if negative then Z.neg m else Z.pos m in
        let r := (2 * num + den) / (2 * den) in
        if r =? 0 then (if negative then PrimFloat.opp (ofN 0) else ofN 0)
        else if r <? 0 then PrimFloat.opp (ofN (Z.to_N (- r)))
        else ofN (Z.to_N r)
  | _ => x
  end.

(** [count > 0 ? (part / count) * 100 : otherwise] *)
Definition percentage (part count : N) (otherwise : PrimFloat.float) : PrimFloat.float :=
  if (0 <? count)%N
  then PrimFloat.mul (PrimFloat.div (ofN part) (ofN count)) (ofN 100)
  else otherwise.

(** [Math.round(x * 100) / 100] *)
Definition roundToHundredths (x : PrimFloat.float) : PrimFloat.float :=
  PrimFloat.div (Math_round (PrimFloat.mul x (ofN 100))) (ofN 100).

End JsNumber.

(** ** security.ts *)

Module Security.
Import JsText.

(** [cleanToken] of [maskToken] and [validateTokenSecurity]. *)
Definition cleanToken (token : list ascii) : list ascii :=
  trim (replace_bearer_prefix token).

Definition maskToken (token : list ascii) : list ascii :=
  match token with
  | [] => str "[EMPTY]"
  | _ =>
      let clean := cleanToken token in
      if (length clean <=? 8)%nat then str "[REDACTED]"
      else
        let start := take 4 clean in
        let end_ := drop (length clean - 4) clean in
        start ++ replicate (Nat.min 12 (length clean - 8)) "*"%char ++ end_
  end.

(** *** AuthRateLimiter *)

Record AttemptRecord := { count : Z; firstAttempt : Z }.

Record AuthRateLimiter := {
  attempts : gmap string AttemptRecord;
  maxAttempts : Z;
  windowMs : Z
}.

(** [new AuthRateLimiter(maxAttempts = 5, windowMs = 15 * 60 * 1000)] *)
Definition newAuthRateLimiter (maxAttempts windowMs : Z) : AuthRateLimiter :=
  {| attempts := ∅; maxAttempts := maxAttempts; windowMs := windowMs |}.

Definition defaultAuthRateLimiter : AuthRateLimiter :=
  newAuthRateLimiter 5 (15 * 60 * 1000).

Definition set_attempts (a : gmap string AttemptRecord) (l : AuthRateLimiter)
  : AuthRateLimiter :=
  {| attempts := a; maxAttempts := maxAttempts l; windowMs := windowMs l |}.

(** [isAllowed(identifier)] at clock reading [now]: the answer and the
    limiter afterwards.  [record.count++] mutates the object held by
    the map, which is an insert of the incremented record. *)
Definition isAllowed (identifier : string) (now : Z) (l : AuthRateLimiter)
  : bool * AuthRateLimiter :=
  match attempts l !! identifier with
  | None =>
      (true, set_attempts (<[identifier := {| count := 1; firstAttempt := now |}]> (attempts l)) l)
  | Some record =>
      if now - firstAttempt record >? windowMs l then
        (true, set_attempts (<[identifier := {| count := 1; firstAttempt := now |}]> (attempts l)) l)
      else if count record >=? maxAttempts l then
        (false, l)
      else
        (true, set_attempts
                 (<[identifier := {| count := count record + 1;
                                     firstAttempt := firstAttempt record |}]> (attempts l)) l)
  end.

Definition getRemainingAttempts (identifier : string) (now : Z) (l : AuthRateLimiter) : Z :=
  match attempts l !! identifier with
  | None => maxAttempts l
  | Some record =>
      if now - firstAttempt record >? windowMs l then maxAttempts l
      else Z.max 0 (maxAttempts l - count record)
  end.

(** A call at [now] starts a window for [identifier]: there is no
    record, or the window of the record is over. *)
Definition windowOpenAt (identifier : string) (now : Z) (l : AuthRateLimiter) : Prop :=
  match attempts l !! identifier with
  | None => True
  | Some record => windowMs l < now - firstAttempt record
  end.

(** Consecutive calls [isAllowed(identifier)] at the clock readings
    [times]: the answers in call order and the limiter afterwards. *)
Fixpoint isAllowedAt (identifier : string) (times : list Z) (l : AuthRateLimiter)
  : list bool * AuthRateLimiter :=
  match times with
  | [] => ([], l)
  | now :: times' =>
      let '(answer, l') := isAllowed identifier now l in
      let '(answers, l'') := isAllowedAt identifier times' l' in
      (answer :: answers, l'')
  end.

(** *** validateTokenSecurity *)

Record TokenValidationResult := {
  isValid : bool;
  errors : list string;
  warnings : list string
}.

(** [/^(test|demo|example|sample)/i], [/^(admin|user|default)/i] and
    [/^(123|abc|password)/i], each as its alternatives. *)
Definition insecurePatterns : list (list string) :=
  [ ["test"; "demo"; "example"; "sample"];
    ["admin"; "user"; "default"];
    ["123"; "abc"; "password"] ].

(** [pattern.test(s)] for one of them. *)
Definition patternTest (alternatives : list string) (s : list ascii) : bool :=
  existsb (fun word => matchesPrefixCi (str word) s) alternatives.

(** [new Set(s.toLowerCase()).size] *)
Definition uniqueChars (s : list ascii) : nat :=
  length (remove_dups (toLowerCase s)).

Definition validateTokenSecurity (token : list ascii) : TokenValidationResult :=
  let clean := cleanToken token in
  let tooShort := (length clean <? 20)%nat in
  {| isValid := negb tooShort;
     errors := if tooShort then ["Token appears too short to be secure"] else [];
     warnings :=
       (if existsb (fun pattern => patternTest pattern clean) insecurePatterns
        then ["Token appears to use a common test pattern"] else [])
       ++ (if (uniqueChars clean <? 10)%nat
           then ["Token has low character diversity"] else []) |}.

(** *** SecureTokenCache

    [hash] stands for [crypto.createHash('sha256')...substring(0, 16)],
    which the platform provides. *)
Module TokenCache.
Section WithHash.
Variable hash : string -> string.

Record Entry := {
  entry_token : string;
  entry_expires : Z;
  entry_hash : string
}.

Record SecureTokenCache := {
  entries : gmap string Entry;
  defaultTtl : Z
}.

Definition newSecureTokenCache (defaultTtlMs : Z) : SecureTokenCache :=
  {| entries := ∅; defaultTtl := defaultTtlMs |}.

Definition set_entries (m : gmap string Entry) (c : SecureTokenCache) : SecureTokenCache :=
  {| entries := m; defaultTtl := defaultTtl c |}.

(** [ttlMs || this.defaultTtl] *)
Definition ttlOrDefault (ttlMs : option Z) (c : SecureTokenCache) : Z :=
  match ttlMs with
  | Some t => if t =? 0 then defaultTtl c else t
  | None => defaultTtl c
  end.

Definition set (key token : string) (ttlMs : option Z) (now : Z) (c : SecureTokenCache)
  : SecureTokenCache :=
  set_entries
    (<[key := {| entry_token := token;
                 entry_expires := now + ttlOrDefault ttlMs c;
                 entry_hash := hash token |}]> (entries c)) c.

Definition get (key : string) (now : Z) (c : SecureTokenCache)
  : option string * SecureTokenCache :=
  match entries c !! key with
  | None => (None, c)
  | Some entry =>
      if now >? entry_expires entry
      then (None, set_entries (delete key (entries c)) c)
      else (Some (entry_token entry), c)
  end.

Definition invalidate (key : string) (c : SecureTokenCache) : SecureTokenCache :=
  set_entries (delete key (entries c)) c.

Definition clear (c : SecureTokenCache) : SecureTokenCache := set_entries ∅ c.

(** Calls made on a token cache, and the cache they leave. *)
Inductive Call :=
| CallSet (key token : string) (ttlMs : option Z) (now : Z)
| CallGet (key : string) (now : Z)
| CallInvalidate (key : string)
| CallClear.

Definition call (c : SecureTokenCache) (op : Call) : SecureTokenCache :=
  match op with
  | CallSet key token ttlMs now => set key token ttlMs now c
  | CallGet key now => (get key now c).2
  | CallInvalidate key => invalidate key c
  | CallClear => clear c
  end.

Definition calls (ops : list Call) (c : SecureTokenCache) : SecureTokenCache :=
  foldl call c ops.

End WithHash.
End TokenCache.

(** Any sequence of [isAllowed] calls, each for its identifier at its
    clock reading. *)
Definition isAllowedAll (requests : list (string * Z)) (l : AuthRateLimiter)
  : AuthRateLimiter :=
  foldl (fun l request => (isAllowed request.1 request.2 l).2) l requests.

End Security.

(** ** auth.ts *)

Module Auth.
Import JsText.

(** [process.env.CENTERPOINT_API_TOKEN] is the argument [env]. *)
Definition getTokenFromEnv (env : option (list ascii)) : option (list ascii) :=
  match env with
  | Some token =>
      match token, trim token with
      | [], _ | _, [] => None
      | _, trimmed => Some trimmed
      end
  | None => None
  end.

Definition normalizeToken (token : list ascii) : list ascii :=
  let trimmed := trim token in
  if startsWith (str "bearer ") (toLowerCase trimmed)
  then str "Bearer " ++ drop 7 trimmed
  else str "Bearer " ++ trimmed.

(** [argToken && argToken.trim()] as a condition. *)
Definition usable (argToken : option (list ascii)) : bool :=
  match argToken with
  | Some token =>
      match token, trim token with
      | [], _ | _, [] => false
      | _, _ => true
      end
  | None => false
  end.

Definition resolveAuth (env argToken : option (list ascii)) : option (list ascii) :=
  match getTokenFromEnv env with
  | Some envToken => Some (normalizeToken envToken)
  | None =>
      match argToken with
      | Some token => if usable argToken then Some (normalizeToken token) else None
      | None => None
      end
  end.

Inductive AuthError := NoApiTokenFound.

(** [requireAuth]: the token, or the error it throws. *)
Definition requireAuth (env argToken : option (list ascii)) : AuthError + list ascii :=
  match resolveAuth env argToken with
  | Some token => inr token
  | None => inl NoApiTokenFound
  end.

(** [{ 'Authorization': token, ...additionalHeaders }]: a key of
    [additionalHeaders] replaces one written before the spread. *)
Definition createAuthenticatedHeaders
           (env argToken : option (list ascii)) (additionalHeaders : gmap string (list ascii))
  : AuthError + gmap string (list ascii) :=
  match
    match argToken with
    | Some token =>
        if usable argToken then inr (normalizeToken token) else requireAuth env None
    | None => requireAuth env None
    end
  with
  | inr token => inr (additionalHeaders ∪ {["Authorization" := token]})
  | inl e => inl e
  end.

End Auth.

(** ** logging.ts: HealthMonitor *)

Module Logging.

Definition Qlt_bool (x y : Q) : bool := negb (Qle_bool y x).

Definition Qsum (l : list Q) : Q := foldl Qplus 0%Q l.

Definition QofN (n : N) : Q := inject_Z (Z.of_N n).

Record RequestCounters := {
  total : N;
  successful : N;
  failed : N;
  avgResponseTime : Q
}.

Record AuthCounters := {
  auth_successful : N;
  auth_failed : N;
  auth_rateLimited : N
}.

Record CacheCounters := { hits : N; misses : N }.

Record ErrorInfo := {
  err_count : N;
  lastError : option string;
  lastErrorTime : option Z
}.

Record Metrics := {
  startTime : Z;
  requests : RequestCounters;
  auth : AuthCounters;
  cache : CacheCounters;
  errors : ErrorInfo
}.

Record HealthMonitor := {
  metrics : Metrics;
  responseTimes : list Q
}.

Inductive AuthEvent := AuthSuccess | AuthFailure | AuthRateLimited.

Inductive Status := healthy | degraded | unhealthy.

Record Checks := {
  highSuccessRate : bool;
  noRecentErrors : bool;
  reasonableResponseTime : bool;
  authWorking : bool
}.

Record HealthReport := {
  status : Status;
  uptime : Z;
  report_metrics : Metrics;
  report_successRate : PrimFloat.float;
  report_hitRate : PrimFloat.float;
  checks : Checks
}.

Definition freshMetrics (now : Z) : Metrics :=
  {| startTime := now;
     requests := {| total := 0; successful := 0; failed := 0; avgResponseTime := 0 |};
     auth := {| auth_successful := 0; auth_failed := 0; auth_rateLimited := 0 |};
     cache := {| hits := 0; misses := 0 |};
     errors := {| err_count := 0; lastError := None; lastErrorTime := None |} |}.

(** [new HealthMonitor()] and [reset()], at clock reading [now]. *)
Definition newHealthMonitor (now : Z) : HealthMonitor :=
  {| metrics := freshMetrics now; responseTimes := [] |}.

Definition reset (now : Z) (_ : HealthMonitor) : HealthMonitor :=
  newHealthMonitor now.

Definition with_requests (r : RequestCounters) (m : Metrics) : Metrics :=
  {| startTime := startTime m; requests := r; auth := auth m;
     cache := cache m; errors := errors m |}.

Definition with_auth (a : AuthCounters) (m : Metrics) : Metrics :=
  {| startTime := startTime m; requests := requests m; auth := a;
     cache := cache m; errors := errors m |}.

Definition with_cache (c : CacheCounters) (m : Metrics) : Metrics :=
  {| startTime := startTime m; requests := requests m; auth := auth m;
     cache := c; errors := errors m |}.

Definition with_errors (e : ErrorInfo) (m : Metrics) : Metrics :=
  {| startTime := startTime m; requests := requests m; auth := auth m;
     cache := cache m; errors := e |}.

Definition recordRequest (success : bool) (responseTime : Q) (h : HealthMonitor)
  : HealthMonitor :=
  let r := requests (metrics h) in
  let pushed := responseTimes h ++ [responseTime] in
  let times := if (1000 <? length pushed)%nat then drop 1 pushed else pushed in
  {| metrics :=
       with_requests
         {| total := total r + 1;
            successful := if success then successful r + 1 else successful r;
            failed := if success then failed r else failed r + 1;
            avgResponseTime := (Qsum times / inject_Z (Z.of_nat (length times)))%Q |}
         (metrics h);
     responseTimes := times |}.

Definition recordAuth (event : AuthEvent) (h : HealthMonitor) : HealthMonitor :=
  let a := auth (metrics h) in
  {| metrics :=
       with_auth
         match event with
         | AuthSuccess =>
             {| auth_successful := auth_successful a + 1;
                auth_failed := auth_failed a; auth_rateLimited := auth_rateLimited a |}
         | AuthFailure =>
             {| auth_successful := auth_successful a;
                auth_failed := auth_failed a + 1; auth_rateLimited := auth_rateLimited a |}
         | AuthRateLimited =>
             {| auth_successful := auth_successful a;
                auth_failed := auth_failed a; auth_rateLimited := auth_rateLimited a + 1 |}
         end (metrics h);
     responseTimes := responseTimes h |}.

Definition recordCacheHit (hit : bool) (h : HealthMonitor) : HealthMonitor :=
  let c := cache (metrics h) in
  {| metrics :=
       with_cache
         (if hit then {| hits := hits c + 1; misses := misses c |}
          else {| hits := hits c; misses := misses c + 1 |})
         (metrics h);
     responseTimes := responseTimes h |}.

(** [recordError(error)] with [message = error.message], at clock reading [now]. *)
Definition recordError (message : string) (now : Z) (h : HealthMonitor) : HealthMonitor :=
  let e := errors (metrics h) in
  {| metrics :=
       with_errors
         {| err_count := err_count e + 1;
            lastError := Some message;
            lastErrorTime := Some now |}
         (metrics h);
     responseTimes := responseTimes h |}.

(** The local [successRate] of [getHealthStatus], as the check
    [successRate >= 95] reads it. *)
Definition successRate (m : Metrics) : Q :=
  if (0 <? total (requests m))%N
  then (QofN (successful (requests m)) / QofN (total (requests m)) * 100)%Q
  else 100%Q.

(** The locals [successRate] and [cacheHitRate] as the numbers the code
    holds, which is what the report rounds. *)
Definition successRateNumber (m : Metrics) : PrimFloat.float :=
  JsNumber.percentage (successful (requests m)) (total (requests m)) (JsNumber.ofN 100).

Definition cacheHitRate (m : Metrics) : PrimFloat.float :=
  JsNumber.percentage (hits (cache m)) (hits (cache m) + misses (cache m)) (JsNumber.ofN 0).

(** [!lastErrorTime || (Date.now() - lastErrorTime) > 5 * 60 * 1000]:
    [null] and [0] are both falsy. *)
Definition computeChecks (now : Z) (m : Metrics) : Checks :=
  {| highSuccessRate := Qle_bool 95 (successRate m);
     noRecentErrors :=
       match lastErrorTime (errors m) with
       | None => true
       | Some t => (t =? 0) || (now - t >? 5 * 60 * 1000)
       end;
     reasonableResponseTime := Qlt_bool (avgResponseTime (requests m)) 5000;
     authWorking :=
       Qlt_bool (QofN (auth_failed (auth m)))
                (QofN (auth_successful (auth m)) * (1 # 10)) |}.

(** [Object.values(checks)] *)
Definition checkValues (c : Checks) : list bool :=
  [highSuccessRate c; noRecentErrors c; reasonableResponseTime c; authWorking c].

(** [Object.values(checks).filter(Boolean).length] and
    [Object.keys(checks).length] *)
Definition healthyChecks (c : Checks) : nat :=
  length (filter (fun b => b = true) (checkValues c)).

Definition totalChecks (c : Checks) : nat := length (checkValues c).

Definition getHealthStatus (now : Z) (h : HealthMonitor) : HealthReport :=
  let m := metrics h in
  let cs := computeChecks now m in
  {| status :=
       if (healthyChecks cs =? totalChecks cs)%nat then healthy
       else if Qle_bool (inject_Z (Z.of_nat (totalChecks cs)) * (7 # 10))
                        (inject_Z (Z.of_nat (healthyChecks cs)))
       then degraded
       else unhealthy;
     uptime := now - startTime m;
     report_metrics := m;
     report_successRate := JsNumber.roundToHundredths (successRateNumber m);
     report_hitRate := JsNumber.roundToHundredths (cacheHitRate m);
     checks := cs |}.

(** Events recorded into a monitor, for stating facts about histories. *)
Inductive Recorded :=
| RecRequest (success : bool) (responseTime : Q)
| RecAuth (event : AuthEvent)
| RecCacheHit (hit : bool)
| RecError (message : string) (now : Z).

Definition record (h : HealthMonitor) (ev : Recorded) : HealthMonitor :=
  match ev with
  | RecRequest ok t => recordRequest ok t h
  | RecAuth e => recordAuth e h
  | RecCacheHit b => recordCacheHit b h
  | RecError msg now => recordError msg now h
  end.

Definition recordAll (evs : list Recorded) (h : HealthMonitor) : HealthMonitor :=
  foldl record h evs.

(** The health scenario of the specification as a history: 100 requests
    of 200 ms each, 96 of them successful, and nothing else recorded. *)
Definition scenarioEvents : list Recorded :=
  replicate 96 (RecRequest true 200) ++ replicate 4 (RecRequest false 200).

Definition scenarioMonitor : HealthMonitor :=
  recordAll scenarioEvents (newHealthMonitor 0).

(** The same history with one successful authentication, and an error
    recorded at clock reading 1000. *)
Definition scenarioMonitorWithAuth : HealthMonitor :=
  recordAll (scenarioEvents ++ [RecAuth AuthSuccess; RecError "timeout" 1000])
            (newHealthMonitor 0).

(** *** Logger: levels *)

Inductive LogLevel := ERROR | WARN | INFO | DEBUG.

(** The numbers of the [enum]. *)
Definition levelNumber (level : LogLevel) : Z :=
  match level with ERROR => 0 | WARN => 1 | INFO => 2 | DEBUG => 3 end.

Definition parseLogLevel (level : list ascii) : LogLevel :=
  let lower := JsText.toLowerCase level in
  if bool_decide (lower = JsText.str "error") then ERROR
  else if bool_decide (lower = JsText.str "warn") then WARN
  else if bool_decide (lower = JsText.str "info") then INFO
  else if bool_decide (lower = JsText.str "debug") then DEBUG
  else INFO.

(** [shouldLog(level)] of a logger whose [minLevel] is [minLevel]. *)
Definition shouldLog (minLevel level : LogLevel) : bool :=
  levelNumber level <=? levelNumber minLevel.

(** *** Logger: masking

    [takeRun p s] is the longest prefix of [s] whose characters satisfy
    [p], which is what a greedy [p+] or [p{n,}] takes. *)
Fixpoint takeRun (p : ascii -> bool) (s : list ascii) : list ascii :=
  match s with
  | c :: s' => if p c then c :: takeRun p s' else []
  | [] => []
  end.

(** [[A-Za-z0-9+/=]] *)
Definition isTokenChar (c : ascii) : bool :=
  let n := nat_of_ascii c in
  ((65 <=? n) && (n <=? 90) || (97 <=? n) && (n <=? 122) || (48 <=? n) && (n <=? 57)
   || (n =? 43) || (n =? 47) || (n =? 61))%nat.

(** [/Bearer\s+[A-Za-z0-9+/=]{20,}/] tried at the start of [s]: the text
    matched.  White space and token characters are disjoint, so the
    greedy runs are the only way to match. *)
Definition matchBearerToken (s : list ascii) : option (list ascii) :=
  if JsText.startsWith (JsText.str "Bearer") s then
    let spaces := takeRun JsText.is_white_space (drop 6 s) in
    let token := takeRun isTokenChar (drop (6 + length spaces) s) in
    if (1 <=? length spaces)%nat && (20 <=? length token)%nat
    then Some (JsText.str "Bearer" ++ spaces ++ token)
    else None
  else None.

(** [/[A-Za-z0-9+/=]{32,}/] tried at the start of [s]. *)
Definition matchLongRun (s : list ascii) : option (list ascii) :=
  let run := takeRun isTokenChar s in
  if (32 <=? length run)%nat then Some run else None.

(** [s.replace(regex, replacer)] with the [g] flag, for a regex that
    matches no empty text: from left to right, a match found at the
    current position is replaced and the search goes on after it, else
    the character is kept.  [skip] counts the characters of a match
    still to pass over. *)
Fixpoint replaceAll (matchAt : list ascii -> option (list ascii))
         (replacer : list ascii -> list ascii) (skip : nat) (s : list ascii)
  : list ascii :=
  match s with
  | [] => []
  | c :: s' =>
      match skip with
      | S skip' => replaceAll matchAt replacer skip' s'
      | O =>
          match matchAt s with
          | Some matched =>
              replacer matched ++ replaceAll matchAt replacer (length matched - 1) s'
          | None => c :: replaceAll matchAt replacer 0 s'
          end
      end
  end.

(** The replacer of the second pass. *)
Definition maskLongRun (matched : list ascii) : list ascii :=
  if (30 <? length matched)%nat then Security.maskToken matched else matched.

Definition maskSensitiveData (enableTokenMasking : bool) (message : list ascii)
  : list ascii :=
  if enableTokenMasking then
    replaceAll matchLongRun maskLongRun 0
      (replaceAll matchBearerToken Security.maskToken 0 message)
  else message.

(** [maskSensitiveContext] on the fields it reads, their values being
    strings; an absent or empty field is falsy and stays as it is. *)
Definition maskField (name : string) (context : gmap string (list ascii))
  : gmap string (list ascii) :=
  match context !! name with
  | Some (c :: value) => <[name := Security.maskToken (c :: value)]> context
  | _ => context
  end.

Definition maskSensitiveContext (enableTokenMasking : bool)
           (context : gmap string (list ascii)) : gmap string (list ascii) :=
  if enableTokenMasking then maskField "token" (maskField "authorization" context)
  else context.

(** No [bound] token characters in a row in [s], when [k] token
    characters stand right before it. *)
Fixpoint runsBelow (bound k : nat) (s : list ascii) : Prop :=
  (k < bound)%nat /\
  match s with
  | [] => True
  | c :: s' => if isTokenChar c then runsBelow bound (S k) s' else runsBelow bound 0 s'
  end.

(** [s] does not go on with a token character. *)
Definition endsRun (s : list ascii) : Prop :=
  match s with
  | c :: _ => isTokenChar c = false
  | [] => True
  end.

End Logging.

(** ** performance.ts *)

Module Performance.
Import JsText.

(** *** A JavaScript [Map] whose iteration order is observed

    Pairs in insertion order, keys unique: [set] on a present key
    replaces the value where it stands, [set] on an absent key appends,
    [delete] removes, [keys().next().value] is the key of the head. *)
Section OrderedMap.
Context {V : Type}.

Fixpoint omap_get (k : string) (m : list (string * V)) : option V :=
  match m with
  | [] => None
  | (k', v) :: m' => if bool_decide (k' = k) then Some v else omap_get k m'
  end.

Fixpoint omap_set (k : string) (v : V) (m : list (string * V)) : list (string * V) :=
  match m with
  | [] => [(k, v)]
  | (k', v') :: m' =>
      if bool_decide (k' = k) then (k, v) :: m' else (k', v') :: omap_set k v m'
  end.

Fixpoint omap_delete (k : string) (m : list (string * V)) : list (string * V) :=
  match m with
  | [] => []
  | (k', v') :: m' =>
      if bool_decide (k' = k) then m' else (k', v') :: omap_delete k m'
  end.

Definition omap_first_key (m : list (string * V)) : option string :=
  match m with
  | [] => None
  | (k, _) :: _ => Some k
  end.

Definition omap_keys (m : list (string * V)) : list string := m.*1.
End OrderedMap.

(** *** Requests and responses, as far as this layer reads them

    [Data] is the response body, [Params] the type of [config.params];
    [toUpperCase] and [searchParams] stand for [String.prototype.toUpperCase]
    and [new URLSearchParams(params).toString()], which the platform
    provides.  An absent or falsy [params] is [None]. *)
Section WithPlatform.
Context {Data Params : Type}.
Variable toUpperCase : string -> string.
Variable searchParams : Params -> string.

Record AxiosRequestConfig := {
  method : option string;
  url : option string;
  params : option Params
}.

Record AxiosResponse := {
  resp_data : Data;
  resp_etag : option string;
  resp_lastModified : option string
}.

Record CacheEntry := {
  data : Data;
  timestamp : Z;
  etag : option string;
  lastModified : option string;
  expires : option Z
}.

(** [`${x}`] for an optional string: [undefined] prints as such. *)
Definition template (x : option string) : string :=
  match x with Some s => s | None => "undefined" end.

(** [config.method?.toUpperCase() || 'GET'] *)
Definition methodOrGet (config : AxiosRequestConfig) : string :=
  match method config with
  | None => "GET"
  | Some m => if bool_decide (toUpperCase m = "") then "GET" else toUpperCase m
  end.

(** *** ResponseCache *)

Record ResponseCache := {
  cache : list (string * CacheEntry);
  defaultTtl : Z;
  maxSize : Z
}.

Definition newResponseCache (defaultTtlMs maxSize : Z) : ResponseCache :=
  {| cache := []; defaultTtl := defaultTtlMs; maxSize := maxSize |}.

Definition set_cache (m : list (string * CacheEntry)) (c : ResponseCache) : ResponseCache :=
  {| cache := m; defaultTtl := defaultTtl c; maxSize := maxSize c |}.

Definition createCacheKey (config : AxiosRequestConfig) : string :=
  let key := methodOrGet config +:+ ":" +:+ template (url config) in
  match params config with
  | Some p => key +:+ "?" +:+ searchParams p
  | None => key
  end.

(** [entry.expires || this.defaultTtl]: [undefined] and [0] are falsy. *)
Definition effectiveTtl (c : ResponseCache) (entry : CacheEntry) : Z :=
  match expires entry with
  | Some t => if t =? 0 then defaultTtl c else t
  | None => defaultTtl c
  end.

Definition get (config : AxiosRequestConfig) (now : Z) (c : ResponseCache)
  : option CacheEntry * ResponseCache :=
  let key := createCacheKey config in
  match omap_get key (cache c) with
  | None => (None, c)
  | Some entry =>
      if now - timestamp entry >? effectiveTtl c entry
      then (None, set_cache (omap_delete key (cache c)) c)
      else (Some entry, c)
  end.

(** The eviction at the head of [set]: when the map is full, the
    first key of the iteration order goes, unless there is none or
    it is the (falsy) empty string. *)
Definition evictOldest (c : ResponseCache) : list (string * CacheEntry) :=
  if Z.of_nat (length (cache c)) >=? maxSize c then
    match omap_first_key (cache c) with
    | Some oldestKey =>
        if bool_decide (oldestKey = "") then cache c
        else omap_delete oldestKey (cache c)
    | None => cache c
    end
  else cache c.

Definition set (config : AxiosRequestConfig) (response : AxiosResponse)
           (ttlMs : option Z) (now : Z) (c : ResponseCache) : ResponseCache :=
  let evicted := evictOldest c in
  let key := createCacheKey config in
  let entry :=
    {| data := resp_data response;
       timestamp := now;
       etag := resp_etag response;
       lastModified := resp_lastModified response;
       expires := ttlMs |} in
  set_cache (omap_set key entry evicted) c.

Definition size (c : ResponseCache) : Z := Z.of_nat (length (cache c)).

(** Calls made on a cache, and the cache they leave. *)
Inductive CacheCall :=
| CallSet (config : AxiosRequestConfig) (response : AxiosResponse)
          (ttlMs : option Z) (now : Z)
| CallGet (config : AxiosRequestConfig) (now : Z).

Definition call (c : ResponseCache) (op : CacheCall) : ResponseCache :=
  match op with
  | CallSet config response ttlMs now => set config response ttlMs now c
  | CallGet config now => (get config now c).2
  end.

Definition calls (ops : list CacheCall) (c : ResponseCache) : ResponseCache :=
  foldl call c ops.

(** History of a cache: for each key it holds, the position in the
    call sequence of the call that put the key into the map.  [stamp]
    follows one operation on the map: a key present before and after
    keeps its position, a key that appears gets the position of the
    current call, a key that is gone has none.  [set] is two operations
    on the map (the eviction, then [this.cache.set]), [get] is one.
    Writing to a key that is present does not change its position. *)
Definition stamp (i : nat) (before after : list (string * CacheEntry))
           (born : string -> option nat) (k : string) : option nat :=
  if bool_decide (k ∈ omap_keys after)
  then (if bool_decide (k ∈ omap_keys before) then born k else Some i)
  else None.

Definition stampCall (i : nat) (c : ResponseCache) (op : CacheCall)
           (born : string -> option nat) : string -> option nat :=
  match op with
  | CallSet _ _ _ _ =>
      stamp i (evictOldest c) (cache (call c op)) (stamp i (cache c) (evictOldest c) born)
  | CallGet _ _ => stamp i (cache c) (cache (call c op)) born
  end.

Fixpoint insertedAtFrom (ops : list CacheCall) (c : ResponseCache) (i : nat)
         (born : string -> option nat) : string -> option nat :=
  match ops with
  | [] => born
  | op :: ops' => insertedAtFrom ops' (call c op) (S i) (stampCall i c op born)
  end.

(** [insertedAt ops c k]: the position in [ops], run on the empty cache
    [c], of the call that inserted the key [k] held at the end. *)
Definition insertedAt (ops : list CacheCall) (c : ResponseCache) (k : string)
  : option nat :=
  insertedAtFrom ops c 0 (fun _ => None) k.

(** [!!x] for an optional string: absent and empty are falsy. *)
Definition truthy (x : option string) : bool :=
  match x with
  | Some s => negb (bool_decide (s = ""))
  | None => false
  end.

Definition shouldRefresh (config : AxiosRequestConfig) (now : Z) (c : ResponseCache)
  : bool * ResponseCache :=
  match get config now c with
  | (None, c') => (true, c')
  | (Some entry, c') => (truthy (etag entry) || truthy (lastModified entry), c')
  end.

(** [addConditionalHeaders(config)], with [config.headers] as the
    argument [headers] ([None] when the config has none) and the headers
    the config has afterwards as the result. *)
Definition addConditionalHeaders (config : AxiosRequestConfig)
           (headers : option (gmap string string)) (now : Z) (c : ResponseCache)
  : option (gmap string string) * ResponseCache :=
  match get config now c with
  | (None, c') => (headers, c')
  | (Some entry, c') =>
      let h0 := default ∅ headers in
      let h1 := match etag entry with
                | Some tag => if truthy (etag entry) then <["If-None-Match" := tag]> h0 else h0
                | None => h0
                end in
      let h2 := match lastModified entry with
                | Some date =>
                    if truthy (lastModified entry)
                    then <["If-Modified-Since" := date]> h1 else h1
                | None => h1
                end in
      (Some h2, c')
  end.

Definition clear (c : ResponseCache) : ResponseCache := set_cache [] c.

(** What holds of every cache reached from the empty one: the keys are
    those of a [Map] (no key twice), none of them the empty string, and
    they stand in the order of their insertion. *)
Definition wellFormed (c : ResponseCache) : Prop :=
  NoDup (omap_keys (cache c)) /\ "" ∉ omap_keys (cache c).

Definition insertedBefore (born : string -> option nat) (k1 k2 : string) : Prop :=
  exists i j : nat, born k1 = Some i /\ born k2 = Some j /\ (i < j)%nat.

Definition inInsertionOrder (i : nat) (born : string -> option nat)
           (m : list (string * CacheEntry)) : Prop :=
  StronglySorted (insertedBefore born) (omap_keys m) /\
  Forall (fun k => exists j : nat, born k = Some j /\ (j < i)%nat) (omap_keys m).

(** *** RequestBatcher

    [Executor] names the functions passed to [add]; what an executor
    returns is decided by the network, so its promise settling is an
    event of the environment carrying the [Outcome].  A promise
    returned by [add] is a number, standing for its [resolve] and
    [reject] pair; a timer handle is a number as well. *)
Context {Executor Result Error : Type}.

Record PendingRequest := {
  req_config : AxiosRequestConfig;
  req_promise : nat
}.

Record Batch := {
  batch_requests : list PendingRequest;
  timeout : nat
}.

(** [() => this.executeBatch(batchKey, executor)] *)
Record TimerCallback := {
  cb_batchKey : string;
  cb_executor : Executor
}.

Inductive Trigger := ByTimer | BySize.

(** One activation of [executeBatch] that got past [if (!batch) return]:
    it called [inv_executor] on [inv_configs] and is suspended at the
    [await], still holding [inv_batch]. *)
Record Invocation := {
  inv_batchKey : string;
  inv_executor : Executor;
  inv_configs : list AxiosRequestConfig;
  inv_batch : Batch;
  inv_trigger : Trigger
}.

Inductive Outcome :=
| Fulfilled (results : list Result)
| Failed (error : Error).

(** [resolve(value)] ([None] is [undefined]) and [reject(error)] of a promise. *)
Inductive Settlement :=
| Resolved (promise : nat) (value : option Result)
| Rejected (promise : nat) (error : Error).

(** The batcher object ([batches], [batchWindow], [maxBatchSize]), the
    part of the event loop it uses ([timers] armed and not yet fired
    or cleared, [awaiting] activations by the handle of their batch)
    and the history of a run ([flushed], [supplied], [settled]). *)
Record RequestBatcher := {
  batches : gmap string Batch;
  batchWindow : Z;
  maxBatchSize : Z;
  timers : gmap nat TimerCallback;
  nextTimer : nat;
  nextPromise : nat;
  awaiting : gmap nat Invocation;
  flushed : list Invocation;
  supplied : gmap nat Executor;
  settled : list Settlement
}.

Definition newRequestBatcher (batchWindowMs maxBatchSize : Z) : RequestBatcher :=
  {| batches := ∅; batchWindow := batchWindowMs; maxBatchSize := maxBatchSize;
     timers := ∅; nextTimer := 0; nextPromise := 0; awaiting := ∅;
     flushed := []; supplied := ∅; settled := [] |}.

Definition set_batches (b : gmap string Batch) (w : RequestBatcher) : RequestBatcher :=
  {| batches := b; batchWindow := batchWindow w; maxBatchSize := maxBatchSize w;
     timers := timers w; nextTimer := nextTimer w; nextPromise := nextPromise w;
     awaiting := awaiting w; flushed := flushed w; supplied := supplied w;
     settled := settled w |}.

Definition set_timers (t : gmap nat TimerCallback) (w : RequestBatcher) : RequestBatcher :=
  {| batches := batches w; batchWindow := batchWindow w; maxBatchSize := maxBatchSize w;
     timers := t; nextTimer := nextTimer w; nextPromise := nextPromise w;
     awaiting := awaiting w; flushed := flushed w; supplied := supplied w;
     settled := settled w |}.

(** [setTimeout(callback, this.batchWindow)]: a fresh handle. *)
Definition setTimeout (callback : TimerCallback) (w : RequestBatcher)
  : nat * RequestBatcher :=
  (nextTimer w,
   {| batches := batches w; batchWindow := batchWindow w; maxBatchSize := maxBatchSize w;
      timers := <[nextTimer w := callback]> (timers w); nextTimer := S (nextTimer w);
      nextPromise := nextPromise w; awaiting := awaiting w; flushed := flushed w;
      supplied := supplied w; settled := settled w |}).

Definition clearTimeout (handle : nat) (w : RequestBatcher) : RequestBatcher :=
  set_timers (delete handle (timers w)) w.

Definition getBatchKey (config : AxiosRequestConfig) : string :=
  methodOrGet config +:+ ":" +:+ template (before_question_mark <$> url config).

(** [executeBatch] up to its [await]. *)
Definition executeBatch (trigger : Trigger) (batchKey : string) (executor : Executor)
           (w : RequestBatcher) : RequestBatcher :=
  match batches w !! batchKey with
  | None => w
  | Some batch =>
      let configs := req_config <$> batch_requests batch in
      let inv := {| inv_batchKey := batchKey; inv_executor := executor;
                    inv_configs := configs; inv_batch := batch;
                    inv_trigger := trigger |} in
      {| batches := delete batchKey (batches w);
         batchWindow := batchWindow w; maxBatchSize := maxBatchSize w;
         timers := timers w; nextTimer := nextTimer w; nextPromise := nextPromise w;
         awaiting := <[timeout batch := inv]> (awaiting w);
         flushed := flushed w ++ [inv];
         supplied := supplied w; settled := settled w |}
  end.

(** What [executeBatch] does after the [await], per pending request
    in [forEach] order. *)
Definition deliveries (inv : Invocation) (outcome : Outcome) : list Settlement :=
  match outcome with
  | Fulfilled results =>
      imap (fun index req => Resolved (req_promise req) (results !! index))
           (batch_requests (inv_batch inv))
  | Failed error =>
      (fun req => Rejected (req_promise req) error) <$> batch_requests (inv_batch inv)
  end.

(** The executor promise of the activation with handle [handle] settles. *)
Definition settle (handle : nat) (outcome : Outcome) (w : RequestBatcher)
  : RequestBatcher :=
  match awaiting w !! handle with
  | None => w
  | Some inv =>
      {| batches := batches w; batchWindow := batchWindow w;
         maxBatchSize := maxBatchSize w; timers := timers w;
         nextTimer := nextTimer w; nextPromise := nextPromise w;
         awaiting := delete handle (awaiting w);
         flushed := flushed w; supplied := supplied w;
         settled := settled w ++ deliveries inv outcome |}
  end.

(** [add] up to and including [batch.requests.push]: the batch of the
    key, opened with a timer when there is none, now holding the
    request. *)
Definition enqueue (config : AxiosRequestConfig) (executor : Executor) (w : RequestBatcher)
  : Batch * RequestBatcher :=
  let promise := nextPromise w in
  let batchKey := getBatchKey config in
  let '(batch, w1) :=
    match batches w !! batchKey with
    | Some batch => (batch, w)
    | None =>
        let '(handle, w') :=
          setTimeout {| cb_batchKey := batchKey; cb_executor := executor |} w in
        ({| batch_requests := []; timeout := handle |}, w')
    end in
  let batch' :=
    {| batch_requests :=
         batch_requests batch ++ [{| req_config := config; req_promise := promise |}];
       timeout := timeout batch |} in
  (batch',
   {| batches := <[batchKey := batch']> (batches w1);
      batchWindow := batchWindow w1; maxBatchSize := maxBatchSize w1;
      timers := timers w1; nextTimer := nextTimer w1;
      nextPromise := S promise; awaiting := awaiting w1; flushed := flushed w1;
      supplied := <[promise := executor]> (supplied w1); settled := settled w1 |}).

(** [add(config, executor)]: the promise it returns and the batcher
    afterwards. *)
Definition add (config : AxiosRequestConfig) (executor : Executor) (w : RequestBatcher)
  : nat * RequestBatcher :=
  let promise := nextPromise w in
  let batchKey := getBatchKey config in
  let '(batch, w2) := enqueue config executor w in
  if Z.of_nat (length (batch_requests batch)) >=? maxBatchSize w2
  then (promise, executeBatch BySize batchKey executor (clearTimeout (timeout batch) w2))
  else (promise, w2).

(** The timer with handle [handle] fires, if it is still armed. *)
Definition fireTimer (handle : nat) (w : RequestBatcher) : RequestBatcher :=
  match timers w !! handle with
  | None => w
  | Some callback =>
      executeBatch ByTimer (cb_batchKey callback) (cb_executor callback)
                   (set_timers (delete handle (timers w)) w)
  end.

Inductive BatcherEvent :=
| EvAdd (config : AxiosRequestConfig) (executor : Executor)
| EvTimer (handle : nat)
| EvSettle (handle : nat) (outcome : Outcome).

Definition step (w : RequestBatcher) (ev : BatcherEvent) : RequestBatcher :=
  match ev with
  | EvAdd config executor => (add config executor w).2
  | EvTimer handle => fireTimer handle w
  | EvSettle handle outcome => settle handle outcome w
  end.

Definition run (evs : list BatcherEvent) (w : RequestBatcher) : RequestBatcher :=
  foldl step w evs.

(** The handle of the timer armed for the batch of an activation
    identifies the group: [add] arms one timer per group it opens. *)
Definition handleOf (inv : Invocation) : nat := timeout (inv_batch inv).

Definition promisesOf (batch : Batch) : list nat :=
  req_promise <$> batch_requests batch.

(** The request whose [add] led to the activation: the first of the
    batch when the timer fired, the last when the batch became full. *)
Definition triggeringRequest (inv : Invocation) : option PendingRequest :=
  match inv_trigger inv with
  | ByTimer => head (batch_requests (inv_batch inv))
  | BySize => last (batch_requests (inv_batch inv))
  end.

(** What holds of every batcher reached from a new one. *)
Record consistent (w : RequestBatcher) : Prop := {
  open_groups :
    forall key batch, batches w !! key = Some batch ->
      exists first executor,
        head (batch_requests batch) = Some first /\
        supplied w !! req_promise first = Some executor /\
        timers w !! timeout batch
          = Some {| cb_batchKey := key; cb_executor := executor |} /\
        StronglySorted lt (promisesOf batch) /\
        Forall (fun p => (p < nextPromise w)%nat) (promisesOf batch);
  armed_timers :
    forall handle callback, timers w !! handle = Some callback ->
      (handle < nextTimer w)%nat /\
      exists batch,
        batches w !! cb_batchKey callback = Some batch /\ timeout batch = handle;
  flushed_groups :
    forall inv, inv ∈ flushed w ->
      (handleOf inv < nextTimer w)%nat /\
      timers w !! handleOf inv = None /\
      inv_configs inv = req_config <$> batch_requests (inv_batch inv) /\
      StronglySorted lt (promisesOf (inv_batch inv)) /\
      (inv_trigger inv = BySize ->
       maxBatchSize w <= Z.of_nat (length (batch_requests (inv_batch inv)))) /\
      exists req,
        triggeringRequest inv = Some req /\
        supplied w !! req_promise req = Some (inv_executor inv);
  flushed_once : NoDup (handleOf <$> flushed w);
  supplied_issued :
    forall p, is_Some (supplied w !! p) -> (p < nextPromise w)%nat;
  awaiting_flushed :
    forall handle inv, awaiting w !! handle = Some inv ->
      inv ∈ flushed w /\ handleOf inv = handle
}.

(** The batcher once the batch [batch] of [key] has been flushed: its
    timer is off the event loop ([clearTimeout], or the timer fired) and
    [executeBatch] ran up to its [await]. *)
Definition afterFlush (trigger : Trigger) (key : string) (executor : Executor)
           (batch : Batch) (w : RequestBatcher) : RequestBatcher :=
  executeBatch trigger key executor (set_timers (delete (timeout batch) (timers w)) w).

(** The promise a settlement is for. *)
Definition settledPromise (s : Settlement) : nat :=
  match s with
  | Resolved promise _ => promise
  | Rejected promise _ => promise
  end.

(** Where the promises of a batcher reached from a new one are: each
    promise returned by [add] is in one open batch or in one flushed
    batch, a flushed batch is awaiting its executor or has had all its
    promises settled, and nothing else is settled. *)
Record accounted (w : RequestBatcher) : Prop := {
  flushed_issued :
    forall inv p, inv ∈ flushed w -> p ∈ promisesOf (inv_batch inv) ->
      (p < nextPromise w)%nat;
  one_open_group :
    forall key key' batch batch' p,
      batches w !! key = Some batch -> batches w !! key' = Some batch' ->
      p ∈ promisesOf batch -> p ∈ promisesOf batch' -> key = key';
  open_not_flushed :
    forall key batch inv p,
      batches w !! key = Some batch -> inv ∈ flushed w ->
      p ∈ promisesOf batch -> p ∉ promisesOf (inv_batch inv);
  one_flushed_group :
    forall inv inv' p,
      inv ∈ flushed w -> inv' ∈ flushed w ->
      p ∈ promisesOf (inv_batch inv) -> p ∈ promisesOf (inv_batch inv') -> inv = inv';
  settled_once : NoDup (settledPromise <$> settled w);
  settled_flushed :
    forall p, p ∈ settledPromise <$> settled w ->
      exists inv, inv ∈ flushed w /\ awaiting w !! handleOf inv = None /\
                  p ∈ promisesOf (inv_batch inv);
  issued_somewhere :
    forall p, (p < nextPromise w)%nat ->
      (exists key batch, batches w !! key = Some batch /\ p ∈ promisesOf batch) \/
      (exists inv, inv ∈ flushed w /\ p ∈ promisesOf (inv_batch inv));
  flushed_state :
    forall inv, inv ∈ flushed w ->
      awaiting w !! handleOf inv = Some inv \/
      (forall p, p ∈ promisesOf (inv_batch inv) -> p ∈ settledPromise <$> settled w)
}.
End WithPlatform.

(** *** RequestMetrics

    The counters are [N]; the response times, their mean and the two
    rates are JavaScript numbers. *)

Record RequestMetrics := {
  totalRequests : N;
  successfulRequests : N;
  failedRequests : N;
  cacheHits : N;
  cacheMisses : N;
  averageResponseTime : PrimFloat.float;
  responseTimes : list PrimFloat.float
}.

Definition newRequestMetrics : RequestMetrics :=
  {| totalRequests := 0; successfulRequests := 0; failedRequests := 0;
     cacheHits := 0; cacheMisses := 0; averageResponseTime := JsNumber.ofN 0;
     responseTimes := [] |}.

Definition recordRequest (success : bool) (responseTimeMs : PrimFloat.float)
           (cacheHit : bool) (m : RequestMetrics) : RequestMetrics :=
  let pushed := responseTimes m ++ [responseTimeMs] in
  let times := if (1000 <? length pushed)%nat then drop 1 pushed else pushed in
  {| totalRequests := totalRequests m + 1;
     successfulRequests := if success then successfulRequests m + 1 else successfulRequests m;
     failedRequests := if success then failedRequests m else failedRequests m + 1;
     cacheHits := if cacheHit then cacheHits m + 1 else cacheHits m;
     cacheMisses := if cacheHit then cacheMisses m else cacheMisses m + 1;
     averageResponseTime :=
       PrimFloat.div (JsNumber.sum times) (JsNumber.ofNat (length times));
     responseTimes := times |}.

Record MetricsReport := {
  report : RequestMetrics;
  cacheHitRate : PrimFloat.float;
  successRate : PrimFloat.float
}.

Definition getMetrics (m : RequestMetrics) : MetricsReport :=
  let hitRate :=
    JsNumber.percentage (cacheHits m) (totalRequests m) (JsNumber.ofN 0) in
  let okRate :=
    JsNumber.percentage (successfulRequests m) (totalRequests m) (JsNumber.ofN 0) in
  {| report := m;
     cacheHitRate := JsNumber.roundToHundredths hitRate;
     successRate := JsNumber.roundToHundredths okRate |}.

Definition reset (_ : RequestMetrics) : RequestMetrics := newRequestMetrics.

Definition recordRequests (samples : list (bool * PrimFloat.float * bool))
           (m : RequestMetrics) : RequestMetrics :=
  foldl (fun m sample => recordRequest sample.1.1 sample.1.2 sample.2 m) m samples.

(** A concrete platform for examples: requests whose method is already
    in upper case and that carry no query parameters, responses whose
    body is a number, executors and errors that are named. *)
Definition exampleUpper (s : string) : string := s.

Definition exampleSearchParams (_ : unit) : string := "none".

Definition exampleConfig (path : string) : @AxiosRequestConfig unit :=
  {| method := Some "GET"; url := Some path; params := None |}.

Definition exampleResponse (body : nat) : @AxiosResponse nat :=
  {| resp_data := body; resp_etag := None; resp_lastModified := None |}.

(** Two requests for one path, differing in the query, each passed with
    an executor of its own, on a batcher that flushes at two requests. *)
Definition exampleEvents : list (@BatcherEvent unit string nat string) :=
  [EvAdd (exampleConfig "/a?page=1") "first"; EvAdd (exampleConfig "/a?page=2") "second"].

Definition exampleBatcher : @RequestBatcher unit string nat string :=
  run exampleUpper exampleEvents (newRequestBatcher 100 2).

Definition exampleInvocation : @Invocation unit string :=
  {| inv_batchKey := "GET:/a";
     inv_executor := "second";
     inv_configs := [exampleConfig "/a?page=1"; exampleConfig "/a?page=2"];
     inv_batch :=
       {| batch_requests :=
            [{| req_config := exampleConfig "/a?page=1"; req_promise := 0 |};
             {| req_config := exampleConfig "/a?page=2"; req_promise := 1 |}];
          timeout := 0 |};
     inv_trigger := BySize |}.

(** The same two requests on a batcher that flushes at three: the batch
    stays open until the timer armed by the first [add] fires. *)
Definition exampleTimerEvents : list (@BatcherEvent unit string nat string) :=
  [EvAdd (exampleConfig "/a?page=1") "first"; EvAdd (exampleConfig "/a?page=2") "second";
   EvTimer 0].

Definition exampleTimerBatcher : @RequestBatcher unit string nat string :=
  run exampleUpper exampleTimerEvents (newRequestBatcher 100 3).

Definition exampleTimerInvocation : @Invocation unit string :=
  {| inv_batchKey := "GET:/a";
     inv_executor := "first";
     inv_configs := [exampleConfig "/a?page=1"; exampleConfig "/a?page=2"];
     inv_batch :=
       {| batch_requests :=
            [{| req_config := exampleConfig "/a?page=1"; req_promise := 0 |};
             {| req_config := exampleConfig "/a?page=2"; req_promise := 1 |}];
          timeout := 0 |};
     inv_trigger := ByTimer |}.

End Performance.


(** * Properties *)

(** ** security.ts *)

Module SecurityFacts.
Import JsText Security.

(** *** maskToken *)

Lemma maskToken_nonempty (token : list ascii) :
  token <> [] ->
  maskToken token =
    if (length (cleanToken token) <=? 8)%nat then str "[REDACTED]"
    else take 4 (cleanToken token)
         ++ replicate (Nat.min 12 (length (cleanToken token) - 8)) "*"%char
         ++ drop (length (cleanToken token) - 4) (cleanToken token).
Proof.
  destruct token as [|c token]; [congruence | reflexivity].
Qed.

(** C8, as stated, fails twice.  Tokens of eight characters or fewer do
    not all get the same marker: the empty token gets ["[EMPTY]"], the
    token "short" gets ["[REDACTED]"].  And a token that is longer than
    eight characters once the Bearer prefix is stripped, but not once
    surrounding white space is trimmed as well, is redacted instead of
    keeping its first and last four characters. *)
Lemma maskToken_marker_counterexample :
  (exists t1 t2 : list ascii,
      (length (replace_bearer_prefix t1) <= 8)%nat /\
      (length (replace_bearer_prefix t2) <= 8)%nat /\
      maskToken t1 <> maskToken t2) /\
  (exists t : list ascii,
      (8 < length (replace_bearer_prefix t))%nat /\
      ~ take 4 (replace_bearer_prefix t) `prefix_of` maskToken t).
Proof.
  split.
  - exists (str ""), (str "short"). vm_compute. repeat split; [lia | lia | discriminate].
  - exists (str "abcdefgh  "). split; [vm_compute; lia|].
    intros [k Hk]. vm_compute in Hk. discriminate.
Qed.

(** C8 (amended): for a non-empty token, with the clean token being the
    token without a leading case-insensitive "Bearer" and the white space
    after it, trimmed of surrounding white space: [maskToken] is
    ["[REDACTED]"] when the clean token has at most 8 characters, and
    otherwise the first 4 characters of the clean token, then between 1
    and 12 asterisks ([min 12 (length - 8)] of them), then its last 4
    characters.  The empty token gives ["[EMPTY]"].  In particular
    "abcd1234efgh5678" is masked to a text that starts with "abcd", ends
    with "5678" and has asterisks between, and "short" to ["[REDACTED]"]. *)
Theorem maskToken_keeps_ends_only :
  (forall token : list ascii,
      token <> [] ->
      ((length (cleanToken token) <= 8)%nat -> maskToken token = str "[REDACTED]") /\
      ((8 < length (cleanToken token))%nat ->
       exists first4 middle last4 : list ascii,
         maskToken token = first4 ++ middle ++ last4 /\
         first4 `prefix_of` cleanToken token /\ length first4 = 4%nat /\
         last4 `suffix_of` cleanToken token /\ length last4 = 4%nat /\
         middle = replicate (Nat.min 12 (length (cleanToken token) - 8)) "*"%char /\
         (1 <= length middle <= 12)%nat)) /\
  maskToken [] = str "[EMPTY]" /\
  (maskToken (str "abcd1234efgh5678") = str "abcd" ++ str "********" ++ str "5678") /\
  maskToken (str "short") = str "[REDACTED]".
Proof.
  split; [|by repeat split].
  intros token Hne. rewrite (maskToken_nonempty token Hne).
  set (clean := cleanToken token).
  split; intros Hlen.
  - apply Nat.leb_le in Hlen. by rewrite Hlen.
  - assert ((length clean <=? 8)%nat = false) as -> by (apply Nat.leb_gt; lia).
    exists (take 4 clean), (replicate (Nat.min 12 (length clean - 8)) "*"%char),
           (drop (length clean - 4) clean).
    repeat split.
    + apply prefix_take.
    + rewrite length_take. lia.
    + apply suffix_drop.
    + rewrite length_drop. lia.
    + rewrite length_replicate. lia.
    + rewrite length_replicate. lia.
Qed.

Lemma maskToken_keeps_ends_only_witness :
  maskToken (str "Bearer abcd1234efgh5678ijkl") = str "abcd************ijkl" /\
  exists first4 middle last4 : list ascii,
    maskToken (str "Bearer abcd1234efgh5678ijkl") = first4 ++ middle ++ last4 /\
    first4 `prefix_of` cleanToken (str "Bearer abcd1234efgh5678ijkl") /\
    length first4 = 4%nat /\
    last4 `suffix_of` cleanToken (str "Bearer abcd1234efgh5678ijkl") /\
    length last4 = 4%nat /\
    middle = replicate
               (Nat.min 12 (length (cleanToken (str "Bearer abcd1234efgh5678ijkl")) - 8))
               "*"%char /\
    (1 <= length middle <= 12)%nat.
Proof.
  split; [reflexivity|].
  refine (proj2 (proj1 maskToken_keeps_ends_only
                   (str "Bearer abcd1234efgh5678ijkl") _) _).
  - discriminate.
  - vm_compute. lia.
Defined.

(** *** AuthRateLimiter *)

Lemma isAllowed_starts_window (identifier : string) (now : Z) (l : AuthRateLimiter) :
  windowOpenAt identifier now l ->
  isAllowed identifier now l =
    (true, set_attempts (<[identifier := {| count := 1; firstAttempt := now |}]> (attempts l)) l).
Proof.
  unfold windowOpenAt, isAllowed. destruct (attempts l !! identifier) as [r|]; [|done].
  intros H. by assert ((now - firstAttempt r >? windowMs l) = true) as -> by lia.
Qed.

Lemma isAllowed_counts (identifier : string) (now : Z) (l : AuthRateLimiter) (r : AttemptRecord) :
  attempts l !! identifier = Some r ->
  now - firstAttempt r <= windowMs l ->
  count r < maxAttempts l ->
  isAllowed identifier now l =
    (true, set_attempts (<[identifier := {| count := count r + 1;
                                            firstAttempt := firstAttempt r |}]> (attempts l)) l).
Proof.
  intros Hr Hw Hc. unfold isAllowed. rewrite Hr.
  assert ((now - firstAttempt r >? windowMs l) = false) as -> by lia.
  by assert ((count r >=? maxAttempts l) = false) as -> by lia.
Qed.

Lemma isAllowed_refuses (identifier : string) (now : Z) (l : AuthRateLimiter) (r : AttemptRecord) :
  attempts l !! identifier = Some r ->
  now - firstAttempt r <= windowMs l ->
  maxAttempts l <= count r ->
  isAllowed identifier now l = (false, l).
Proof.
  intros Hr Hw Hc. unfold isAllowed. rewrite Hr.
  assert ((now - firstAttempt r >? windowMs l) = false) as -> by lia.
  by assert ((count r >=? maxAttempts l) = true) as -> by lia.
Qed.

(** Calls for one identifier leave the records of the others alone. *)
Lemma isAllowed_other (identifier other : string) (now : Z) (l : AuthRateLimiter) :
  identifier <> other ->
  attempts (isAllowed identifier now l).2 !! other = attempts l !! other.
Proof.
  intros Hne. unfold isAllowed.
  destruct (attempts l !! identifier) as [r|]; simpl;
    repeat case_match; simpl; by rewrite ?lookup_insert_ne.
Qed.

(** [k] further calls inside the window of a record that has room for
    them are all allowed, and each adds one to the counter. *)
Lemma isAllowedAt_counts (identifier : string) (times : list Z) :
  forall (l : AuthRateLimiter) (r : AttemptRecord),
    attempts l !! identifier = Some r ->
    Forall (fun now => now - firstAttempt r <= windowMs l) times ->
    count r + Z.of_nat (length times) <= maxAttempts l ->
    exists l',
      isAllowedAt identifier times l = (replicate (length times) true, l') /\
      attempts l' !! identifier =
        Some {| count := count r + Z.of_nat (length times);
                firstAttempt := firstAttempt r |} /\
      maxAttempts l' = maxAttempts l /\ windowMs l' = windowMs l.
Proof.
  induction times as [|now times IH]; intros l r Hr Hin Hroom.
  - exists l. simpl. rewrite Z.add_0_r. by destruct r.
  - apply Forall_cons in Hin as [Hnow Hin]. simpl length in Hroom.
    simpl. rewrite (isAllowed_counts identifier now l r Hr Hnow) by lia.
    edestruct (IH (set_attempts
                     (<[identifier := {| count := count r + 1;
                                         firstAttempt := firstAttempt r |}]> (attempts l)) l))
      as (l' & Hrun & Hrec & Hmax & Hwin).
    + simpl. apply lookup_insert_eq.
    + done.
    + simpl. lia.
    + exists l'. rewrite Hrun. simpl in *. split_and!; try done.
      rewrite Hrec. do 2 f_equal. lia.
Qed.

(** C4: with [maxAttempts = 5] and [windowMs = 900000], for an identifier
    that has no record or whose window is over at [t1]: the calls at
    [t1], ..., [t5], the later ones no more than the window after [t1],
    are all allowed; a sixth call inside the window is refused and leaves
    the limiter as it was, the counter at 5; and the next call after the
    window has elapsed is allowed and leaves the record at [count = 1]
    with that call's time as the start of a new window. *)
Theorem isAllowed_five_then_refuse_then_reset
    (l : AuthRateLimiter) (identifier : string) (t1 t2 t3 t4 t5 t6 t7 : Z) :
  maxAttempts l = 5 ->
  windowMs l = 900000 ->
  windowOpenAt identifier t1 l ->
  Forall (fun t => t - t1 <= 900000) [t2; t3; t4; t5; t6] ->
  900000 < t7 - t1 ->
  exists l5 l7 : AuthRateLimiter,
    isAllowedAt identifier [t1; t2; t3; t4; t5] l = ([true; true; true; true; true], l5) /\
    attempts l5 !! identifier = Some {| count := 5; firstAttempt := t1 |} /\
    isAllowed identifier t6 l5 = (false, l5) /\
    isAllowed identifier t7 l5 = (true, l7) /\
    attempts l7 !! identifier = Some {| count := 1; firstAttempt := t7 |}.
Proof.
  intros Hmax Hwin Hopen Hin Hout.
  apply Forall_cons in Hin as [H2 Hin]. apply Forall_cons in Hin as [H3 Hin].
  apply Forall_cons in Hin as [H4 Hin]. apply Forall_cons in Hin as [H5 Hin].
  apply Forall_cons in Hin as [H6 _].
  set (l1 := set_attempts (<[identifier := {| count := 1; firstAttempt := t1 |}]> (attempts l)) l).
  destruct (isAllowedAt_counts identifier [t2; t3; t4; t5] l1
              {| count := 1; firstAttempt := t1 |}) as (l5 & Hrun & Hrec & Hmax5 & Hwin5).
  { apply lookup_insert_eq. }
  { simpl. rewrite Hwin. repeat constructor; done. }
  { simpl. lia. }
  simpl in Hrec, Hmax5, Hwin5.
  eexists l5, _. split_and!.
  - change (isAllowedAt identifier [t1; t2; t3; t4; t5] l)
      with (let '(answer, l') := isAllowed identifier t1 l in
            let '(answers, l'') := isAllowedAt identifier [t2; t3; t4; t5] l' in
            (answer :: answers, l'')).
    rewrite (isAllowed_starts_window identifier t1 l Hopen). fold l1. by rewrite Hrun.
  - done.
  - apply (isAllowed_refuses identifier t6 l5 _ Hrec); simpl; lia.
  - apply isAllowed_starts_window. unfold windowOpenAt. rewrite Hrec. simpl. lia.
  - simpl. apply lookup_insert_eq.
Qed.

Lemma isAllowed_five_then_refuse_then_reset_witness :
  exists l5 l7 : AuthRateLimiter,
    isAllowedAt "alice" [1000; 2000; 3000; 4000; 901000] defaultAuthRateLimiter
      = ([true; true; true; true; true], l5) /\
    attempts l5 !! "alice" = Some {| count := 5; firstAttempt := 1000 |} /\
    isAllowed "alice" 901000 l5 = (false, l5) /\
    isAllowed "alice" 901001 l5 = (true, l7) /\
    attempts l7 !! "alice" = Some {| count := 1; firstAttempt := 901001 |}.
Proof.
  apply (isAllowed_five_then_refuse_then_reset
           defaultAuthRateLimiter "alice" 1000 2000 3000 4000 901000 901000 901001).
  - reflexivity.
  - reflexivity.
  - exact I.
  - repeat constructor; simpl; lia.
  - lia.
Defined.

End SecurityFacts.

(** ** logging.ts: HealthMonitor *)

Module LoggingFacts.
Import Logging.

Lemma Qlt_bool_iff (x y : Q) : Qlt_bool x y = true <-> (x < y)%Q.
Proof.
  unfold Qlt_bool. rewrite negb_true_iff. split.
  - intros H. apply Qnot_le_lt. intros Hle. apply Qle_bool_iff in Hle. congruence.
  - intros H. destruct (Qle_bool y x) eqn:E; [|done].
    apply Qle_bool_iff in E. exfalso. by apply (Qlt_not_le x y).
Qed.

(** The success rate is at least 95 exactly when no request was recorded
    or at least 95 in 100 of the recorded ones succeeded. *)
Lemma successRate_ge_95 (m : Metrics) :
  (95 <= successRate m)%Q <->
  (total (requests m) = 0 \/ 95 * total (requests m) <= 100 * successful (requests m))%N.
Proof.
  unfold successRate, QofN. destruct (total (requests m)) as [|p] eqn:Et; simpl.
  - split; [by left|]. intros _. by unfold Qle.
  - unfold Qle, Qdiv, Qmult, Qinv. simpl. split.
    + intros H. right. lia.
    + intros [H|H]; [done|]. lia.
Qed.

Lemma tenth_of_successes (f s : N) :
  (QofN f < QofN s * (1 # 10))%Q <-> (10 * f < s)%N.
Proof. unfold QofN, Qlt, Qmult. simpl. lia. Qed.

Lemma authWorking_iff (now : Z) (m : Metrics) :
  authWorking (computeChecks now m) = true <->
  (10 * auth_failed (auth m) < auth_successful (auth m))%N.
Proof. simpl. by rewrite Qlt_bool_iff, tenth_of_successes. Qed.

Lemma noRecentErrors_iff (now : Z) (m : Metrics) :
  (forall t, lastErrorTime (errors m) = Some t -> t <> 0) ->
  noRecentErrors (computeChecks now m) = true <->
  (forall t, lastErrorTime (errors m) = Some t -> 5 * 60 * 1000 < now - t).
Proof.
  intros Hclock. simpl. destruct (lastErrorTime (errors m)) as [t|].
  - specialize (Hclock t eq_refl). split.
    + intros H t' [= <-]. lia.
    + intros H. specialize (H t eq_refl). lia.
  - split; [intros _ t [=] | done].
Qed.

(** The verdict as a function of the four checks. *)
Lemma status_of_checks (now : Z) (h : HealthMonitor) :
  totalChecks (checks (getHealthStatus now h)) = 4%nat /\
  (status (getHealthStatus now h) = healthy <->
     healthyChecks (checks (getHealthStatus now h)) = 4%nat) /\
  (status (getHealthStatus now h) = degraded <->
     healthyChecks (checks (getHealthStatus now h)) = 3%nat) /\
  (status (getHealthStatus now h) = unhealthy <->
     (healthyChecks (checks (getHealthStatus now h)) < 3)%nat).
Proof.
  unfold getHealthStatus. simpl.
  destruct (computeChecks now (metrics h)) as [[] [] [] []];
    vm_compute; split_and!; intros; solve [done | lia].
Qed.

Lemma healthyChecks_all (c : Checks) :
  healthyChecks c = 4%nat <->
  highSuccessRate c = true /\ noRecentErrors c = true /\
  reasonableResponseTime c = true /\ authWorking c = true.
Proof. destruct c as [[] [] [] []]; vm_compute; intuition congruence. Qed.

Lemma healthyChecks_le_total (c : Checks) : (healthyChecks c <= 4)%nat.
Proof. destruct c as [[] [] [] []]; vm_compute; lia. Qed.

(** Seventy percent of four checks is three of them. *)
Lemma seventy_percent (c : Checks) :
  (7 # 10 <= inject_Z (Z.of_nat (healthyChecks c)) / inject_Z (Z.of_nat (totalChecks c)))%Q
  <-> (3 <= healthyChecks c)%nat.
Proof. destruct c as [[] [] [] []]; vm_compute; intuition (congruence || lia). Qed.

(** No successful authentication on record: the fourth check fails. *)
Lemma authWorking_false (now : Z) (m : Metrics) :
  auth_successful (auth m) = 0%N -> authWorking (computeChecks now m) = false.
Proof.
  intros H0. apply not_true_is_false. rewrite authWorking_iff, H0. lia.
Qed.

Lemma recordAll_snoc (evs : list Recorded) (ev : Recorded) (h : HealthMonitor) :
  recordAll (evs ++ [ev]) h = record (recordAll evs h) ev.
Proof. unfold recordAll. by rewrite foldl_app. Qed.

Lemma auth_successful_unchanged (evs : list Recorded) (h : HealthMonitor) :
  RecAuth AuthSuccess ∉ evs ->
  auth_successful (auth (metrics (recordAll evs h))) = auth_successful (auth (metrics h)).
Proof.
  induction evs as [|ev evs IH] using rev_ind; [done|].
  intros Hnot. rewrite recordAll_snoc.
  rewrite <- IH by (intros Hin; apply Hnot, elem_of_app; by left).
  destruct ev as [ok t|[]|hit|msg t]; try done.
  exfalso. apply Hnot, elem_of_app. right. by apply list_elem_of_singleton.
Qed.

(** C1, as stated, fails at the scenario: a monitor that recorded the
    100 requests (96 successful, 200 ms each), no error and no
    authentication at all has 0 authentication failures, yet it is
    [degraded], with three checks of four passing. *)
Lemma healthy_scenario_counterexample :
  total (requests (metrics scenarioMonitor)) = 100%N /\
  successful (requests (metrics scenarioMonitor)) = 96%N /\
  lastErrorTime (errors (metrics scenarioMonitor)) = None /\
  (avgResponseTime (requests (metrics scenarioMonitor)) == 200)%Q /\
  auth_failed (auth (metrics scenarioMonitor)) = 0%N /\
  status (getHealthStatus 60000 scenarioMonitor) = degraded /\
  healthyChecks (checks (getHealthStatus 60000 scenarioMonitor)) = 3%nat /\
  authWorking (checks (getHealthStatus 60000 scenarioMonitor)) = false.
Proof. vm_compute. by split_and!. Qed.

(** C1 (amended): for every monitor whose recorded error time, if any, is
    a non-zero clock reading, [getHealthStatus] derives four checks:
    success rate at least 95% (no request counts as 100%), no error
    within the last 5 minutes, average latency below 5000 ms,
    authentication failures fewer than 10% of the successes; the status
    is [healthy] iff all four hold, [degraded] iff not all but at least
    70% of them hold, and [unhealthy] otherwise.  In particular, with 100
    requests of which 96 succeeded, no error in the last 5 minutes, an
    average latency of 200 ms, 0 authentication failures and at least
    one authentication success, the status is [healthy] with 4 checks of
    4 passing. *)
Theorem getHealthStatus_checks_and_status (h : HealthMonitor) (now : Z) :
  (forall t, lastErrorTime (errors (metrics h)) = Some t -> t <> 0) ->
  let m := metrics h in
  let r := getHealthStatus now h in
  let share := (inject_Z (Z.of_nat (healthyChecks (checks r)))
                / inject_Z (Z.of_nat (totalChecks (checks r))))%Q in
  (highSuccessRate (checks r) = true <-> (95 <= successRate m)%Q) /\
  (noRecentErrors (checks r) = true <->
     forall t, lastErrorTime (errors m) = Some t -> 5 * 60 * 1000 < now - t) /\
  (reasonableResponseTime (checks r) = true <-> (avgResponseTime (requests m) < 5000)%Q) /\
  (authWorking (checks r) = true <->
     (10 * auth_failed (auth m) < auth_successful (auth m))%N) /\
  totalChecks (checks r) = 4%nat /\
  (status r = healthy <->
     highSuccessRate (checks r) = true /\ noRecentErrors (checks r) = true /\
     reasonableResponseTime (checks r) = true /\ authWorking (checks r) = true) /\
  (status r = degraded <-> status r <> healthy /\ (7 # 10 <= share)%Q) /\
  (status r = unhealthy <-> ~ (7 # 10 <= share)%Q) /\
  (total (requests m) = 100%N ->
   successful (requests m) = 96%N ->
   (forall t, lastErrorTime (errors m) = Some t -> 5 * 60 * 1000 < now - t) ->
   (avgResponseTime (requests m) == 200)%Q ->
   auth_failed (auth m) = 0%N ->
   (0 < auth_successful (auth m))%N ->
   status r = healthy /\ healthyChecks (checks r) = 4%nat).
Proof.
  intros Hclock m r share.
  destruct (status_of_checks now h) as (Htot & Hhealthy & Hdegraded & Hunhealthy).
  fold r in Htot, Hhealthy, Hdegraded, Hunhealthy.
  pose proof (seventy_percent (checks r)) as H70. fold share in H70.
  assert (highSuccessRate (checks r) = true <-> (95 <= successRate m)%Q) as Hhigh
    by apply Qle_bool_iff.
  assert (noRecentErrors (checks r) = true <->
          forall t, lastErrorTime (errors m) = Some t -> 5 * 60 * 1000 < now - t) as Hrecent
    by apply (noRecentErrors_iff now m Hclock).
  assert (reasonableResponseTime (checks r) = true <->
          (avgResponseTime (requests m) < 5000)%Q) as Hfast
    by apply Qlt_bool_iff.
  assert (authWorking (checks r) = true <->
          (10 * auth_failed (auth m) < auth_successful (auth m))%N) as Hauth
    by apply authWorking_iff.
  split_and!; try done.
  - by rewrite Hhealthy, healthyChecks_all.
  - pose proof (healthyChecks_le_total (checks r)). rewrite Hdegraded, Hhealthy, H70. lia.
  - rewrite Hunhealthy, H70. lia.
  - intros Ht Hs Hnone Havg Hfailed Hsucceeded.
    assert (healthyChecks (checks r) = 4%nat) as Hall; [|by rewrite Hhealthy].
    apply healthyChecks_all. split_and!.
    + apply Hhigh, successRate_ge_95. right. rewrite Ht, Hs. lia.
    + by apply Hrecent.
    + apply Hfast. rewrite Havg. reflexivity.
    + apply Hauth. lia.
Qed.

Lemma getHealthStatus_checks_and_status_witness :
  status (getHealthStatus 400000 scenarioMonitorWithAuth) = healthy /\
  healthyChecks (checks (getHealthStatus 400000 scenarioMonitorWithAuth)) = 4%nat.
Proof.
  assert (forall t, lastErrorTime (errors (metrics scenarioMonitorWithAuth)) = Some t -> t <> 0)
    as Hclock by (intros t [= <-]; lia).
  destruct (getHealthStatus_checks_and_status scenarioMonitorWithAuth 400000 Hclock)
    as (_ & _ & _ & _ & _ & _ & _ & _ & Hscenario).
  apply Hscenario.
  - reflexivity.
  - reflexivity.
  - intros t [= <-]. lia.
  - reflexivity.
  - reflexivity.
  - reflexivity.
Defined.

(** C10: whenever no authentication success is on record, the
    [authWorking] check is false, also with no failure on record
    (0 < 0 * 0.1 does not hold), and the status is not [healthy]; so a
    monitor whose history holds no successful authentication never
    reports [healthy]. *)
Theorem no_auth_success_never_healthy :
  (forall (h : HealthMonitor) (now : Z),
      auth_successful (auth (metrics h)) = 0%N ->
      authWorking (checks (getHealthStatus now h)) = false /\
      status (getHealthStatus now h) <> healthy) /\
  (forall (evs : list Recorded) (start now : Z),
      RecAuth AuthSuccess ∉ evs ->
      status (getHealthStatus now (recordAll evs (newHealthMonitor start))) <> healthy) /\
  authWorking (checks (getHealthStatus 0 (newHealthMonitor 0))) = false.
Proof.
  assert (forall (h : HealthMonitor) (now : Z),
             auth_successful (auth (metrics h)) = 0%N ->
             authWorking (checks (getHealthStatus now h)) = false /\
             status (getHealthStatus now h) <> healthy) as Hstate.
  { intros h now H0.
    pose proof (authWorking_false now (metrics h) H0) as Hfalse.
    split; [exact Hfalse|].
    destruct (status_of_checks now h) as (_ & Hhealthy & _).
    intros Hs. apply Hhealthy, healthyChecks_all in Hs.
    destruct Hs as (_ & _ & _ & Htrue).
    change (authWorking (computeChecks now (metrics h)) = true) in Htrue.
    rewrite Hfalse in Htrue. discriminate. }
  split_and!; [exact Hstate| |reflexivity].
  intros evs start now Hnot. apply Hstate.
  by rewrite auth_successful_unchanged.
Qed.

Lemma no_auth_success_never_healthy_witness :
  authWorking (checks (getHealthStatus 60000 scenarioMonitor)) = false /\
  status (getHealthStatus 60000 scenarioMonitor) <> healthy.
Proof.
  apply (proj1 no_auth_success_never_healthy scenarioMonitor 60000).
  reflexivity.
Defined.

End LoggingFacts.

(** ** performance.ts: ResponseCache *)

Module CacheFacts.
Import JsText Performance.

(** *** The insertion-ordered map *)

Section OrderedMapFacts.
Context {V : Type}.
Implicit Types (m : list (string * V)) (k : string) (v : V).

Lemma omap_get_set_eq k v m : omap_get k (omap_set k v m) = Some v.
Proof.
  induction m as [|[k' v'] m IH]; simpl.
  - by rewrite bool_decide_true.
  - case_bool_decide; simpl; [by rewrite bool_decide_true | by rewrite bool_decide_false].
Qed.

Lemma omap_get_Some_keys k v m : omap_get k m = Some v -> k ∈ omap_keys m.
Proof.
  induction m as [|[k' v'] m IH]; simpl; [done|].
  case_bool_decide; [subst; intros _; apply list_elem_of_here|].
  intros Hget. apply list_elem_of_further. by apply IH.
Qed.

Lemma omap_get_None_keys k m : omap_get k m = None <-> k ∉ omap_keys m.
Proof.
  induction m as [|[k' v'] m IH]; simpl.
  - split; [intros _; apply not_elem_of_nil | done].
  - rewrite not_elem_of_cons. case_bool_decide as Hk.
    + split; [done | intros [Hne _]; by subst].
    + rewrite IH. split; [intros Hnin; split; [congruence | done] | by intros [_ Hnin]].
Qed.

Lemma omap_keys_set k v m :
  omap_keys (omap_set k v m) =
    if bool_decide (k ∈ omap_keys m) then omap_keys m else omap_keys m ++ [k].
Proof.
  induction m as [|[k' v'] m IH].
  - rewrite bool_decide_false; [reflexivity | apply not_elem_of_nil].
  - cbn [omap_set]. destruct (decide (k' = k)) as [->|Hk].
    + rewrite (bool_decide_true (k = k)) by done.
      rewrite bool_decide_true; [reflexivity | apply list_elem_of_here].
    + rewrite (bool_decide_false (k' = k)) by done.
      change (omap_keys ((k', v') :: omap_set k v m)) with (k' :: omap_keys (omap_set k v m)).
      change (omap_keys ((k', v') :: m)) with (k' :: omap_keys m).
      rewrite IH. destruct (decide (k ∈ omap_keys m)) as [Hin|Hnin].
      * rewrite !bool_decide_true; [done | by apply list_elem_of_further | done].
      * rewrite !bool_decide_false; [done | | done].
        rewrite not_elem_of_cons. split; [congruence | done].
Qed.

Lemma omap_delete_head k v m : omap_delete k ((k, v) :: m) = m.
Proof. simpl. by rewrite bool_decide_true. Qed.

Lemma omap_keys_delete_sublist k m : omap_keys (omap_delete k m) `sublist_of` omap_keys m.
Proof.
  induction m as [|[k' v'] m IH]; simpl; [done|].
  case_bool_decide; simpl; [by apply sublist_cons | by apply sublist_skip].
Qed.

Lemma omap_keys_delete_absent k m :
  NoDup (omap_keys m) -> k ∉ omap_keys (omap_delete k m).
Proof.
  induction m as [|[k' v'] m IH]; simpl; [intros _; apply not_elem_of_nil|].
  intros [Hnotin Hnd]%NoDup_cons. case_bool_decide; simpl; [by subst|].
  rewrite not_elem_of_cons. split; [done | by apply IH].
Qed.

Lemma omap_keys_delete_other k k' m :
  k' <> k -> k' ∈ omap_keys m -> k' ∈ omap_keys (omap_delete k m).
Proof.
  intros Hne. induction m as [|[k0 v0] m IH]; simpl; [done|].
  intros [->|Hin]%elem_of_cons; case_bool_decide; simpl; subst.
  - done.
  - apply list_elem_of_here.
  - done.
  - apply list_elem_of_further. by apply IH.
Qed.

Lemma omap_get_delete k m :
  NoDup (omap_keys m) -> omap_get k (omap_delete k m) = None.
Proof. intros Hnd. by apply omap_get_None_keys, omap_keys_delete_absent. Qed.

Lemma omap_length_delete k m : (length (omap_delete k m) <= length m)%nat.
Proof.
  pose proof (sublist_length _ _ (omap_keys_delete_sublist k m)) as Hlen.
  unfold omap_keys in Hlen. by rewrite !length_fmap in Hlen.
Qed.

Lemma omap_length_set k v m : (length (omap_set k v m) <= S (length m))%nat.
Proof.
  induction m as [|[k' v'] m IH]; simpl; [lia|]. case_bool_decide; simpl; lia.
Qed.

End OrderedMapFacts.

(** *** ResponseCache *)

Section ResponseCacheFacts.
Context {Data Params : Type}.
Variable toUpperCase : string -> string.
Variable searchParams : Params -> string.

Local Abbreviation Cache := (@ResponseCache Data).
Local Abbreviation Entry := (@CacheEntry Data).
Local Abbreviation keyOf := (createCacheKey toUpperCase searchParams).
Local Abbreviation get_ := (get toUpperCase searchParams).
Local Abbreviation set_ := (set toUpperCase searchParams).
Local Abbreviation call_ := (call toUpperCase searchParams).
Local Abbreviation calls_ := (calls toUpperCase searchParams).

Implicit Types (c : Cache) (config : @AxiosRequestConfig Params)
         (response : @AxiosResponse Data) (op : @CacheCall Data Params).

Lemma append_empty_l (s1 s2 : string) : s1 +:+ s2 = "" -> s1 = "".
Proof. by destruct s1. Qed.

Lemma methodOrGet_nonempty config : methodOrGet toUpperCase config <> "".
Proof.
  unfold methodOrGet. destruct (method config) as [m|]; [|done].
  by case_bool_decide.
Qed.

Lemma createCacheKey_nonempty config : keyOf config <> "".
Proof.
  unfold createCacheKey. intros Hempty.
  apply (methodOrGet_nonempty config).
  destruct (params config); [apply append_empty_l in Hempty|];
    by apply append_empty_l in Hempty.
Qed.

(** The eviction takes the head off a full, well-formed cache and leaves
    any other cache alone. *)
Lemma evictOldest_full c k (e : Entry) rest :
  wellFormed c -> cache c = (k, e) :: rest -> maxSize c <= size c ->
  evictOldest c = rest.
Proof.
  intros [_ Hne] Hc Hfull. unfold evictOldest, size in *.
  assert ((Z.of_nat (length (cache c)) >=? maxSize c) = true) as -> by lia.
  rewrite Hc in *. simpl. rewrite bool_decide_false.
  - by rewrite bool_decide_true.
  - intros ->. apply Hne. apply list_elem_of_here.
Qed.

Lemma evictOldest_room c : size c < maxSize c -> evictOldest c = cache c.
Proof.
  intros Hroom. unfold evictOldest, size in *.
  by assert ((Z.of_nat (length (cache c)) >=? maxSize c) = false) as -> by lia.
Qed.

Lemma evictOldest_sublist c : omap_keys (evictOldest c) `sublist_of` omap_keys (cache c).
Proof.
  unfold evictOldest. destruct (_ >=? _); [|done].
  destruct (omap_first_key (cache c)); [|done].
  case_bool_decide; [done | apply omap_keys_delete_sublist].
Qed.

Lemma wellFormed_sublist c (m : list (string * Entry)) :
  omap_keys m `sublist_of` omap_keys (cache c) -> wellFormed c -> wellFormed (set_cache m c).
Proof.
  intros Hsub [Hnd Hne]. split; simpl.
  - by eapply sublist_NoDup.
  - intros Hin. apply Hne. by eapply elem_of_sublist.
Qed.

Lemma get_sublist config now c :
  omap_keys (cache (get_ config now c).2) `sublist_of` omap_keys (cache c).
Proof.
  unfold get. destruct (omap_get _ _) as [entry|]; [|done].
  destruct (_ >? _); [apply omap_keys_delete_sublist | done].
Qed.

Lemma wellFormed_call c op : wellFormed c -> wellFormed (call_ c op).
Proof.
  intros Hwf. destruct op as [config response ttlMs now|config now]; simpl.
  - pose proof (wellFormed_sublist c _ (evictOldest_sublist c) Hwf) as [Hnd Hne].
    simpl in Hnd, Hne. unfold set. split; simpl; rewrite omap_keys_set;
      case_bool_decide as Hin; try done.
    + apply NoDup_app. split_and!; [done | | apply NoDup_singleton].
      intros k Hk ->%list_elem_of_singleton. done.
    + rewrite elem_of_app, list_elem_of_singleton. intros [?|Hk]; [done|].
      by apply (createCacheKey_nonempty config).
  - destruct (get_ config now c) as [r c'] eqn:Hget.
    pose proof (get_sublist config now c) as Hsub. rewrite Hget in Hsub. simpl in *.
    destruct Hwf as [Hnd Hne]. split.
    + by eapply sublist_NoDup.
    + intros Hin. apply Hne. by eapply elem_of_sublist.
Qed.

Lemma calls_cons op (ops : list (@CacheCall Data Params)) c :
  calls_ (op :: ops) c = calls_ ops (call_ c op).
Proof. reflexivity. Qed.

Lemma wellFormed_calls (ops : list (@CacheCall Data Params)) c :
  wellFormed c -> wellFormed (calls_ ops c).
Proof.
  revert c. induction ops as [|op ops IH]; intros c Hwf; [done|].
  rewrite calls_cons. apply IH. by apply wellFormed_call.
Qed.

Lemma wellFormed_new (ttl max : Z) : wellFormed (@newResponseCache Data ttl max).
Proof. split; simpl; [apply NoDup_nil_2 | apply not_elem_of_nil]. Qed.

Lemma maxSize_call c op : maxSize (call_ c op) = maxSize c.
Proof.
  destruct op as [config response ttlMs now|config now]; simpl; [done|].
  unfold get. destruct (omap_get _ _); [|done]. by destruct (_ >? _).
Qed.

Lemma defaultTtl_call c op : defaultTtl (call_ c op) = defaultTtl c.
Proof.
  destruct op as [config response ttlMs now|config now]; simpl; [done|].
  unfold get. destruct (omap_get _ _); [|done]. by destruct (_ >? _).
Qed.

Lemma maxSize_calls (ops : list (@CacheCall Data Params)) c :
  maxSize (calls_ ops c) = maxSize c.
Proof.
  revert c. induction ops as [|op ops IH]; intros c; [done|].
  by rewrite calls_cons, IH, maxSize_call.
Qed.

Lemma defaultTtl_calls (ops : list (@CacheCall Data Params)) c :
  defaultTtl (calls_ ops c) = defaultTtl c.
Proof.
  revert c. induction ops as [|op ops IH]; intros c; [done|].
  by rewrite calls_cons, IH, defaultTtl_call.
Qed.

(** The size never passes [maxSize]. *)
Lemma size_call c op :
  1 <= maxSize c -> wellFormed c -> size c <= maxSize c ->
  size (call_ c op) <= maxSize c.
Proof.
  intros Hmax Hwf Hsize. destruct op as [config response ttlMs now|config now]; simpl.
  - unfold set, size. simpl.
    pose proof (omap_length_set (keyOf config)
                  {| data := resp_data response; timestamp := now;
                     etag := resp_etag response;
                     lastModified := resp_lastModified response;
                     expires := ttlMs |} (evictOldest c)) as Hset.
    destruct (decide (size c < maxSize c)) as [Hroom|Hfull].
    + rewrite (evictOldest_room c Hroom) in *. unfold size in *. lia.
    + destruct (cache c) as [|[k e] rest] eqn:Hc; [unfold size in *; rewrite Hc in *; simpl in *; lia|].
      rewrite (evictOldest_full c k e rest Hwf Hc) in * by lia.
      unfold size in *. rewrite Hc in *. simpl in *. lia.
  - pose proof (sublist_length _ _ (get_sublist config now c)) as Hlen.
    unfold omap_keys in Hlen. rewrite !length_fmap in Hlen. unfold size in *. lia.
Qed.

Lemma size_calls (ops : list (@CacheCall Data Params)) c :
  1 <= maxSize c -> wellFormed c -> size c <= maxSize c ->
  size (calls_ ops c) <= maxSize c.
Proof.
  revert c. induction ops as [|op ops IH]; intros c Hmax Hwf Hsize; [done|].
  rewrite calls_cons, <- (maxSize_call c op). apply IH.
  - by rewrite maxSize_call.
  - by apply wellFormed_call.
  - rewrite maxSize_call. by apply size_call.
Qed.

(** *** Insertion order *)

Lemma StronglySorted_sublist {A} (R : relation A) (l1 l2 : list A) :
  l1 `sublist_of` l2 -> StronglySorted R l2 -> StronglySorted R l1.
Proof.
  induction 1 as [|x l1 l2 Hsub IH|x l1 l2 Hsub IH]; intros Hs.
  - constructor.
  - apply StronglySorted_cons in Hs as [Hall Hs]. apply StronglySorted_cons.
    split; [|by apply IH]. rewrite Forall_forall in *.
    intros y Hy. apply Hall. by eapply elem_of_sublist.
  - apply StronglySorted_cons in Hs as [_ Hs]. by apply IH.
Qed.

Lemma StronglySorted_impl_on {A} (R R' : relation A) (l : list A) :
  (forall x y, x ∈ l -> y ∈ l -> R x y -> R' x y) ->
  StronglySorted R l -> StronglySorted R' l.
Proof.
  induction l as [|x l IH]; intros Himpl Hs; [constructor|].
  apply StronglySorted_cons in Hs as [Hall Hs]. apply StronglySorted_cons. split.
  - rewrite Forall_forall in *. intros y Hy.
    apply Himpl; [apply list_elem_of_here | by apply list_elem_of_further | by apply Hall].
  - apply IH; [|done]. intros y z Hy Hz. apply Himpl; by apply list_elem_of_further.
Qed.

Lemma inInsertionOrder_agree (i : nat) (born born' : string -> option nat)
      (m : list (string * Entry)) :
  (forall k, k ∈ omap_keys m -> born' k = born k) ->
  inInsertionOrder i born m -> inInsertionOrder i born' m.
Proof.
  intros Hagree [Hsorted Hbound]. split.
  - apply (StronglySorted_impl_on (insertedBefore born)); [|done].
    intros x y Hx Hy (a & b & Ha & Hb & Hlt). exists a, b.
    by rewrite !Hagree.
  - rewrite Forall_forall in *. intros k Hk. rewrite Hagree by done. by apply Hbound.
Qed.

Lemma inInsertionOrder_sublist (i : nat) (born : string -> option nat)
      (m m' : list (string * Entry)) :
  omap_keys m' `sublist_of` omap_keys m ->
  inInsertionOrder i born m -> inInsertionOrder i born m'.
Proof.
  intros Hsub [Hsorted Hbound]. split.
  - by eapply StronglySorted_sublist.
  - rewrite Forall_forall in *. intros k Hk. apply Hbound. by eapply elem_of_sublist.
Qed.

Lemma inInsertionOrder_later (i j : nat) (born : string -> option nat)
      (m : list (string * Entry)) :
  (i <= j)%nat -> inInsertionOrder i born m -> inInsertionOrder j born m.
Proof.
  intros Hle [Hsorted Hbound]. split; [done|].
  eapply Forall_impl; [done|]. intros k (a & Ha & Hlt). exists a. split; [done | lia].
Qed.

Lemma stamp_kept (i : nat) (before after : list (string * Entry))
      (born : string -> option nat) (k : string) :
  k ∈ omap_keys after -> k ∈ omap_keys before -> stamp i before after born k = born k.
Proof. intros Ha Hb. unfold stamp. by rewrite !bool_decide_true. Qed.

Lemma stamp_new (i : nat) (before after : list (string * Entry))
      (born : string -> option nat) (k : string) :
  k ∈ omap_keys after -> k ∉ omap_keys before -> stamp i before after born k = Some i.
Proof. intros Ha Hb. unfold stamp. by rewrite bool_decide_true, bool_decide_false. Qed.

Lemma inInsertionOrder_stamp_sublist (i : nat) (born : string -> option nat)
      (before after : list (string * Entry)) :
  omap_keys after `sublist_of` omap_keys before ->
  inInsertionOrder i born before ->
  inInsertionOrder i (stamp i before after born) after.
Proof.
  intros Hsub Hord. apply (inInsertionOrder_agree i born).
  - intros k Hk. apply stamp_kept; [done | by eapply elem_of_sublist].
  - by eapply inInsertionOrder_sublist.
Qed.

Lemma inInsertionOrder_stamp_set (i : nat) (born : string -> option nat)
      (m : list (string * Entry)) (k : string) (e : Entry) :
  inInsertionOrder i born m ->
  inInsertionOrder (S i) (stamp i m (omap_set k e m) born) (omap_set k e m).
Proof.
  intros Hord. destruct (decide (k ∈ omap_keys m)) as [Hin|Hnin].
  - assert (omap_keys (omap_set k e m) = omap_keys m) as Hkeys
      by (by rewrite omap_keys_set, bool_decide_true).
    apply (inInsertionOrder_later i); [lia|].
    apply inInsertionOrder_stamp_sublist; [by rewrite Hkeys | done].
  - assert (omap_keys (omap_set k e m) = omap_keys m ++ [k]) as Hkeys
      by (by rewrite omap_keys_set, bool_decide_false).
    destruct Hord as [Hsorted Hbound].
    assert (forall k', k' ∈ omap_keys m ->
                       stamp i m (omap_set k e m) born k' = born k') as Hold.
    { intros k' Hk'. apply stamp_kept; [|done]. rewrite Hkeys, elem_of_app. by left. }
    assert (stamp i m (omap_set k e m) born k = Some i) as Hnew.
    { apply stamp_new; [|done]. rewrite Hkeys, elem_of_app, list_elem_of_singleton. by right. }
    unfold inInsertionOrder. rewrite Hkeys. split.
    + apply StronglySorted_app. split_and!.
      * intros x y Hx ->%list_elem_of_singleton.
        rewrite Forall_forall in Hbound. destruct (Hbound x Hx) as (a & Ha & Hlt).
        exists a, i. by rewrite Hold, Hnew.
      * apply (StronglySorted_impl_on (insertedBefore born)); [|done].
        intros x y Hx Hy (a & b & Ha & Hb & Hlt). exists a, b. by rewrite !Hold.
      * repeat constructor.
    + apply Forall_app. split.
      * rewrite Forall_forall in *. intros k' Hk'.
        destruct (Hbound k' Hk') as (a & Ha & Hlt). exists a. rewrite Hold by done.
        split; [done | lia].
      * apply Forall_singleton. exists i. split; [done | lia].
Qed.

Lemma inInsertionOrder_call (i : nat) (born : string -> option nat) c op :
  inInsertionOrder i born (cache c) ->
  inInsertionOrder (S i) (stampCall toUpperCase searchParams i c op born)
                   (cache (call_ c op)).
Proof.
  intros Hord. destruct op as [config response ttlMs now|config now].
  - unfold stampCall. simpl. apply inInsertionOrder_stamp_set.
    apply inInsertionOrder_stamp_sublist; [apply evictOldest_sublist | done].
  - unfold stampCall. apply (inInsertionOrder_later i); [lia|].
    apply inInsertionOrder_stamp_sublist; [apply get_sublist | done].
Qed.

Lemma inInsertionOrder_calls (ops : list (@CacheCall Data Params)) :
  forall c (i : nat) (born : string -> option nat),
    inInsertionOrder i born (cache c) ->
    inInsertionOrder (i + length ops)
                     (insertedAtFrom toUpperCase searchParams ops c i born)
                     (cache (calls_ ops c)).
Proof.
  induction ops as [|op ops IH]; intros c i born Hord.
  - simpl. by rewrite Nat.add_0_r.
  - rewrite calls_cons. simpl insertedAtFrom. simpl length.
    replace (i + S (length ops))%nat with (S i + length ops)%nat by lia.
    apply IH. by apply inInsertionOrder_call.
Qed.

(** C2 (amended): for an entry held by a cache reached from the empty
    one, [get] misses iff [now - timestamp] is strictly greater than the
    effective TTL, which is the entry's [expires] when that was supplied
    to [set] and is not 0, and the default TTL otherwise
    ([expires || defaultTtl]); on such a miss the entry is deleted; a
    hit is the stored entry, not older than its effective TTL, and
    leaves the cache as it was.  [set] stores the [ttlMs] it was given
    as [expires] and the clock reading as [timestamp]. *)
Theorem get_miss_iff_expired
    (defaultTtlMs limit : Z) (ops : list (@CacheCall Data Params))
    config (now : Z) (entry : Entry) :
  let c := calls_ ops (newResponseCache defaultTtlMs limit) in
  omap_get (keyOf config) (cache c) = Some entry ->
  let ttl := match expires entry with
             | Some t => if t =? 0 then defaultTtlMs else t
             | None => defaultTtlMs
             end in
  ((get_ config now c).1 = None <-> ttl < now - timestamp entry) /\
  (ttl < now - timestamp entry ->
   omap_get (keyOf config) (cache (get_ config now c).2) = None /\
   forall k, k <> keyOf config ->
     k ∈ omap_keys (cache c) -> k ∈ omap_keys (cache (get_ config now c).2)) /\
  (forall hit : Entry,
      (get_ config now c).1 = Some hit ->
      hit = entry /\ now - timestamp hit <= ttl /\ (get_ config now c).2 = c) /\
  (forall response (ttlMs : option Z) (t0 : Z),
      omap_get (keyOf config) (cache (set_ config response ttlMs t0 c)) =
        Some {| data := resp_data response; timestamp := t0;
                etag := resp_etag response;
                lastModified := resp_lastModified response;
                expires := ttlMs |}).
Proof.
  intros c Hentry ttl.
  assert (wellFormed c) as [Hnd _] by apply wellFormed_calls, wellFormed_new.
  assert (effectiveTtl c entry = ttl) as Httl.
  { unfold effectiveTtl, ttl, c. by rewrite defaultTtl_calls. }
  unfold get. rewrite Hentry, Httl.
  destruct (Z.gtb (now - timestamp entry) ttl) eqn:Hcmp; simpl.
  - split_and!.
    + split; [lia | done].
    + intros _. split; [by apply omap_get_delete|].
      intros k Hk Hin. by apply omap_keys_delete_other.
    + intros hit [=].
    + intros response ttlMs t0. apply omap_get_set_eq.
  - split_and!.
    + split; [done | lia].
    + lia.
    + intros hit [= <-]. split_and!; [done | lia | done].
    + intros response ttlMs t0. apply omap_get_set_eq.
Qed.

(** C3 (amended): for every sequence of calls on a cache created with
    [maxSize >= 1], the cache never holds more than [maxSize] entries; a
    [set] on a cache that holds [maxSize] entries or more removes exactly
    the first entry of the map and then stores, every other key stays,
    and the key removed was inserted before every other key held; a
    [set] on a cache with room removes nothing; a hit of [get] leaves
    the cache, and so the order, as it was; and every [set] stores: the
    entry built from the response is what the key maps to afterwards, so
    the cache then holds at least one entry. *)
Theorem set_evicts_earliest_inserted
    (defaultTtlMs limit : Z) (ops : list (@CacheCall Data Params)) :
  1 <= limit ->
  let c0 := @newResponseCache Data defaultTtlMs limit in
  let c := calls_ ops c0 in
  size c <= limit /\
  (forall config response (ttlMs : option Z) (now : Z),
      limit <= size c ->
      exists (oldest : string) (entry : Entry) (rest : list (string * Entry)),
        cache c = (oldest, entry) :: rest /\
        (oldest ∉ omap_keys rest) /\
        cache (set_ config response ttlMs now c) =
          omap_set (keyOf config)
                   {| data := resp_data response; timestamp := now;
                      etag := resp_etag response;
                      lastModified := resp_lastModified response;
                      expires := ttlMs |} rest /\
        (forall k, k ∈ omap_keys rest ->
                   k ∈ omap_keys (cache (set_ config response ttlMs now c))) /\
        (forall k, k ∈ omap_keys rest ->
                   insertedBefore (insertedAt toUpperCase searchParams ops c0) oldest k)) /\
  (forall config response (ttlMs : option Z) (now : Z),
      size c < limit ->
      forall k, k ∈ omap_keys (cache c) ->
                k ∈ omap_keys (cache (set_ config response ttlMs now c))) /\
  (forall config (now : Z) (hit : Entry),
      (get_ config now c).1 = Some hit -> (get_ config now c).2 = c) /\
  (forall config response (ttlMs : option Z) (now : Z),
      omap_get (keyOf config) (cache (set_ config response ttlMs now c)) =
        Some {| data := resp_data response; timestamp := now;
                etag := resp_etag response;
                lastModified := resp_lastModified response;
                expires := ttlMs |} /\
      1 <= size (set_ config response ttlMs now c)).
Proof.
  intros Hmax c0 c.
  assert (wellFormed c) as Hwf by apply wellFormed_calls, wellFormed_new.
  assert (maxSize c = limit) as Hms by (unfold c; by rewrite maxSize_calls).
  assert (forall (m : list (string * Entry)) k k' (e : Entry),
             k' ∈ omap_keys m -> k' ∈ omap_keys (omap_set k e m)) as Hstay.
  { intros m k k' e Hin. rewrite omap_keys_set. case_bool_decide; [done|].
    rewrite elem_of_app. by left. }
  split_and!.
  - apply (size_calls ops c0); simpl; [done | apply wellFormed_new | unfold size; simpl; lia].
  - intros config response ttlMs now Hfull.
    destruct (cache c) as [|[oldest entry] rest] eqn:Hc.
    { unfold size in Hfull. rewrite Hc in Hfull. simpl in Hfull. lia. }
    exists oldest, entry, rest.
    assert (evictOldest c = rest) as Hevict
      by (apply (evictOldest_full c oldest entry rest Hwf Hc); lia).
    destruct Hwf as [Hnd _]. rewrite Hc in Hnd. apply NoDup_cons in Hnd as [Hnotin _].
    split_and!; try done.
    + unfold set. simpl. by rewrite Hevict.
    + intros k Hk. unfold set. simpl. rewrite Hevict. by apply Hstay.
    + intros k Hk.
      destruct (inInsertionOrder_calls ops c0 0 (fun _ => None)) as [Hsorted _].
      { split; constructor. }
      fold c in Hsorted. rewrite Hc in Hsorted.
      apply StronglySorted_cons in Hsorted as [Hall _].
      rewrite Forall_forall in Hall. by apply Hall.
  - intros config response ttlMs now Hroom k Hk.
    unfold set. simpl. rewrite evictOldest_room by lia. by apply Hstay.
  - intros config now hit. unfold get.
    destruct (omap_get _ _) as [e|]; [|done]. by destruct (_ >? _).
  - intros config response ttlMs now.
    assert (omap_get (keyOf config) (cache (set_ config response ttlMs now c)) =
              Some {| data := resp_data response; timestamp := now;
                      etag := resp_etag response;
                      lastModified := resp_lastModified response;
                      expires := ttlMs |}) as Hget by apply omap_get_set_eq.
    split; [done|]. apply omap_get_Some_keys in Hget. unfold size, omap_keys in *.
    destruct (cache (set_ config response ttlMs now c)) as [|pair stored];
      [by apply elem_of_nil in Hget | simpl; lia].
Qed.

End ResponseCacheFacts.

(** C3, as stated, fails for a cache made with [maxSize] 0, which the
    constructor accepts (only the configuration schema asks for 1 or
    more): the first [set] finds 0 >= 0 entries, has no first key to
    remove, and stores, so the cache then holds one entry, more than
    [maxSize], and no entry was evicted. *)
Lemma maxSize_zero_counterexample :
  maxSize (@newResponseCache nat 300000 0) <= size (@newResponseCache nat 300000 0) /\
  evictOldest (@newResponseCache nat 300000 0) = cache (@newResponseCache nat 300000 0) /\
  size (set exampleUpper exampleSearchParams (exampleConfig "/a") (exampleResponse 1)
            None 1000 (newResponseCache 300000 0)) = 1 /\
  maxSize (set exampleUpper exampleSearchParams (exampleConfig "/a") (exampleResponse 1)
               None 1000 (newResponseCache 300000 0))
    < size (set exampleUpper exampleSearchParams (exampleConfig "/a") (exampleResponse 1)
                None 1000 (newResponseCache 300000 0)).
Proof. vm_compute. by split_and!. Qed.

(** C2, as stated, fails for an override of 0: an entry stored at 1000
    with [ttlMs = 0] is still a hit at 5000, although 5000 - 1000 is
    strictly greater than the override; the default TTL applies. *)
Lemma zero_ttl_counterexample :
  exists entry : @CacheEntry nat,
    omap_get "GET:/a"
      (cache (set exampleUpper exampleSearchParams (exampleConfig "/a")
                  (exampleResponse 7) (Some 0) 1000 (newResponseCache 300000 1000)))
      = Some entry /\
    expires entry = Some 0 /\
    timestamp entry = 1000 /\
    0 < 5000 - timestamp entry /\
    (get exampleUpper exampleSearchParams (exampleConfig "/a") 5000
         (set exampleUpper exampleSearchParams (exampleConfig "/a")
              (exampleResponse 7) (Some 0) 1000 (newResponseCache 300000 1000))).1
      = Some entry.
Proof. eexists. vm_compute. by split_and!. Qed.

(** Eviction follows insertion, not access: with room for two entries,
    [/a] is read after [/b] was stored, and [/a] is still the entry that
    goes when [/c] arrives. *)
Example eviction_ignores_reads :
  omap_keys
    (cache (calls exampleUpper exampleSearchParams
                  [CallSet (exampleConfig "/a") (exampleResponse 1) None 1000;
                   CallSet (exampleConfig "/b") (exampleResponse 2) None 2000;
                   CallGet (exampleConfig "/a") 2500;
                   CallSet (exampleConfig "/c") (exampleResponse 3) None 3000]
                  (newResponseCache 300000 2)))
  = ["GET:/b"; "GET:/c"].
Proof. vm_compute. reflexivity. Qed.

(** Writing to a key that is present keeps its place in the order, and
    its position in the history; a key that was evicted and stored again
    counts from its return. *)
Example overwrite_keeps_position :
  insertedAt exampleUpper exampleSearchParams
             [CallSet (exampleConfig "/a") (exampleResponse 1) None 1000;
              CallSet (exampleConfig "/b") (exampleResponse 2) None 2000;
              CallSet (exampleConfig "/a") (exampleResponse 3) None 3000]
             (newResponseCache 300000 3) <$> ["GET:/a"; "GET:/b"]
  = [Some 0%nat; Some 1%nat] /\
  insertedAt exampleUpper exampleSearchParams
             [CallSet (exampleConfig "/a") (exampleResponse 1) None 1000;
              CallSet (exampleConfig "/b") (exampleResponse 2) None 2000;
              CallSet (exampleConfig "/a") (exampleResponse 3) None 3000]
             (newResponseCache 300000 2) <$> ["GET:/a"; "GET:/b"]
  = [Some 2%nat; Some 1%nat].
Proof. vm_compute. by split. Qed.

Lemma get_miss_iff_expired_witness :
  (get exampleUpper exampleSearchParams (exampleConfig "/a") 61001
       (calls exampleUpper exampleSearchParams
              [CallSet (exampleConfig "/a") (exampleResponse 7) (Some 60000) 1000]
              (newResponseCache 300000 1000))).1 = None
  <-> 60000 < 61001 - 1000.
Proof.
  refine (proj1 (get_miss_iff_expired exampleUpper exampleSearchParams 300000 1000
                   [CallSet (exampleConfig "/a") (exampleResponse 7) (Some 60000) 1000]
                   (exampleConfig "/a") 61001
                   {| data := 7%nat; timestamp := 1000; etag := None;
                      lastModified := None; expires := Some 60000 |} _)).
  reflexivity.
Defined.

Lemma set_evicts_earliest_inserted_witness :
  size (calls exampleUpper exampleSearchParams
              [CallSet (exampleConfig "/a") (exampleResponse 1) None 1000;
               CallSet (exampleConfig "/b") (exampleResponse 2) None 2000;
               CallGet (exampleConfig "/a") 2500]
              (newResponseCache 300000 2)) = 2 /\
  omap_keys
    (cache (calls exampleUpper exampleSearchParams
                  [CallSet (exampleConfig "/a") (exampleResponse 1) None 1000;
                   CallSet (exampleConfig "/b") (exampleResponse 2) None 2000;
                   CallGet (exampleConfig "/a") 2500]
                  (newResponseCache 300000 2))) = ["GET:/a"; "GET:/b"] /\
  (exists (oldest : string) (entry : @CacheEntry nat) (rest : list (string * @CacheEntry nat)),
      cache (calls exampleUpper exampleSearchParams
                   [CallSet (exampleConfig "/a") (exampleResponse 1) None 1000;
                    CallSet (exampleConfig "/b") (exampleResponse 2) None 2000;
                    CallGet (exampleConfig "/a") 2500]
                   (newResponseCache 300000 2)) = (oldest, entry) :: rest /\
      (oldest ∉ omap_keys rest) /\
      cache (set exampleUpper exampleSearchParams (exampleConfig "/c") (exampleResponse 3)
                 None 3000
                 (calls exampleUpper exampleSearchParams
                        [CallSet (exampleConfig "/a") (exampleResponse 1) None 1000;
                         CallSet (exampleConfig "/b") (exampleResponse 2) None 2000;
                         CallGet (exampleConfig "/a") 2500]
                        (newResponseCache 300000 2))) =
        omap_set "GET:/c"
                 {| data := 3%nat; timestamp := 3000; etag := None;
                    lastModified := None; expires := None |} rest /\
      (forall k, k ∈ omap_keys rest ->
                 insertedBefore
                   (insertedAt exampleUpper exampleSearchParams
                               [CallSet (exampleConfig "/a") (exampleResponse 1) None 1000;
                                CallSet (exampleConfig "/b") (exampleResponse 2) None 2000;
                                CallGet (exampleConfig "/a") 2500]
                               (newResponseCache 300000 2))
                   oldest k)) /\
  omap_keys
    (cache (set exampleUpper exampleSearchParams (exampleConfig "/c") (exampleResponse 3)
                None 3000
                (calls exampleUpper exampleSearchParams
                       [CallSet (exampleConfig "/a") (exampleResponse 1) None 1000;
                        CallSet (exampleConfig "/b") (exampleResponse 2) None 2000;
                        CallGet (exampleConfig "/a") 2500]
                       (newResponseCache 300000 2)))) = ["GET:/b"; "GET:/c"].
Proof.
  split; [reflexivity|]. split; [reflexivity|]. split; [|reflexivity].
  destruct (proj1 (proj2 (set_evicts_earliest_inserted exampleUpper exampleSearchParams
                            300000 2
                            [CallSet (exampleConfig "/a") (exampleResponse 1) None 1000;
                             CallSet (exampleConfig "/b") (exampleResponse 2) None 2000;
                             CallGet (exampleConfig "/a") 2500]
                            ltac:(lia)))
                  (exampleConfig "/c") (exampleResponse 3) None 3000
                  ltac:(vm_compute; discriminate))
    as (oldest & entry & rest & Hcache & Hnotin & Hset & _ & Hbefore).
  exists oldest, entry, rest. split_and!; [exact Hcache | exact Hnotin | exact Hset | exact Hbefore].
Defined.

End CacheFacts.

(** ** performance.ts: RequestBatcher *)

Module BatcherFacts.
Import JsText Performance.

Section RequestBatcherFacts.
Context {Params Executor Result Error : Type}.
Variable toUpperCase : string -> string.

Local Abbreviation World := (@RequestBatcher Params Executor Result Error).
Local Abbreviation keyOf := (@getBatchKey Params toUpperCase).
Local Abbreviation add_ := (@add Params toUpperCase Executor Result Error).
Local Abbreviation enqueue_ := (@enqueue Params toUpperCase Executor Result Error).
Local Abbreviation step_ := (@step Params toUpperCase Executor Result Error).
Local Abbreviation run_ := (@run Params toUpperCase Executor Result Error).
Local Abbreviation afterFlush := (@afterFlush Params Executor Result Error).

Implicit Types (w : World) (config : @AxiosRequestConfig Params) (executor : Executor)
         (batch : @Batch Params) (inv : @Invocation Params Executor)
         (outcome : @Outcome Result Error).

Lemma afterFlush_eq trigger key executor batch w :
  batches w !! key = Some batch ->
  afterFlush trigger key executor batch w =
    {| batches := delete key (batches w);
       batchWindow := batchWindow w; maxBatchSize := maxBatchSize w;
       timers := delete (timeout batch) (timers w);
       nextTimer := nextTimer w; nextPromise := nextPromise w;
       awaiting :=
         <[timeout batch :=
             {| inv_batchKey := key; inv_executor := executor;
                inv_configs := req_config <$> batch_requests batch;
                inv_batch := batch; inv_trigger := trigger |}]> (awaiting w);
       flushed :=
         flushed w ++ [{| inv_batchKey := key; inv_executor := executor;
                          inv_configs := req_config <$> batch_requests batch;
                          inv_batch := batch; inv_trigger := trigger |}];
       supplied := supplied w; settled := settled w |}.
Proof. intros Hb. unfold afterFlush, executeBatch. simpl. by rewrite Hb. Qed.

Lemma consistent_new (batchWindowMs maxBatch : Z) :
  consistent (@newRequestBatcher Params Executor Result Error batchWindowMs maxBatch).
Proof.
  split; simpl.
  - intros key batch Hb. by rewrite lookup_empty in Hb.
  - intros handle callback Ht. by rewrite lookup_empty in Ht.
  - intros inv Hin. by apply elem_of_nil in Hin.
  - constructor.
  - intros p [x Hx]. by rewrite lookup_empty in Hx.
  - intros handle inv Ha. by rewrite lookup_empty in Ha.
Qed.

(** A timer that is armed belongs to the open group of its key, and
    carries the executor supplied with the first request of that group. *)
Lemma armed_timer_group w (handle : nat) (callback : @TimerCallback Executor) :
  consistent w -> timers w !! handle = Some callback ->
  exists batch first,
    batches w !! cb_batchKey callback = Some batch /\ timeout batch = handle /\
    head (batch_requests batch) = Some first /\
    supplied w !! req_promise first = Some (cb_executor callback).
Proof.
  intros Hw Ht. destruct (armed_timers w Hw handle callback Ht) as (_ & batch & Hb & Hh).
  destruct (open_groups w Hw _ batch Hb) as (first & executor & Hhead & Hsup & Ht' & _).
  rewrite Hh, Ht in Ht'. injection Ht' as ->. simpl.
  by exists batch, first.
Qed.

Lemma open_group_handle_inj w (key key' : string) batch (batch' : @Batch Params) :
  consistent w -> batches w !! key = Some batch -> batches w !! key' = Some batch' ->
  timeout batch = timeout batch' -> key = key'.
Proof.
  intros Hw Hb Hb' Heq.
  destruct (open_groups w Hw _ _ Hb) as (? & ? & _ & _ & Ht & _).
  destruct (open_groups w Hw _ _ Hb') as (? & ? & _ & _ & Ht' & _).
  rewrite Heq, Ht' in Ht. by injection Ht as ->.
Qed.

Lemma consistent_afterFlush (trigger : Trigger) (key : string) executor batch w
      (req : @PendingRequest Params) :
  consistent w ->
  batches w !! key = Some batch ->
  match trigger with
  | ByTimer => head (batch_requests batch)
  | BySize => last (batch_requests batch)
  end = Some req ->
  supplied w !! req_promise req = Some executor ->
  (trigger = BySize -> maxBatchSize w <= Z.of_nat (length (batch_requests batch))) ->
  consistent (afterFlush trigger key executor batch w).
Proof.
  intros Hw Hb Hreq Hsup Hsize. rewrite (afterFlush_eq _ _ _ _ _ Hb).
  destruct (open_groups w Hw _ _ Hb) as (first & ex0 & Hhead & Hsup0 & Htimer & Hsorted & Hissued).
  destruct (armed_timers w Hw _ _ Htimer) as (Hlt & _).
  split; simpl.
  - intros key' batch' Hb'. apply lookup_delete_Some in Hb' as [Hne Hb'].
    destruct (open_groups w Hw _ _ Hb') as (f & e & ? & ? & Ht' & ? & ?).
    exists f, e. split_and!; try done.
    rewrite lookup_delete_ne; [done|].
    intros Heq. apply Hne. by eapply open_group_handle_inj.
  - intros handle callback Ht. apply lookup_delete_Some in Ht as [Hne Ht].
    destruct (armed_timers w Hw _ _ Ht) as (? & batch' & Hb' & Hh).
    split; [done|]. exists batch'. split; [|done].
    rewrite lookup_delete_ne; [done|].
    intros Heq. rewrite <- Heq, Hb in Hb'. injection Hb' as <-. done.
  - intros inv [Hin | ->%list_elem_of_singleton]%elem_of_app.
    + destruct (flushed_groups w Hw inv Hin) as (? & Hnone & ? & ? & ? & ?).
      split_and!; try done. by rewrite lookup_delete_None; right.
    + unfold handleOf, triggeringRequest. simpl. split_and!; try done.
      * apply lookup_delete_eq.
      * by exists req.
  - rewrite fmap_app. apply NoDup_app. split_and!.
    + apply (flushed_once w Hw).
    + intros h Hh ->%list_elem_of_singleton.
      apply list_elem_of_fmap in Hh as (inv & Heq & Hin).
      destruct (flushed_groups w Hw inv Hin) as (_ & Hnone & _).
      unfold handleOf in Heq at 1. simpl in Heq. rewrite <- Heq in Hnone. congruence.
    + apply NoDup_singleton.
  - apply (supplied_issued w Hw).
  - intros handle inv Ha. apply lookup_insert_Some in Ha as [[<- <-]|[Hne Ha]].
    + split; [|done]. apply elem_of_app. right. by apply list_elem_of_singleton.
    + destruct (awaiting_flushed w Hw _ _ Ha) as [Hin Hh].
      split; [|done]. apply elem_of_app. by left.
Qed.

(** The state [add] reaches with [batch.requests.push], spelled out. *)
Lemma enqueue_open config executor w batch :
  batches w !! keyOf config = Some batch ->
  enqueue_ config executor w =
    ({| batch_requests :=
          batch_requests batch
            ++ [{| req_config := config; req_promise := nextPromise w |}];
        timeout := timeout batch |},
     {| batches :=
          <[keyOf config :=
              {| batch_requests :=
                   batch_requests batch
                     ++ [{| req_config := config; req_promise := nextPromise w |}];
                 timeout := timeout batch |}]> (batches w);
        batchWindow := batchWindow w; maxBatchSize := maxBatchSize w;
        timers := timers w; nextTimer := nextTimer w;
        nextPromise := S (nextPromise w); awaiting := awaiting w;
        flushed := flushed w;
        supplied := <[nextPromise w := executor]> (supplied w);
        settled := settled w |}).
Proof. intros Hb. unfold enqueue. by rewrite Hb. Qed.

Lemma enqueue_fresh config executor w :
  batches w !! keyOf config = None ->
  enqueue_ config executor w =
    ({| batch_requests := [{| req_config := config; req_promise := nextPromise w |}];
        timeout := nextTimer w |},
     {| batches :=
          <[keyOf config :=
              {| batch_requests :=
                   [{| req_config := config; req_promise := nextPromise w |}];
                 timeout := nextTimer w |}]> (batches w);
        batchWindow := batchWindow w; maxBatchSize := maxBatchSize w;
        timers :=
          <[nextTimer w := {| cb_batchKey := keyOf config; cb_executor := executor |}]>
            (timers w);
        nextTimer := S (nextTimer w);
        nextPromise := S (nextPromise w); awaiting := awaiting w;
        flushed := flushed w;
        supplied := <[nextPromise w := executor]> (supplied w);
        settled := settled w |}).
Proof. intros Hb. unfold enqueue. by rewrite Hb. Qed.

Lemma supplied_kept w (p : nat) executor (executor' : Executor) :
  consistent w -> supplied w !! p = Some executor ->
  <[nextPromise w := executor']> (supplied w) !! p = Some executor.
Proof.
  intros Hw Hp. rewrite lookup_insert_ne; [done|].
  intros <-. pose proof (supplied_issued w Hw (nextPromise w) (mk_is_Some _ _ Hp)). lia.
Qed.

Lemma consistent_enqueue config executor w :
  consistent w -> consistent (enqueue_ config executor w).2.
Proof.
  intros Hw. destruct (batches w !! keyOf config) as [batch|] eqn:Hb.
  - rewrite (enqueue_open _ _ _ _ Hb). simpl.
    destruct (open_groups w Hw _ _ Hb)
      as (first & ex0 & Hhead & Hsup0 & Htimer & Hsorted & Hissued).
    split; simpl.
    + intros key' batch' Hb'. apply lookup_insert_Some in Hb' as [[<- <-]|[Hne Hb']].
      * exists first, ex0. simpl. split_and!.
        -- destruct (batch_requests batch); [done | by simpl in *].
        -- by apply supplied_kept.
        -- done.
        -- unfold promisesOf. simpl. rewrite fmap_app. apply StronglySorted_app. split_and!.
           ++ intros x y Hx ->%list_elem_of_singleton. simpl.
              rewrite Forall_forall in Hissued. by apply Hissued.
           ++ done.
           ++ repeat constructor.
        -- unfold promisesOf. simpl. rewrite fmap_app. apply Forall_app. split.
           ++ eapply Forall_impl; [exact Hissued|]. simpl. lia.
           ++ apply Forall_singleton. simpl. lia.
      * destruct (open_groups w Hw _ _ Hb') as (f & e & ? & ? & ? & ? & Hiss').
        exists f, e. split_and!; try done; [by apply supplied_kept|].
        eapply Forall_impl; [exact Hiss'|]. simpl. lia.
    + intros handle callback Ht.
      destruct (armed_timers w Hw _ _ Ht) as (? & batch' & Hb' & Hh). split; [done|].
      destruct (decide (cb_batchKey callback = keyOf config)) as [Heq|Hne].
      * rewrite Heq in *. rewrite Hb in Hb'. injection Hb' as <-.
        eexists. rewrite lookup_insert_eq. split; [done|]. done.
      * exists batch'. by rewrite lookup_insert_ne.
    + intros inv Hin. destruct (flushed_groups w Hw inv Hin)
        as (? & ? & ? & ? & ? & req & ? & ?).
      split_and!; try done. exists req. split; [done | by apply supplied_kept].
    + apply (flushed_once w Hw).
    + intros p [x Hx]. apply lookup_insert_Some in Hx as [[<- _]|[_ Hx]]; [lia|].
      pose proof (supplied_issued w Hw p (mk_is_Some _ _ Hx)). lia.
    + apply (awaiting_flushed w Hw).
  - rewrite (enqueue_fresh _ _ _ Hb). simpl. split; simpl.
    + intros key' batch' Hb'. apply lookup_insert_Some in Hb' as [[<- <-]|[Hne Hb']].
      * eexists _, executor. simpl.
        split_and!; simpl;
          first [done | apply lookup_insert_eq | repeat constructor; simpl; lia].
      * destruct (open_groups w Hw _ _ Hb') as (f & e & ? & ? & Ht' & ? & Hiss').
        exists f, e. split_and!; try done.
        -- by apply supplied_kept.
        -- rewrite lookup_insert_ne; [done|]. intros Heq.
           destruct (armed_timers w Hw _ _ Ht') as (Hlt & _). lia.
        -- eapply Forall_impl; [exact Hiss'|]. simpl. lia.
    + intros handle callback Ht. apply lookup_insert_Some in Ht as [[<- <-]|[Hne Ht]].
      * split; [lia|]. eexists. simpl. rewrite lookup_insert_eq. done.
      * destruct (armed_timers w Hw _ _ Ht) as (? & batch' & Hb' & Hh). split; [lia|].
        exists batch'. split; [|done]. rewrite lookup_insert_ne; [done|].
        intros Heq. rewrite <- Heq in Hb'. congruence.
    + intros inv Hin. destruct (flushed_groups w Hw inv Hin)
        as (? & ? & ? & ? & ? & req & ? & ?).
      split_and!; try done; [lia | | ].
      * rewrite lookup_insert_ne; [done | lia].
      * exists req. split; [done | by apply supplied_kept].
    + apply (flushed_once w Hw).
    + intros p [x Hx]. apply lookup_insert_Some in Hx as [[<- _]|[_ Hx]]; [lia|].
      pose proof (supplied_issued w Hw p (mk_is_Some _ _ Hx)). lia.
    + apply (awaiting_flushed w Hw).
Qed.

(** What [enqueue] leaves: the batch it returns is the group of the key,
    its last request is the new one, and the executor is on record. *)
Lemma enqueue_result config executor w :
  consistent w ->
  batches (enqueue_ config executor w).2 !! keyOf config
    = Some (enqueue_ config executor w).1 /\
  last (batch_requests (enqueue_ config executor w).1)
    = Some {| req_config := config; req_promise := nextPromise w |} /\
  supplied (enqueue_ config executor w).2 !! nextPromise w = Some executor /\
  maxBatchSize (enqueue_ config executor w).2 = maxBatchSize w /\
  flushed (enqueue_ config executor w).2 = flushed w /\
  awaiting (enqueue_ config executor w).2 = awaiting w /\
  settled (enqueue_ config executor w).2 = settled w.
Proof.
  intros Hw. destruct (batches w !! keyOf config) as [batch|] eqn:Hb.
  - rewrite (enqueue_open _ _ _ _ Hb). simpl. split_and!; try done.
    + apply lookup_insert_eq.
    + apply last_snoc.
    + apply lookup_insert_eq.
  - rewrite (enqueue_fresh _ _ _ Hb). simpl. split_and!; try done.
    + apply lookup_insert_eq.
    + apply lookup_insert_eq.
Qed.

Lemma add_eq config executor w :
  add_ config executor w =
    (nextPromise w,
     if Z.of_nat (length (batch_requests (enqueue_ config executor w).1))
          >=? maxBatchSize (enqueue_ config executor w).2
     then afterFlush BySize (keyOf config) executor
                     (enqueue_ config executor w).1 (enqueue_ config executor w).2
     else (enqueue_ config executor w).2).
Proof.
  unfold add. destruct (enqueue_ config executor w) as [batch w2]. simpl.
  by destruct (_ >=? _).
Qed.

Lemma consistent_add config executor w :
  consistent w -> consistent (add_ config executor w).2.
Proof.
  intros Hw. rewrite add_eq. simpl.
  pose proof (consistent_enqueue config executor w Hw) as Hw2.
  destruct (enqueue_result config executor w Hw) as (Hb & Hlast & Hsup & _).
  destruct (Z.geb_spec (Z.of_nat (length (batch_requests (enqueue_ config executor w).1)))
                       (maxBatchSize (enqueue_ config executor w).2)) as [Hfull|Hroom];
    [|done].
  eapply consistent_afterFlush; first [done | intros _; lia].
Qed.

Lemma fireTimer_eq (handle : nat) w (callback : @TimerCallback Executor) batch :
  consistent w -> timers w !! handle = Some callback ->
  batches w !! cb_batchKey callback = Some batch -> 
  fireTimer handle w =
    afterFlush ByTimer (cb_batchKey callback) (cb_executor callback) batch w.
Proof.
  intros Hw Ht Hb. unfold fireTimer, Performance.afterFlush. rewrite Ht.
  destruct (armed_timers w Hw _ _ Ht) as (_ & batch' & Hb' & Hh).
  rewrite Hb in Hb'. injection Hb' as <-. by rewrite Hh.
Qed.

Lemma consistent_fireTimer (handle : nat) w :
  consistent w -> consistent (fireTimer handle w).
Proof.
  intros Hw. destruct (timers w !! handle) as [callback|] eqn:Ht.
  - destruct (armed_timer_group w handle callback Hw Ht)
      as (batch & first & Hb & Hh & Hhead & Hsup).
    rewrite (fireTimer_eq handle w callback batch Hw Ht Hb).
    by eapply consistent_afterFlush.
  - unfold fireTimer. by rewrite Ht.
Qed.

Lemma consistent_settle (handle : nat) outcome w :
  consistent w -> consistent (settle handle outcome w).
Proof.
  intros Hw. unfold settle. destruct (awaiting w !! handle) as [inv|] eqn:Ha; [|done].
  destruct Hw as [H1 H2 H3 H4 H5 H6]. split; simpl; try done.
  intros h inv' Hl. apply lookup_delete_Some in Hl as [_ Hl]. by apply H6.
Qed.

Lemma consistent_step w (ev : @BatcherEvent Params Executor Result Error) :
  consistent w -> consistent (step_ w ev).
Proof.
  intros Hw. destruct ev as [config executor|handle|handle outcome]; simpl.
  - by apply consistent_add.
  - by apply consistent_fireTimer.
  - by apply consistent_settle.
Qed.

Lemma run_cons (ev : @BatcherEvent Params Executor Result Error) evs w :
  run_ (ev :: evs) w = run_ evs (step_ w ev).
Proof. reflexivity. Qed.

Lemma consistent_run (evs : list (@BatcherEvent Params Executor Result Error)) w :
  consistent w -> consistent (run_ evs w).
Proof.
  revert w. induction evs as [|ev evs IH]; intros w Hw; [done|].
  rewrite run_cons. by apply IH, consistent_step.
Qed.

Lemma maxBatchSize_step w (ev : @BatcherEvent Params Executor Result Error) :
  maxBatchSize (step_ w ev) = maxBatchSize w.
Proof.
  destruct ev as [config executor|handle|handle outcome]; simpl.
  - unfold add, enqueue, executeBatch, clearTimeout, setTimeout.
    repeat (case_match; simpl in *; simplify_eq); done.
  - unfold fireTimer, executeBatch. repeat (case_match; simpl in *); done.
  - unfold settle. by case_match.
Qed.

Lemma maxBatchSize_run (evs : list (@BatcherEvent Params Executor Result Error)) w :
  maxBatchSize (run_ evs w) = maxBatchSize w.
Proof.
  revert w. induction evs as [|ev evs IH]; intros w; [done|].
  by rewrite run_cons, IH, maxBatchSize_step.
Qed.

Lemma consistent_reached (batchWindowMs maxBatch : Z)
      (evs : list (@BatcherEvent Params Executor Result Error)) :
  consistent (run_ evs (newRequestBatcher batchWindowMs maxBatch)).
Proof. apply consistent_run, consistent_new. Qed.

Lemma settle_eq (handle : nat) outcome w inv :
  awaiting w !! handle = Some inv ->
  settled (settle handle outcome w) = settled w ++ deliveries inv outcome.
Proof. intros Ha. unfold settle. by rewrite Ha. Qed.

(** C5: when the executor of a flushed group succeeds, the pending
    requests are resolved in the order of the batch, the i-th with the
    i-th element of the result list ([undefined] when the list is
    shorter); the executor was given the configs in that same order, and
    the order of the batch is the order of the [add] calls, whose
    promises are numbered as they are made. *)
Theorem results_delivered_by_position
    (batchWindowMs maxBatch : Z) (evs : list (@BatcherEvent Params Executor Result Error))
    (handle : nat) inv (results : list Result) :
  let w := run_ evs (newRequestBatcher batchWindowMs maxBatch) in
  awaiting w !! handle = Some inv ->
  exists delivered : list (@Settlement Result Error),
    settled (settle handle (Fulfilled results) w) = settled w ++ delivered /\
    length delivered = length (batch_requests (inv_batch inv)) /\
    (forall (i : nat) (req : @PendingRequest Params),
        batch_requests (inv_batch inv) !! i = Some req ->
        inv_configs inv !! i = Some (req_config req) /\
        delivered !! i = Some (Resolved (req_promise req) (results !! i))) /\
    StronglySorted lt (promisesOf (inv_batch inv)) /\
    (forall config executor,
        (add_ config executor w).1 = nextPromise w /\
        nextPromise (add_ config executor w).2 = S (nextPromise w)).
Proof.
  intros w Ha. pose proof (consistent_reached batchWindowMs maxBatch evs) as Hw. fold w in Hw.
  destruct (awaiting_flushed w Hw _ _ Ha) as [Hin _].
  destruct (flushed_groups w Hw inv Hin) as (_ & _ & Hconfigs & Hsorted & _).
  exists (deliveries inv (Fulfilled results)). split_and!.
  - by apply settle_eq.
  - simpl. by rewrite length_imap.
  - intros i req Hreq. split.
    + by rewrite Hconfigs, list_lookup_fmap, Hreq.
    + simpl. by rewrite list_lookup_imap, Hreq.
  - done.
  - intros config executor. rewrite add_eq. simpl. split; [done|].
    assert (nextPromise (enqueue_ config executor w).2 = S (nextPromise w)) as Hnext.
    { unfold enqueue, setTimeout. by repeat (case_match; simplify_eq; simpl in * ). }
    destruct (_ >=? _); [|done].
    destruct (enqueue_result config executor w Hw) as (Hb & _).
    by rewrite (afterFlush_eq _ _ _ _ _ Hb).
Qed.

(** C6: when the executor of a flushed group fails, each of the pending
    requests of that flush is rejected, in the order of the batch, with
    that one error; nothing is resolved. *)
Theorem failure_rejects_every_request
    (batchWindowMs maxBatch : Z) (evs : list (@BatcherEvent Params Executor Result Error))
    (handle : nat) inv (error : Error) :
  let w := run_ evs (newRequestBatcher batchWindowMs maxBatch) in
  awaiting w !! handle = Some inv ->
  exists delivered : list (@Settlement Result Error),
    settled (settle handle (Failed error) w) = settled w ++ delivered /\
    length delivered = length (batch_requests (inv_batch inv)) /\
    (forall (i : nat) (req : @PendingRequest Params),
        batch_requests (inv_batch inv) !! i = Some req ->
        delivered !! i = Some (Rejected (req_promise req) error)) /\
    (forall s : @Settlement Result Error,
        s ∈ delivered -> exists promise : nat, s = Rejected promise error) /\
    batch_requests (inv_batch inv) <> [].
Proof.
  intros w Ha. pose proof (consistent_reached batchWindowMs maxBatch evs) as Hw. fold w in Hw.
  destruct (awaiting_flushed w Hw _ _ Ha) as [Hin _].
  destruct (flushed_groups w Hw inv Hin) as (_ & _ & _ & _ & _ & req & Hreq & _).
  exists (deliveries inv (Failed error)). split_and!.
  - by apply settle_eq.
  - simpl. by rewrite length_fmap.
  - intros i r Hr. simpl. by rewrite list_lookup_fmap, Hr.
  - intros s Hs. simpl in Hs. apply list_elem_of_fmap in Hs as (r & -> & _). by eexists.
  - intros Hnil. unfold triggeringRequest in Hreq. rewrite Hnil in Hreq.
    by destruct (inv_trigger inv).
Qed.

Lemma flushed_not_armed w inv :
  consistent w -> inv ∈ flushed w ->
  timers w !! handleOf inv = None /\ fireTimer (handleOf inv) w = w.
Proof.
  intros Hw Hin. destruct (flushed_groups w Hw inv Hin) as (_ & Hnone & _).
  split; [done|]. unfold fireTimer. by rewrite Hnone.
Qed.

(** An [add] that fills the batch flushes it at once; one that does not
    leaves the batch open with its timer armed. *)
Lemma add_full config executor w :
  consistent w ->
  maxBatchSize w <= Z.of_nat (length (batch_requests (enqueue_ config executor w).1)) ->
  exists inv : @Invocation Params Executor,
    flushed (add_ config executor w).2 = flushed w ++ [inv] /\
    inv_batch inv = (enqueue_ config executor w).1 /\
    inv_trigger inv = BySize /\
    inv_batchKey inv = keyOf config /\
    inv_executor inv = executor /\
    timers (add_ config executor w).2 !! handleOf inv = None /\
    batches (add_ config executor w).2 !! keyOf config = None /\
    awaiting (add_ config executor w).2 !! handleOf inv = Some inv.
Proof.
  intros Hw Hfull. rewrite add_eq. simpl.
  destruct (enqueue_result config executor w Hw) as (Hb & _ & _ & Hmax & Hfl & _).
  assert ((Z.of_nat (length (batch_requests (enqueue_ config executor w).1))
             >=? maxBatchSize (enqueue_ config executor w).2) = true) as -> by lia.
  rewrite (afterFlush_eq _ _ _ _ _ Hb). simpl. eexists. rewrite Hfl.
  split_and!; try done; unfold handleOf; simpl.
  - apply lookup_delete_eq.
  - apply lookup_delete_eq.
  - apply lookup_insert_eq.
Qed.

Lemma add_room config executor w :
  consistent w ->
  Z.of_nat (length (batch_requests (enqueue_ config executor w).1)) < maxBatchSize w ->
  (add_ config executor w).2 = (enqueue_ config executor w).2 /\
  flushed (add_ config executor w).2 = flushed w /\
  batches (add_ config executor w).2 !! keyOf config
    = Some (enqueue_ config executor w).1 /\
  is_Some (timers (add_ config executor w).2 !! timeout (enqueue_ config executor w).1).
Proof.
  intros Hw Hroom. rewrite add_eq. simpl.
  destruct (enqueue_result config executor w Hw) as (Hb & _ & _ & Hmax & Hfl & _).
  assert ((Z.of_nat (length (batch_requests (enqueue_ config executor w).1))
             >=? maxBatchSize (enqueue_ config executor w).2) = false) as -> by lia.
  split_and!; try done.
  destruct (open_groups _ (consistent_enqueue config executor w Hw) _ _ Hb)
    as (? & ? & _ & _ & Ht & _).
  by eexists.
Qed.

Lemma fireTimer_armed (handle : nat) w (callback : @TimerCallback Executor) :
  consistent w -> timers w !! handle = Some callback ->
  exists (inv : @Invocation Params Executor) (first : @PendingRequest Params),
    flushed (fireTimer handle w) = flushed w ++ [inv] /\
    handleOf inv = handle /\
    inv_trigger inv = ByTimer /\
    inv_batchKey inv = cb_batchKey callback /\
    inv_executor inv = cb_executor callback /\
    batches w !! cb_batchKey callback = Some (inv_batch inv) /\
    head (batch_requests (inv_batch inv)) = Some first /\
    supplied w !! req_promise first = Some (cb_executor callback) /\
    timers (fireTimer handle w) !! handle = None /\
    batches (fireTimer handle w) !! cb_batchKey callback = None /\
    awaiting (fireTimer handle w) !! handle = Some inv.
Proof.
  intros Hw Ht.
  destruct (armed_timer_group w handle callback Hw Ht)
    as (batch & first & Hb & Hh & Hhead & Hsup).
  rewrite (fireTimer_eq handle w callback batch Hw Ht Hb), (afterFlush_eq _ _ _ _ _ Hb).
  simpl. eexists _, first. unfold handleOf. simpl. rewrite Hh.
  split_and!; try done.
  - apply lookup_delete_eq.
  - apply lookup_delete_eq.
  - apply lookup_insert_eq.
Qed.

Lemma step_flushes_at_most_one w (ev : @BatcherEvent Params Executor Result Error) :
  consistent w ->
  flushed (step_ w ev) = flushed w \/
  exists inv : @Invocation Params Executor,
    flushed (step_ w ev) = flushed w ++ [inv] /\
    batches (step_ w ev) !! inv_batchKey inv = None /\
    timers (step_ w ev) !! handleOf inv = None /\
    awaiting (step_ w ev) !! handleOf inv = Some inv.
Proof.
  intros Hw. destruct ev as [config executor|handle|handle outcome]; simpl.
  - destruct (Z.lt_ge_cases
                (Z.of_nat (length (batch_requests (enqueue_ config executor w).1)))
                (maxBatchSize w)) as [Hroom|Hfull].
    + left. by destruct (add_room config executor w Hw Hroom) as (_ & ? & _).
    + right. destruct (add_full config executor w Hw Hfull)
        as (inv & ? & ? & ? & Hkey & ? & ? & ? & ?).
      exists inv. by rewrite Hkey.
  - destruct (timers w !! handle) as [callback|] eqn:Ht.
    + right. destruct (fireTimer_armed handle w callback Hw Ht)
        as (inv & first & ? & Hh & ? & Hkey & ? & ? & ? & ? & ? & ? & ?).
      exists inv. by rewrite Hkey, Hh.
    + left. unfold fireTimer. by rewrite Ht.
  - left. unfold settle. by case_match.
Qed.

Lemma supplied_step w (ev : @BatcherEvent Params Executor Result Error)
      (p : nat) executor :
  consistent w -> supplied w !! p = Some executor ->
  supplied (step_ w ev) !! p = Some executor.
Proof.
  intros Hw Hp. destruct ev as [config executor'|handle|handle outcome]; simpl.
  - assert (supplied (enqueue_ config executor' w).2 !! p = Some executor) as Hkept.
    { unfold enqueue, setTimeout. repeat (case_match; simplify_eq; simpl in * );
        by apply supplied_kept. }
    rewrite add_eq. simpl. destruct (_ >=? _); [|done].
    destruct (enqueue_result config executor' w Hw) as (Hb & _).
    by rewrite (afterFlush_eq _ _ _ _ _ Hb).
  - unfold fireTimer, executeBatch. by repeat (case_match; simpl in * ).
  - unfold settle. by case_match.
Qed.

(** C7: each group, named by the handle of the timer armed when it was
    opened, is flushed at most once.  The timer of a flushed group is
    off the event loop, so its firing cannot flush anything again.  A
    step flushes at most one group, and from the moment its executor has
    been called the group is out of the batch map.  An [add] that brings
    the batch to [maxBatchSize] flushes it at once with its timer
    cleared; otherwise the batch stays open with its timer armed.  An
    [add] for a key with no open group opens a group of its own, with a
    new timer, holding that one request. *)
Theorem group_flushed_at_most_once
    (batchWindowMs maxBatch : Z) (evs : list (@BatcherEvent Params Executor Result Error)) :
  let w := run_ evs (newRequestBatcher batchWindowMs maxBatch) in
  NoDup (handleOf <$> flushed w) /\
  (forall inv : @Invocation Params Executor,
      inv ∈ flushed w ->
      timers w !! handleOf inv = None /\ fireTimer (handleOf inv) w = w) /\
  (forall ev : @BatcherEvent Params Executor Result Error,
      flushed (step_ w ev) = flushed w \/
      exists inv : @Invocation Params Executor,
        flushed (step_ w ev) = flushed w ++ [inv] /\
        batches (step_ w ev) !! inv_batchKey inv = None /\
        timers (step_ w ev) !! handleOf inv = None /\
        awaiting (step_ w ev) !! handleOf inv = Some inv) /\
  (forall config executor,
      maxBatch <= Z.of_nat (length (batch_requests (enqueue_ config executor w).1)) ->
      exists inv : @Invocation Params Executor,
        flushed (add_ config executor w).2 = flushed w ++ [inv] /\
        inv_batch inv = (enqueue_ config executor w).1 /\
        inv_trigger inv = BySize /\
        timers (add_ config executor w).2 !! handleOf inv = None /\
        batches (add_ config executor w).2 !! keyOf config = None) /\
  (forall config executor,
      Z.of_nat (length (batch_requests (enqueue_ config executor w).1)) < maxBatch ->
      flushed (add_ config executor w).2 = flushed w /\
      batches (add_ config executor w).2 !! keyOf config
        = Some (enqueue_ config executor w).1 /\
      is_Some (timers (add_ config executor w).2
                 !! timeout (enqueue_ config executor w).1)) /\
  (forall config executor,
      batches w !! keyOf config = None ->
      (enqueue_ config executor w).1 =
        {| batch_requests := [{| req_config := config; req_promise := nextPromise w |}];
           timeout := nextTimer w |} /\
      nextTimer w ∉ handleOf <$> flushed w) /\
  (forall config executor batch,
      batches w !! keyOf config = Some batch ->
      (enqueue_ config executor w).1 =
        {| batch_requests :=
             batch_requests batch
               ++ [{| req_config := config; req_promise := nextPromise w |}];
           timeout := timeout batch |}).
Proof.
  intros w. pose proof (consistent_reached batchWindowMs maxBatch evs) as Hw. fold w in Hw.
  assert (maxBatchSize w = maxBatch) as Hmax by (unfold w; by rewrite maxBatchSize_run).
  split_and!.
  - apply (flushed_once w Hw).
  - intros inv Hin. by apply flushed_not_armed.
  - intros ev. by apply step_flushes_at_most_one.
  - intros config executor Hfull. rewrite <- Hmax in Hfull.
    destruct (add_full config executor w Hw Hfull)
      as (inv & ? & ? & ? & ? & ? & ? & ? & ?).
    by exists inv.
  - intros config executor Hroom. rewrite <- Hmax in Hroom.
    by destruct (add_room config executor w Hw Hroom) as (_ & ? & ? & ?).
  - intros config executor Hb. rewrite (enqueue_fresh _ _ _ Hb). split; [done|].
    intros (inv & Heq & Hin)%list_elem_of_fmap.
    destruct (flushed_groups w Hw inv Hin) as (Hlt & _). lia.
  - intros config executor batch Hb. by rewrite (enqueue_open _ _ _ _ Hb).
Qed.

(** C9: a group flushed by its timer has its executor from the [add]
    that opened it (the first request of the batch); a group flushed on
    reaching [maxBatchSize] has it from the [add] that filled it (the
    last request).  So the executor passed with a later [add] is called
    only when that [add] fills the batch: while it does not, the armed
    timers and their callbacks stay as they were and nothing is called.
    The [add] that opens a group, on a batcher whose [maxBatchSize] is
    more than 1, arms a new timer that carries the key and the executor
    of that [add], and calls nothing; that timer firing is a flush with
    that executor.  [supplied] records, for the promise each [add]
    returns, the executor that [add] was given, and keeps it. *)
Theorem timer_flush_uses_opening_executor
    (batchWindowMs maxBatch : Z) (evs : list (@BatcherEvent Params Executor Result Error)) :
  let w := run_ evs (newRequestBatcher batchWindowMs maxBatch) in
  (forall inv : @Invocation Params Executor,
      inv ∈ flushed w ->
      (inv_trigger inv = ByTimer ->
       exists first : @PendingRequest Params,
         head (batch_requests (inv_batch inv)) = Some first /\
         supplied w !! req_promise first = Some (inv_executor inv)) /\
      (inv_trigger inv = BySize ->
       exists final : @PendingRequest Params,
         last (batch_requests (inv_batch inv)) = Some final /\
         supplied w !! req_promise final = Some (inv_executor inv) /\
         maxBatch <= Z.of_nat (length (batch_requests (inv_batch inv))))) /\
  (forall (handle : nat) (callback : @TimerCallback Executor),
      timers w !! handle = Some callback ->
      exists (inv : @Invocation Params Executor) (first : @PendingRequest Params),
        flushed (fireTimer handle w) = flushed w ++ [inv] /\
        inv_trigger inv = ByTimer /\
        inv_executor inv = cb_executor callback /\
        head (batch_requests (inv_batch inv)) = Some first /\
        supplied w !! req_promise first = Some (cb_executor callback)) /\
  (forall config executor batch,
      batches w !! keyOf config = Some batch ->
      Z.of_nat (S (length (batch_requests batch))) < maxBatch ->
      timers (add_ config executor w).2 = timers w /\
      flushed (add_ config executor w).2 = flushed w) /\
  (forall config executor,
      maxBatch <= Z.of_nat (length (batch_requests (enqueue_ config executor w).1)) ->
      exists inv : @Invocation Params Executor,
        flushed (add_ config executor w).2 = flushed w ++ [inv] /\
        inv_trigger inv = BySize /\ inv_executor inv = executor) /\
  (forall config executor,
      supplied (add_ config executor w).2 !! (add_ config executor w).1 = Some executor) /\
  (forall (ev : @BatcherEvent Params Executor Result Error) (p : nat) executor,
      supplied w !! p = Some executor -> supplied (step_ w ev) !! p = Some executor) /\
  (forall config executor,
      batches w !! keyOf config = None -> 1 < maxBatch ->
      timers (add_ config executor w).2 !! nextTimer w
        = Some {| cb_batchKey := keyOf config; cb_executor := executor |} /\
      batches (add_ config executor w).2 !! keyOf config
        = Some {| batch_requests :=
                    [{| req_config := config; req_promise := nextPromise w |}];
                  timeout := nextTimer w |} /\
      flushed (add_ config executor w).2 = flushed w /\
      exists inv : @Invocation Params Executor,
        flushed (fireTimer (nextTimer w) (add_ config executor w).2) = flushed w ++ [inv] /\
        inv_trigger inv = ByTimer /\ inv_executor inv = executor /\
        inv_configs inv = [config]).
Proof.
  intros w. pose proof (consistent_reached batchWindowMs maxBatch evs) as Hw. fold w in Hw.
  assert (maxBatchSize w = maxBatch) as Hmax by (unfold w; by rewrite maxBatchSize_run).
  split_and!.
  - intros inv Hin.
    destruct (flushed_groups w Hw inv Hin) as (_ & _ & _ & _ & Hsize & req & Hreq & Hsup).
    unfold triggeringRequest in Hreq. split; intros Htr; rewrite Htr in Hreq.
    + by exists req.
    + exists req. split_and!; [done | done |]. rewrite <- Hmax. by apply Hsize.
  - intros handle callback Ht.
    destruct (fireTimer_armed handle w callback Hw Ht)
      as (inv & first & ? & ? & ? & ? & ? & ? & ? & ? & _).
    by exists inv, first.
  - intros config executor batch Hb Hroom.
    assert (Z.of_nat (length (batch_requests (enqueue_ config executor w).1))
            < maxBatchSize w) as Hroom'.
    { rewrite (enqueue_open _ _ _ _ Hb). simpl. rewrite length_app. simpl. lia. }
    destruct (add_room config executor w Hw Hroom') as (-> & _).
    by rewrite (enqueue_open _ _ _ _ Hb).
  - intros config executor Hfull. rewrite <- Hmax in Hfull.
    destruct (add_full config executor w Hw Hfull)
      as (inv & ? & ? & ? & ? & ? & _).
    by exists inv.
  - intros config executor.
    pose proof (supplied_step w (EvAdd config executor)) as Hstep. simpl in Hstep.
    destruct (enqueue_result config executor w Hw) as (Hb & _ & Hsup & _).
    rewrite add_eq. simpl. destruct (_ >=? _); [|done].
    by rewrite (afterFlush_eq _ _ _ _ _ Hb).
  - intros ev p executor. by apply supplied_step.
  - intros config executor Hnone Hmany.
    rewrite add_eq, (enqueue_fresh _ _ _ Hnone). cbn [fst snd batch_requests length].
    cbn [maxBatchSize]. rewrite Hmax. change (Z.of_nat 1) with 1.
    assert ((1 >=? maxBatch) = false) as -> by lia.
    cbn [timers batches flushed]. split_and!.
    + apply lookup_insert_eq.
    + apply lookup_insert_eq.
    + done.
    + unfold fireTimer. cbn [timers]. rewrite lookup_insert_eq. cbn [cb_batchKey cb_executor].
      unfold executeBatch, set_timers. cbn [batches]. rewrite lookup_insert_eq.
      cbn [flushed batch_requests]. eexists. split; [reflexivity|]. by split_and!.
Qed.

End RequestBatcherFacts.

(** After the two requests the batch of two is flushed: no group is
    open, no timer is armed, and the executor of the second [add] is the
    one that was called, on both configs in order. *)
Example exampleBatcher_state :
  batches exampleBatcher = ∅ /\ timers exampleBatcher = ∅ /\
  flushed exampleBatcher = [exampleInvocation].
Proof. vm_compute. by split_and!. Qed.

Lemma exampleBatcher_awaiting : awaiting exampleBatcher !! 0%nat = Some exampleInvocation.
Proof. vm_compute. reflexivity. Qed.

Lemma results_delivered_by_position_witness :
  exists delivered : list (@Settlement nat string),
    settled (settle 0 (Fulfilled [10%nat; 20%nat]) exampleBatcher)
      = settled exampleBatcher ++ delivered /\
    length delivered = length (batch_requests (inv_batch exampleInvocation)) /\
    (forall (i : nat) (req : @PendingRequest unit),
        batch_requests (inv_batch exampleInvocation) !! i = Some req ->
        inv_configs exampleInvocation !! i = Some (req_config req) /\
        delivered !! i = Some (Resolved (req_promise req) ([10%nat; 20%nat] !! i))) /\
    StronglySorted lt (promisesOf (inv_batch exampleInvocation)) /\
    (forall (config : @AxiosRequestConfig unit) (executor : string),
        (add exampleUpper config executor exampleBatcher).1 = nextPromise exampleBatcher /\
        nextPromise (add exampleUpper config executor exampleBatcher).2
          = S (nextPromise exampleBatcher)).
Proof.
  apply (results_delivered_by_position exampleUpper 100 2 exampleEvents 0
           exampleInvocation [10%nat; 20%nat]).
  exact exampleBatcher_awaiting.
Defined.

Lemma failure_rejects_every_request_witness :
  exists delivered : list (@Settlement nat string),
    settled (settle 0 (Failed "network") exampleBatcher)
      = settled exampleBatcher ++ delivered /\
    length delivered = length (batch_requests (inv_batch exampleInvocation)) /\
    (forall (i : nat) (req : @PendingRequest unit),
        batch_requests (inv_batch exampleInvocation) !! i = Some req ->
        delivered !! i = Some (Rejected (req_promise req) "network")) /\
    (forall s : @Settlement nat string,
        s ∈ delivered -> exists promise : nat, s = Rejected promise "network") /\
    batch_requests (inv_batch exampleInvocation) <> [].
Proof.
  apply (failure_rejects_every_request exampleUpper 100 2 exampleEvents 0
           exampleInvocation "network").
  exact exampleBatcher_awaiting.
Defined.

Lemma group_flushed_at_most_once_witness :
  NoDup (handleOf <$> flushed (step exampleUpper exampleBatcher (EvTimer 0))) /\
  flushed (step exampleUpper exampleBatcher (EvTimer 0)) = [exampleInvocation].
Proof.
  split.
  - exact (proj1 (group_flushed_at_most_once exampleUpper 100 2
                    (exampleEvents ++ [EvTimer 0]))).
  - vm_compute. reflexivity.
Defined.

(** With room for three, the two requests wait until the timer of the
    first fires: the executor called is the one passed with the first
    [add], although the second [add] passed another. *)
Lemma timer_flush_uses_opening_executor_witness :
  flushed exampleTimerBatcher = [exampleTimerInvocation] /\
  inv_trigger exampleTimerInvocation = ByTimer /\
  inv_executor exampleTimerInvocation = "first" /\
  supplied exampleTimerBatcher !! 1%nat = Some "second" /\
  (exists first : @PendingRequest unit,
      head (batch_requests (inv_batch exampleTimerInvocation)) = Some first /\
      supplied exampleTimerBatcher !! req_promise first
        = Some (inv_executor exampleTimerInvocation)) /\
  (exists final : @PendingRequest unit,
      last (batch_requests (inv_batch exampleInvocation)) = Some final /\
      supplied exampleBatcher !! req_promise final = Some (inv_executor exampleInvocation) /\
      2 <= Z.of_nat (length (batch_requests (inv_batch exampleInvocation)))).
Proof.
  split; [vm_compute; reflexivity|]. split; [reflexivity|]. split; [reflexivity|].
  split; [vm_compute; reflexivity|]. split.
  - refine (proj1 (proj1 (timer_flush_uses_opening_executor exampleUpper 100 3
                            exampleTimerEvents)
                         exampleTimerInvocation _) eq_refl).
    vm_compute. apply list_elem_of_here.
  - refine (proj2 (proj1 (timer_flush_uses_opening_executor exampleUpper 100 2 exampleEvents)
                     exampleInvocation _) eq_refl).
    vm_compute. apply list_elem_of_here.
Defined.

End BatcherFacts.

(** ** security.ts: the rate limiter beyond one window *)

Module LimiterFacts.
Import JsText Security.

Lemma isAllowed_config (identifier : string) (now : Z) (l : AuthRateLimiter) :
  maxAttempts (isAllowed identifier now l).2 = maxAttempts l /\
  windowMs (isAllowed identifier now l).2 = windowMs l.
Proof. unfold isAllowed. by repeat case_match. Qed.

(** X1: [getRemainingAttempts] tells what [isAllowed] will answer: a call is
    allowed exactly when an attempt remains, an allowed call uses up one
    attempt, and a refused call changes nothing, none remaining. *)
Theorem remaining_attempts_match_isAllowed
    (l : AuthRateLimiter) (identifier : string) (now : Z) :
  1 <= maxAttempts l ->
  0 <= windowMs l ->
  ((isAllowed identifier now l).1 = true <-> 0 < getRemainingAttempts identifier now l) /\
  ((isAllowed identifier now l).1 = true ->
   getRemainingAttempts identifier now (isAllowed identifier now l).2
     = getRemainingAttempts identifier now l - 1) /\
  ((isAllowed identifier now l).1 = false ->
   (isAllowed identifier now l).2 = l /\ getRemainingAttempts identifier now l = 0).
Proof.
  intros Hmax Hwin. unfold isAllowed, getRemainingAttempts.
  destruct (attempts l !! identifier) as [r|] eqn:Hr; simpl.
  - destruct (Z.gtb_spec (now - firstAttempt r) (windowMs l)) as [Hout|Hin]; simpl.
    + rewrite lookup_insert_eq. simpl.
      assert ((now - now >? windowMs l) = false) as -> by lia.
      split_and!; [split; [lia | done] | lia | done].
    + destruct (Z.geb_spec (count r) (maxAttempts l)) as [Hfull|Hroom]; simpl.
      * split_and!; [split; [done | lia] | done | intros _; split; [done | lia]].
      * rewrite lookup_insert_eq. simpl.
        assert ((now - firstAttempt r >? windowMs l) = false) as -> by lia.
        split_and!; [split; [lia | done] | lia | done].
  - rewrite lookup_insert_eq. simpl.
    assert ((now - now >? windowMs l) = false) as -> by lia.
    split_and!; [split; [lia | done] | lia | done].
Qed.

Lemma remaining_attempts_match_isAllowed_witness :
  (isAllowed "alice" 5000 defaultAuthRateLimiter).1 = true <->
  0 < getRemainingAttempts "alice" 5000 defaultAuthRateLimiter.
Proof.
  refine (proj1 (remaining_attempts_match_isAllowed defaultAuthRateLimiter "alice" 5000 _ _)).
  - vm_compute. discriminate.
  - vm_compute. discriminate.
Defined.

Lemma isAllowedAll_snoc (requests : list (string * Z)) (request : string * Z)
      (l : AuthRateLimiter) :
  isAllowedAll (requests ++ [request]) l
    = (isAllowed request.1 request.2 (isAllowedAll requests l)).2.
Proof. unfold isAllowedAll. by rewrite foldl_app. Qed.

Lemma isAllowedAll_config (requests : list (string * Z)) (l : AuthRateLimiter) :
  maxAttempts (isAllowedAll requests l) = maxAttempts l /\
  windowMs (isAllowedAll requests l) = windowMs l.
Proof.
  induction requests as [|request requests IH] using rev_ind; [done|].
  rewrite isAllowedAll_snoc.
  destruct (isAllowed_config request.1 request.2 (isAllowedAll requests l)) as [-> ->].
  exact IH.
Qed.

(** X2: Whatever identifiers call [isAllowed] and whenever, the counter of a
    record stays between 1 and [maxAttempts], its window started at the
    time of one of the calls for that identifier, and the attempts
    remaining for any identifier are between 0 and [maxAttempts]. *)
Theorem attempt_counter_bounded
    (limit window : Z) (requests : list (string * Z)) :
  1 <= limit ->
  (forall (identifier : string) (r : AttemptRecord),
      attempts (isAllowedAll requests (newAuthRateLimiter limit window)) !! identifier
        = Some r ->
      1 <= count r <= limit /\ (identifier, firstAttempt r) ∈ requests) /\
  (forall (identifier : string) (now : Z),
      0 <= getRemainingAttempts identifier now
             (isAllowedAll requests (newAuthRateLimiter limit window)) <= limit).
Proof.
  intros Hlimit.
  assert (forall (identifier : string) (r : AttemptRecord),
             attempts (isAllowedAll requests (newAuthRateLimiter limit window)) !! identifier
               = Some r ->
             1 <= count r <= limit /\ (identifier, firstAttempt r) ∈ requests) as Hinv.
  { induction requests as [|[id t] requests IH] using rev_ind.
    - intros identifier r Hr. cbn in Hr. by rewrite lookup_empty in Hr.
    - intros identifier r. rewrite isAllowedAll_snoc. simpl.
      set (l := isAllowedAll requests (newAuthRateLimiter limit window)) in *.
      assert (maxAttempts l = limit) as Hmax by apply (isAllowedAll_config requests).
      assert (forall r', attempts l !! identifier = Some r' ->
                         1 <= count r' <= limit /\
                         (identifier, firstAttempt r') ∈ requests ++ [(id, t)]) as Hold.
      { intros r' Hr'. destruct (IH identifier r' Hr') as [? ?].
        split; [done|]. apply elem_of_app. by left. }
      assert ((id, t) ∈ requests ++ [(id, t)]) as Hnew
        by (apply elem_of_app; right; apply list_elem_of_here).
      unfold isAllowed. destruct (attempts l !! id) as [r0|] eqn:Hr0; simpl.
      + destruct (Z.gtb_spec (t - firstAttempt r0) (windowMs l)); simpl.
        * intros [[<- <-]|[Hne Hr]]%lookup_insert_Some; [simpl; split; [lia | done]|].
          by apply Hold.
        * destruct (Z.geb_spec (count r0) (maxAttempts l)); simpl; [apply Hold|].
          intros [[<- <-]|[Hne Hr]]%lookup_insert_Some; [|by apply Hold].
          destruct (IH id r0 Hr0) as [? ?]. simpl. split; [lia|].
          apply elem_of_app. by left.
      + intros [[<- <-]|[Hne Hr]]%lookup_insert_Some; [simpl; split; [lia | done]|].
        by apply Hold. }
  split; [exact Hinv|].
  intros identifier now. unfold getRemainingAttempts.
  destruct (isAllowedAll_config requests (newAuthRateLimiter limit window)) as [-> _].
  simpl. destruct (attempts _ !! identifier) as [r|] eqn:Hr; [|lia].
  destruct (Hinv identifier r Hr) as [? _]. destruct (_ >? _); lia.
Qed.

Lemma attempt_counter_bounded_witness :
  0 <= getRemainingAttempts "alice" 4000
         (isAllowedAll [("alice", 1000); ("bob", 2000); ("alice", 3000)]
                       (newAuthRateLimiter 5 900000)) <= 5.
Proof.
  refine (proj2 (attempt_counter_bounded 5 900000
                   [("alice", 1000); ("bob", 2000); ("alice", 3000)] _) "alice" 4000).
  lia.
Defined.

(** X3: A call for one identifier changes neither the attempts remaining
    for another identifier nor the answer that one would get. *)
Theorem identifiers_are_independent
    (l : AuthRateLimiter) (identifier other : string) (now later : Z) :
  identifier <> other ->
  getRemainingAttempts other later (isAllowed identifier now l).2
    = getRemainingAttempts other later l /\
  (isAllowed other later (isAllowed identifier now l).2).1
    = (isAllowed other later l).1.
Proof.
  intros Hne.
  pose proof (SecurityFacts.isAllowed_other identifier other now l Hne) as Hother.
  destruct (isAllowed_config identifier now l) as [Hmax Hwin].
  set (l' := (isAllowed identifier now l).2) in *. split.
  - unfold getRemainingAttempts. by rewrite Hother, Hmax, Hwin.
  - unfold isAllowed. rewrite Hother, Hmax, Hwin. by repeat case_match.
Qed.

Lemma identifiers_are_independent_witness :
  getRemainingAttempts "bob" 2000 (isAllowed "alice" 1000 defaultAuthRateLimiter).2
    = getRemainingAttempts "bob" 2000 defaultAuthRateLimiter /\
  (isAllowed "bob" 2000 (isAllowed "alice" 1000 defaultAuthRateLimiter).2).1
    = (isAllowed "bob" 2000 defaultAuthRateLimiter).1.
Proof.
  apply (identifiers_are_independent defaultAuthRateLimiter "alice" "bob" 1000 2000).
  discriminate.
Defined.

End LimiterFacts.

(** ** security.ts: SecureTokenCache *)

Module TokenCacheFacts.
Import Security.

Section WithHash.
Variable hash : string -> string.

Local Abbreviation set_ := (TokenCache.set hash).
Local Abbreviation call_ := (TokenCache.call hash).
Local Abbreviation calls_ := (TokenCache.calls hash).

Implicit Types (c : TokenCache.SecureTokenCache) (key token : string).

Lemma get_other key other (now : Z) c :
  key <> other ->
  TokenCache.entries (TokenCache.get key now c).2 !! other = TokenCache.entries c !! other.
Proof.
  intros Hne. unfold TokenCache.get. destruct (TokenCache.entries c !! key) as [e|]; [|done].
  destruct (_ >? _); simpl; [by rewrite lookup_delete_ne | done].
Qed.

Lemma get_defaultTtl key (now : Z) c :
  TokenCache.defaultTtl (TokenCache.get key now c).2 = TokenCache.defaultTtl c.
Proof.
  unfold TokenCache.get. destruct (TokenCache.entries c !! key) as [e|]; [|done].
  by destruct (_ >? _).
Qed.

(** X4: A token stored at [t0] is returned by [get] up to and including
    [t0 + ttl], where [ttl] is the [ttlMs] given to [set] unless that is
    absent or 0, in which case it is the default; after that [get]
    misses, and the entry is gone for every later [get], whatever the
    clock says then. *)
Theorem stored_token_returned_until_expiry
    c key token (ttlMs : option Z) (t0 now : Z) :
  let ttl := match ttlMs with
             | Some t => if t =? 0 then TokenCache.defaultTtl c else t
             | None => TokenCache.defaultTtl c
             end in
  (now <= t0 + ttl ->
   TokenCache.get key now (set_ key token ttlMs t0 c)
     = (Some token, set_ key token ttlMs t0 c)) /\
  (t0 + ttl < now ->
   (TokenCache.get key now (set_ key token ttlMs t0 c)).1 = None /\
   forall again : Z,
     (TokenCache.get key again (TokenCache.get key now (set_ key token ttlMs t0 c)).2).1
       = None).
Proof.
  intros ttl. unfold TokenCache.get at 1 2 4. simpl. rewrite lookup_insert_eq. simpl.
  change (TokenCache.ttlOrDefault ttlMs c) with ttl.
  destruct (Z.gtb_spec now (t0 + ttl)) as [Hlate|Hearly]; simpl.
  - split; [lia|]. intros _. split; [done|]. intros again.
    unfold TokenCache.get. simpl. by rewrite lookup_delete_eq.
  - split; [done | lia].
Qed.

(** X5: [invalidate] makes the key miss at every clock reading, [clear]
    makes every key miss, and [set], [get] and [invalidate] on one key
    leave what [get] returns for every other key as it was. *)
Theorem token_cache_keys_are_independent c key other token (ttlMs : option Z) (t now : Z) :
  key <> other ->
  (TokenCache.get key now (TokenCache.invalidate key c)).1 = None /\
  (TokenCache.get other now (TokenCache.clear c)).1 = None /\
  (TokenCache.get other now (set_ key token ttlMs t c)).1
    = (TokenCache.get other now c).1 /\
  (TokenCache.get other now (TokenCache.get key t c).2).1
    = (TokenCache.get other now c).1 /\
  (TokenCache.get other now (TokenCache.invalidate key c)).1
    = (TokenCache.get other now c).1.
Proof.
  intros Hne. split_and!.
  - unfold TokenCache.get. simpl. by rewrite lookup_delete_eq.
  - unfold TokenCache.get. simpl. by rewrite lookup_empty.
  - unfold TokenCache.get. simpl. rewrite lookup_insert_ne by done. by repeat case_match.
  - unfold TokenCache.get at 1 3. rewrite (get_other key other t c Hne).
    by repeat case_match.
  - unfold TokenCache.get. simpl. rewrite lookup_delete_ne by done. by repeat case_match.
Qed.

Lemma calls_snoc (ops : list TokenCache.Call) (op : TokenCache.Call) c :
  calls_ (ops ++ [op]) c = call_ (calls_ ops c) op.
Proof. unfold TokenCache.calls. by rewrite foldl_app. Qed.

(** X6: In every token cache reached from a new one, the hash kept beside a
    token is the hash of that token. *)
Theorem stored_hash_is_of_token
    (defaultTtlMs : Z) (ops : list TokenCache.Call) key (entry : TokenCache.Entry) :
  TokenCache.entries (calls_ ops (TokenCache.newSecureTokenCache defaultTtlMs)) !! key
    = Some entry ->
  TokenCache.entry_hash entry = hash (TokenCache.entry_token entry).
Proof.
  revert key entry. induction ops as [|op ops IH] using rev_ind; intros key entry.
  - cbn. by rewrite lookup_empty.
  - rewrite calls_snoc.
    set (c := calls_ ops (TokenCache.newSecureTokenCache defaultTtlMs)) in *.
    destruct op as [k tok ttl now|k now|k|]; simpl.
    + intros [[<- <-]|[_ Hold]]%lookup_insert_Some; [done | by eapply IH].
    + unfold TokenCache.get. destruct (TokenCache.entries c !! k) as [e|]; [|apply IH].
      destruct (_ >? _); simpl; [|apply IH].
      intros [_ Hold]%lookup_delete_Some. by eapply IH.
    + intros [_ Hold]%lookup_delete_Some. by eapply IH.
    + by rewrite lookup_empty.
Qed.

End WithHash.

Lemma stored_token_returned_until_expiry_witness :
  TokenCache.get "session" 61000
    (TokenCache.set (fun s => s) "session" "secret" (Some 60000) 1000
                    (TokenCache.newSecureTokenCache 300000))
  = (Some "secret",
     TokenCache.set (fun s => s) "session" "secret" (Some 60000) 1000
                    (TokenCache.newSecureTokenCache 300000)).
Proof.
  refine (proj1 (stored_token_returned_until_expiry (fun s => s)
                   (TokenCache.newSecureTokenCache 300000)
                   "session" "secret" (Some 60000) 1000 61000) _).
  simpl. lia.
Defined.

Lemma token_cache_keys_are_independent_witness :
  (TokenCache.get "a" 5 (TokenCache.invalidate "a" (TokenCache.newSecureTokenCache 300000))).1
    = None /\
  (TokenCache.get "b" 5 (TokenCache.clear (TokenCache.newSecureTokenCache 300000))).1 = None /\
  (TokenCache.get "b" 5
     (TokenCache.set (fun s => s) "a" "secret" None 1
                     (TokenCache.newSecureTokenCache 300000))).1
    = (TokenCache.get "b" 5 (TokenCache.newSecureTokenCache 300000)).1 /\
  (TokenCache.get "b" 5
     (TokenCache.get "a" 1 (TokenCache.newSecureTokenCache 300000)).2).1
    = (TokenCache.get "b" 5 (TokenCache.newSecureTokenCache 300000)).1 /\
  (TokenCache.get "b" 5 (TokenCache.invalidate "a" (TokenCache.newSecureTokenCache 300000))).1
    = (TokenCache.get "b" 5 (TokenCache.newSecureTokenCache 300000)).1.
Proof.
  apply (token_cache_keys_are_independent (fun s => s)
           (TokenCache.newSecureTokenCache 300000) "a" "b" "secret" None 1 5).
  discriminate.
Defined.

Lemma stored_hash_is_of_token_witness :
  TokenCache.entry_hash
    {| TokenCache.entry_token := "secret"; TokenCache.entry_expires := 300001;
       TokenCache.entry_hash := "secret" |}
  = (fun s : string => s)
      (TokenCache.entry_token
         {| TokenCache.entry_token := "secret"; TokenCache.entry_expires := 300001;
            TokenCache.entry_hash := "secret" |}).
Proof.
  apply (stored_hash_is_of_token (fun s => s) 300000
           [TokenCache.CallSet "a" "secret" None 1] "a").
  vm_compute. reflexivity.
Defined.

End TokenCacheFacts.

(** ** Text helpers *)

Module JsTextFacts.
Import JsText.

Lemma trimStart_cleanStart (s : list ascii) : cleanStart (trimStart s).
Proof.
  induction s as [|c s IH]; simpl; [done|].
  destruct (is_white_space c) eqn:Hc; [done | by simpl].
Qed.

Lemma trimStart_fixed (s : list ascii) : cleanStart s -> trimStart s = s.
Proof. destruct s as [|c s]; simpl; [done|]. by intros ->. Qed.

Lemma trimStart_suffix (s : list ascii) : trimStart s `suffix_of` s.
Proof.
  induction s as [|c s IH]; simpl; [done|].
  destruct (is_white_space c); [by apply suffix_cons_r | done].
Qed.

Lemma trimEnd_fixed (s : list ascii) : cleanEnd s -> trimEnd s = s.
Proof.
  intros Hs. unfold trimEnd. rewrite trimStart_fixed by done. apply rev_involutive.
Qed.

Lemma trimEnd_prefix (s : list ascii) : trimEnd s `prefix_of` s.
Proof.
  unfold trimEnd. destruct (trimStart_suffix (rev s)) as [ws Hws].
  exists (rev ws). rewrite <- rev_app_distr, <- Hws. by rewrite rev_involutive.
Qed.

Lemma cleanStart_prefix (s1 s2 : list ascii) :
  s1 `prefix_of` s2 -> cleanStart s2 -> cleanStart s1.
Proof. intros [k ->]. by destruct s1. Qed.

Lemma trim_clean (s : list ascii) : cleanStart (trim s) /\ cleanEnd (trim s).
Proof.
  unfold trim. split.
  - eapply cleanStart_prefix; [apply trimEnd_prefix | apply trimStart_cleanStart].
  - unfold cleanEnd, trimEnd. rewrite rev_involutive. apply trimStart_cleanStart.
Qed.

Lemma trim_fixed (s : list ascii) : cleanStart s -> cleanEnd s -> trim s = s.
Proof.
  intros Hs He. unfold trim. rewrite (trimStart_fixed s Hs). by apply trimEnd_fixed.
Qed.

Lemma trim_idemp (s : list ascii) : trim (trim s) = trim s.
Proof. destruct (trim_clean s). by apply trim_fixed. Qed.

Lemma cleanEnd_app (s1 s2 : list ascii) : s2 <> [] -> cleanEnd s2 -> cleanEnd (s1 ++ s2).
Proof.
  unfold cleanEnd. rewrite rev_app_distr. intros Hne.
  destruct (rev s2) as [|c r] eqn:Hr; [|done].
  apply (f_equal (@rev ascii)) in Hr. rewrite rev_involutive in Hr. done.
Qed.

Lemma cleanEnd_drop (s : list ascii) (n : nat) :
  drop n s <> [] -> cleanEnd s -> cleanEnd (drop n s).
Proof.
  intros Hne Hs. unfold cleanEnd in *.
  rewrite <- (take_drop n s), rev_app_distr in Hs.
  destruct (rev (drop n s)) as [|c r] eqn:Hr; [done | done].
Qed.

Lemma startsWith_app (prefix s : list ascii) : startsWith prefix (prefix ++ s) = true.
Proof. unfold startsWith. rewrite take_app_length. by apply bool_decide_eq_true. Qed.

Lemma toLowerCaseChar_space (c : ascii) : toLowerCaseChar c = " "%char -> c = " "%char.
Proof. destruct c as [[] [] [] [] [] [] [] []]; vm_compute; congruence. Qed.

(** Lower-casing turns exactly the letter and its capital into the letter. *)
Lemma toLowerCaseChar_letter (lower upper c : ascii) :
  (lower, upper) ∈ [("b", "B"); ("e", "E"); ("a", "A"); ("r", "R")]%char ->
  toLowerCaseChar c = lower -> matches_ci upper lower c = true.
Proof.
  intros Hin. repeat (apply elem_of_cons in Hin as [[= -> ->]|Hin]);
    [..|by apply elem_of_nil in Hin];
    destruct c as [[] [] [] [] [] [] [] []]; vm_compute; congruence.
Qed.

End JsTextFacts.

(** ** auth.ts *)

Module AuthFacts.
Import JsText JsTextFacts Security Auth.

Lemma startsWith_bearer_split (s : list ascii) :
  startsWith (str "bearer ") (toLowerCase s) = true ->
  exists c1 c2 c3 c4 c5 c6 rest,
    s = c1 :: c2 :: c3 :: c4 :: c5 :: c6 :: " "%char :: rest /\
    matches_ci "B" "b" c1 = true /\ matches_ci "E" "e" c2 = true /\
    matches_ci "A" "a" c3 = true /\ matches_ci "R" "r" c4 = true /\
    matches_ci "E" "e" c5 = true /\ matches_ci "R" "r" c6 = true.
Proof.
  unfold startsWith. intros Hs%bool_decide_eq_true.
  destruct s as [|c1 [|c2 [|c3 [|c4 [|c5 [|c6 [|c7 rest]]]]]]]; try discriminate.
  simpl in Hs. injection Hs as H1 H2 H3 H4 H5 H6 H7.
  apply toLowerCaseChar_space in H7 as ->.
  exists c1, c2, c3, c4, c5, c6, rest. split_and!; [done|..];
    (eapply toLowerCaseChar_letter; [|done]); set_solver.
Qed.

(** What [normalizeToken] appends to ["Bearer "]: never empty and never
    ending in white space, unless the token is blank. *)
Lemma normalizeToken_shape (token : list ascii) :
  trim token <> [] ->
  exists tokenPart : list ascii,
    normalizeToken token = str "Bearer " ++ tokenPart /\
    tokenPart <> [] /\ cleanEnd tokenPart.
Proof.
  intros Hne. destruct (trim_clean token) as [Hstart Hend]. unfold normalizeToken.
  destruct (startsWith (str "bearer ") (toLowerCase (trim token))) eqn:Hsw.
  - exists (drop 7 (trim token)). split; [done|].
    destruct (startsWith_bearer_split _ Hsw) as (c1&c2&c3&c4&c5&c6&rest&Ht&_).
    assert (drop 7 (trim token) <> []) as Hrest.
    { rewrite Ht in Hend |- *. destruct rest as [|c rest]; [|done].
      unfold cleanEnd in Hend. simpl in Hend. by vm_compute in Hend. }
    split; [done | by apply cleanEnd_drop].
  - by exists (trim token).
Qed.

Lemma normalizeToken_starts (token : list ascii) :
  startsWith (str "Bearer ") (normalizeToken token) = true.
Proof.
  unfold normalizeToken. destruct (startsWith (str "bearer ") _); apply startsWith_app.
Qed.

(** X7: [normalizeToken] always yields a text that starts with ["Bearer "];
    applied to its own result for a token that is not blank, it changes
    nothing.  A blank token gives ["Bearer "] alone. *)
Theorem normalizeToken_idempotent (token : list ascii) :
  startsWith (str "Bearer ") (normalizeToken token) = true /\
  (trim token <> [] -> normalizeToken (normalizeToken token) = normalizeToken token) /\
  (trim token = [] -> normalizeToken token = str "Bearer ").
Proof.
  split_and!.
  - unfold normalizeToken.
    destruct (startsWith (str "bearer ") _); apply startsWith_app.
  - intros Hne. destruct (normalizeToken_shape token Hne) as (part & -> & Hpart & Hend).
    unfold normalizeToken.
    assert (trim (str "Bearer " ++ part) = str "Bearer " ++ part) as ->.
    { apply trim_fixed; [done | by apply cleanEnd_app]. }
    assert (startsWith (str "bearer ") (toLowerCase (str "Bearer " ++ part)) = true) as ->;
      [|done].
    unfold toLowerCase. rewrite fmap_app. apply startsWith_app.
  - intros Hblank. unfold normalizeToken. by rewrite Hblank.
Qed.

Lemma normalizeToken_idempotent_witness :
  normalizeToken (normalizeToken (str "  bEaReR abc123  "))
    = normalizeToken (str "  bEaReR abc123  ").
Proof.
  refine (proj1 (proj2 (normalizeToken_idempotent (str "  bEaReR abc123  "))) _).
  vm_compute. discriminate.
Defined.

(** X8: A raw token, with no white space around it and no Bearer prefix of
    its own, survives the round trip: cleaning the header value that
    [normalizeToken] builds gives the raw token back, so [maskToken] and
    [validateTokenSecurity] judge the header value as they judge the raw
    token. *)
Theorem cleanToken_undoes_normalizeToken (raw : list ascii) :
  trim raw = raw ->
  replace_bearer_prefix raw = raw ->
  normalizeToken raw = str "Bearer " ++ raw /\
  cleanToken (normalizeToken raw) = raw /\
  validateTokenSecurity (normalizeToken raw) = validateTokenSecurity raw /\
  (raw <> [] -> maskToken (normalizeToken raw) = maskToken raw).
Proof.
  intros Htrim Hraw.
  assert (normalizeToken raw = str "Bearer " ++ raw) as Hnorm.
  { unfold normalizeToken. rewrite Htrim.
    destruct (startsWith (str "bearer ") (toLowerCase raw)) eqn:Hsw; [|done].
    destruct (startsWith_bearer_split _ Hsw)
      as (c1&c2&c3&c4&c5&c6&rest&Hr&H1&H2&H3&H4&H5&H6).
    exfalso. rewrite Hr in Hraw. simpl in Hraw.
    rewrite H1, H2, H3, H4, H5, H6 in Hraw. simpl in Hraw.
    pose proof (suffix_length _ _ (trimStart_suffix rest)) as Hlen.
    apply (f_equal length) in Hraw. simpl in Hraw. lia. }
  assert (cleanToken (str "Bearer " ++ raw) = raw) as Hclean.
  { unfold cleanToken. change (replace_bearer_prefix (str "Bearer " ++ raw)) with (trimStart raw).
    destruct (trim_clean raw) as [Hstart _]. rewrite Htrim in Hstart.
    by rewrite (trimStart_fixed raw Hstart). }
  assert (cleanToken raw = raw) as Hclean' by (unfold cleanToken; by rewrite Hraw).
  rewrite Hnorm. split_and!; try done.
  - unfold validateTokenSecurity. by rewrite Hclean, Hclean'.
  - intros Hne. rewrite (SecurityFacts.maskToken_nonempty raw Hne).
    rewrite (SecurityFacts.maskToken_nonempty (str "Bearer " ++ raw)) by done.
    by rewrite Hclean, Hclean'.
Qed.

Lemma cleanToken_undoes_normalizeToken_witness :
  normalizeToken (str "abcd1234efgh5678") = str "Bearer " ++ str "abcd1234efgh5678" /\
  cleanToken (normalizeToken (str "abcd1234efgh5678")) = str "abcd1234efgh5678" /\
  validateTokenSecurity (normalizeToken (str "abcd1234efgh5678"))
    = validateTokenSecurity (str "abcd1234efgh5678") /\
  (str "abcd1234efgh5678" <> [] ->
   maskToken (normalizeToken (str "abcd1234efgh5678")) = maskToken (str "abcd1234efgh5678")).
Proof.
  apply (cleanToken_undoes_normalizeToken (str "abcd1234efgh5678")); reflexivity.
Defined.

Lemma usable_iff (argToken : option (list ascii)) :
  usable argToken = true <-> exists token, argToken = Some token /\ trim token <> [].
Proof.
  unfold usable. destruct argToken as [token|]; [|split; [done | by intros (? & ? & ?)]].
  destruct token as [|c token]; simpl.
  - split; [done | by intros (? & [= <-] & ?)].
  - destruct (trim (c :: token)) eqn:Ht.
    + split; [done | intros (? & [= <-] & ?); congruence].
    + split; [|done]. intros _. eexists. split; [done|]. by rewrite Ht.
Qed.

Lemma getTokenFromEnv_Some (env : option (list ascii)) (envToken : list ascii) :
  getTokenFromEnv env = Some envToken <->
  exists token, env = Some token /\ trim token = envToken /\ envToken <> [].
Proof.
  unfold getTokenFromEnv. destruct env as [token|]; [|split; [done | by intros (? & ? & ?)]].
  destruct token as [|c token]; simpl.
  - split; [done | intros (? & [= <-] & <- & Hne); exfalso; by apply Hne].
  - destruct (trim (c :: token)) eqn:Ht.
    + split; [done | intros (? & [= <-] & <- & ?); congruence].
    + split.
      * intros [= <-]. eexists. by rewrite Ht.
      * intros (? & [= <-] & <- & _). by rewrite Ht.
Qed.

(** X9: Which token wins.  [resolveAuth] takes the environment's token
    whenever that is not blank, whatever the argument; building headers
    is the other way round: an argument that is not blank wins over the
    environment.  Building headers fails exactly when neither is there.
    The value under [Authorization] always starts with ["Bearer "],
    unless the additional headers bring an [Authorization] of their own,
    which then replaces it; every additional header is kept. *)
Theorem token_priority
    (env argToken : option (list ascii)) (additionalHeaders : gmap string (list ascii)) :
  (forall envToken, getTokenFromEnv env = Some envToken ->
                    resolveAuth env argToken = Some (normalizeToken envToken)) /\
  (forall token, argToken = Some token -> trim token <> [] ->
                 createAuthenticatedHeaders env argToken additionalHeaders
                   = inr (additionalHeaders ∪ {["Authorization" := normalizeToken token]})) /\
  (createAuthenticatedHeaders env argToken additionalHeaders = inl NoApiTokenFound <->
   usable argToken = false /\ getTokenFromEnv env = None) /\
  (resolveAuth env argToken = None <->
   usable argToken = false /\ getTokenFromEnv env = None) /\
  (forall header, resolveAuth env argToken = Some header ->
                  startsWith (str "Bearer ") header = true) /\
  (forall headers, createAuthenticatedHeaders env argToken additionalHeaders = inr headers ->
     (forall name value, additionalHeaders !! name = Some value ->
                         headers !! name = Some value) /\
     (additionalHeaders !! "Authorization" = None ->
      exists value, headers !! "Authorization" = Some value /\
                    startsWith (str "Bearer ") value = true) /\
     (forall name, name <> "Authorization" ->
                   headers !! name = additionalHeaders !! name)).
Proof.
  assert (forall token, startsWith (str "Bearer ") (normalizeToken token) = true) as Hbearer
    by (intros token; apply normalizeToken_starts).
  split_and!.
  - intros envToken Henv. unfold resolveAuth. by rewrite Henv.
  - intros token -> Hne. unfold createAuthenticatedHeaders.
    assert (usable (Some token) = true) as -> by (apply usable_iff; by exists token).
    done.
  - unfold createAuthenticatedHeaders, requireAuth, resolveAuth.
    destruct argToken as [token|]; destruct (usable _) eqn:Hu;
      destruct (getTokenFromEnv env) eqn:He; simpl; try (by split; [|intros []]);
      try (by split); try (by destruct Hu).
  - unfold resolveAuth. destruct (getTokenFromEnv env) eqn:He; [by split; [|intros []]|].
    destruct argToken as [token|]; [|by split].
    destruct (usable (Some token)); [by split; [|intros []] | by split].
  - intros header. unfold resolveAuth. destruct (getTokenFromEnv env); [by intros [= <-]|].
    destruct argToken as [token|]; [|done]. destruct (usable _); [by intros [= <-] | done].
  - intros headers Hh.
    assert (exists token, headers = additionalHeaders ∪ {["Authorization" := token]} /\
                          startsWith (str "Bearer ") token = true) as (token & -> & Htok).
    { unfold createAuthenticatedHeaders, requireAuth, resolveAuth in Hh.
      destruct argToken as [t|]; [destruct (usable _)|];
        destruct (getTokenFromEnv env); simpl in Hh; simplify_eq; by eexists. }
    split_and!.
    + intros name value Hadd. by apply lookup_union_Some_l.
    + intros Hnone. exists token. split; [|done].
      rewrite lookup_union_r by done. apply lookup_singleton_eq.
    + intros name Hne. rewrite lookup_union_l; [done|].
      by apply lookup_singleton_ne.
Qed.

Lemma token_priority_witness :
  resolveAuth (Some (str " envsecret ")) (Some (str "argsecret"))
    = Some (normalizeToken (str "envsecret")) /\
  createAuthenticatedHeaders (Some (str " envsecret ")) (Some (str "argsecret")) ∅
    = inr (∅ ∪ {["Authorization" := normalizeToken (str "argsecret")]}).
Proof.
  split.
  - apply (proj1 (token_priority (Some (str " envsecret ")) (Some (str "argsecret")) ∅)).
    reflexivity.
  - apply (proj1 (proj2 (token_priority (Some (str " envsecret "))
                           (Some (str "argsecret")) ∅))).
    + reflexivity.
    + vm_compute. discriminate.
Defined.

End AuthFacts.

(** ** security.ts: validateTokenSecurity *)

Module TokenValidationFacts.
Import JsText Security.





End TokenValidationFacts.

(** ** performance.ts: more of ResponseCache *)

Module CacheMoreFacts.
Import JsText Performance.

Section MoreResponseCacheFacts.
Context {Data Params : Type}.
Variable toUpperCase : string -> string.
Variable searchParams : Params -> string.

Local Abbreviation Cache := (@ResponseCache Data).
Local Abbreviation Entry := (@CacheEntry Data).
Local Abbreviation keyOf := (createCacheKey toUpperCase searchParams).
Local Abbreviation get_ := (get toUpperCase searchParams).
Local Abbreviation set_ := (set toUpperCase searchParams).
Local Abbreviation calls_ := (calls toUpperCase searchParams).
Local Abbreviation shouldRefresh_ := (shouldRefresh toUpperCase searchParams).
Local Abbreviation addConditionalHeaders_ := (addConditionalHeaders toUpperCase searchParams).

Implicit Types (c : Cache) (config : @AxiosRequestConfig Params)
         (response : @AxiosResponse Data).

(** X11: [shouldRefresh] and [addConditionalHeaders] read the cache through
    [get], expiry included.  On a miss, [shouldRefresh] says yes and the
    headers are not touched.  On a hit, [shouldRefresh] says yes exactly
    when the entry has a non-empty ETag or Last-Modified, and then the
    matching conditional header carries it; if it says no, nothing is
    added.  Headers under other names are always kept. *)
Theorem conditional_headers_follow_shouldRefresh
    c config (now : Z) (headers : option (gmap string string)) :
  (shouldRefresh_ config now c).2 = (get_ config now c).2 /\
  (addConditionalHeaders_ config headers now c).2 = (get_ config now c).2 /\
  ((get_ config now c).1 = None ->
   (shouldRefresh_ config now c).1 = true /\
   (addConditionalHeaders_ config headers now c).1 = headers) /\
  (forall entry : Entry,
      (get_ config now c).1 = Some entry ->
      exists sent : gmap string string,
        (addConditionalHeaders_ config headers now c).1 = Some sent /\
        (forall name, name <> "If-None-Match" -> name <> "If-Modified-Since" ->
                      sent !! name = default ∅ headers !! name) /\
        ((shouldRefresh_ config now c).1 = false -> sent = default ∅ headers) /\
        ((shouldRefresh_ config now c).1 = true <->
         (exists tag, etag entry = Some tag /\ tag <> "" /\
                      sent !! "If-None-Match" = Some tag) \/
         (exists date, lastModified entry = Some date /\ date <> "" /\
                       sent !! "If-Modified-Since" = Some date))).
Proof.
  unfold shouldRefresh, addConditionalHeaders.
  destruct (get_ config now c) as [[entry|] c'] eqn:Hget; simpl.
  - split_and!; [done | done | done |]. intros ? [= <-]. eexists. split; [done|].
    unfold truthy. split_and!.
    + intros name H1 H2.
      destruct (etag entry), (lastModified entry); repeat case_bool_decide; simpl;
        by rewrite ?lookup_insert_ne by done.
    + destruct (etag entry), (lastModified entry); repeat case_bool_decide; simpl;
        done.
    + destruct (etag entry) as [tag|], (lastModified entry) as [date|];
        repeat case_bool_decide; subst; simpl;
        (split;
         [ intros Hyes; try discriminate Hyes
         | intros [(? & ? & ? & ?)|(? & ? & ? & ?)]; congruence ]);
        first
          [ left; exists tag; split_and!; [done | done |];
            rewrite ?lookup_insert_ne by done; apply lookup_insert_eq
          | right; exists date; split_and!; [done | done |];
            apply lookup_insert_eq ].
  - split_and!; [done | done | done | done].
Qed.


Lemma append_cancel_l (s a b : string) : s +:+ a = s +:+ b -> a = b.
Proof. induction s as [|ch s IH]; simpl; [done|]. intros [= H]. by apply IH. Qed.

Lemma before_question_mark_query (path query : string) :
  before_question_mark (path +:+ "?" +:+ query) = before_question_mark path.
Proof.
  induction path as [|ch path IH]; simpl; [done|].
  case_bool_decide; [done|]. by rewrite IH.
Qed.

(** X12: The batch group of a request is decided by the method and by the
    URL up to its first question mark: requests that differ only in
    the query string or in [params] are put in the same group, while
    the response cache keeps apart URLs with different query strings. *)
Theorem query_string_shares_batch_not_cache
    (m : option string) (path query1 query2 : string) (p1 p2 : option Params) :
  getBatchKey toUpperCase
    {| method := m; url := Some (path +:+ "?" +:+ query1); params := p1 |} =
  getBatchKey toUpperCase {| method := m; url := Some path; params := p2 |} /\
  (query1 <> query2 ->
   keyOf {| method := m; url := Some (path +:+ "?" +:+ query1); params := None |} <>
   keyOf {| method := m; url := Some (path +:+ "?" +:+ query2); params := None |}).
Proof.
  split.
  - unfold getBatchKey, methodOrGet. simpl. by rewrite before_question_mark_query.
  - intros Hne Heq. apply Hne. unfold createCacheKey, methodOrGet in Heq. simpl in Heq.
    by repeat (apply append_cancel_l in Heq).
Qed.

Lemma omap_get_set_other {V} (k k' : string) (v : V) (m : list (string * V)) :
  k' <> k -> omap_get k' (omap_set k v m) = omap_get k' m.
Proof.
  intros Hne. induction m as [|[k0 v0] m IH]; simpl.
  - by rewrite bool_decide_false.
  - destruct (decide (k0 = k)) as [->|Hk].
    + rewrite (bool_decide_true (k = k)) by done. simpl.
      by rewrite !(bool_decide_false (k = k')) by done.
    + rewrite (bool_decide_false (k0 = k)) by done. simpl.
      case_bool_decide; [done | apply IH].
Qed.

Lemma omap_length_set_present {V} (k : string) (v : V) (m : list (string * V)) :
  length (omap_set k v m) =
    if bool_decide (k ∈ omap_keys m) then length m else S (length m).
Proof.
  rewrite <- (length_fmap fst (omap_set k v m)).
  change (fst <$> omap_set k v m) with (omap_keys (omap_set k v m)).
  rewrite CacheFacts.omap_keys_set. case_bool_decide.
  - unfold omap_keys. by rewrite length_fmap.
  - rewrite length_app. unfold omap_keys. rewrite length_fmap. simpl. lia.
Qed.

Lemma omap_length_delete_present {V} (k : string) (m : list (string * V)) :
  k ∈ omap_keys m -> S (length (omap_delete k m)) = length m.
Proof.
  induction m as [|[k0 v0] m IH]; simpl.
  - by intros ?%elem_of_nil.
  - intros Hin. case_bool_decide as Heq; [done|].
    apply elem_of_cons in Hin as [Hin|Hin]; [congruence|].
    simpl. by rewrite IH.
Qed.

(** X13: A response stored with [set] is what [get] returns for the same
    request as long as no more than the time to live has passed since
    the store (the [ttlMs] given, or the default when none or 0 was
    given), and that lookup changes nothing; once more time has passed
    the lookup is a miss and the key is gone from the cache.  This
    holds whatever the cache held before and whether or not the store
    evicted an entry. *)
Theorem stored_response_returned_until_expiry
    (defaultTtlMs limit : Z) (ops : list (@CacheCall Data Params))
    config response (ttlMs : option Z) (now later : Z) :
  let c := calls_ ops (@newResponseCache Data defaultTtlMs limit) in
  let stored := set_ config response ttlMs now c in
  let entry := {| data := resp_data response; timestamp := now;
                  etag := resp_etag response;
                  lastModified := resp_lastModified response;
                  expires := ttlMs |} in
  let ttl := match ttlMs with
             | Some t => if t =? 0 then defaultTtlMs else t
             | None => defaultTtlMs
             end in
  (later - now <= ttl ->
   get_ config later stored = (Some entry, stored)) /\
  (ttl < later - now ->
   (get_ config later stored).1 = None /\
   (keyOf config ∉ omap_keys (cache (get_ config later stored).2)) /\
   size (get_ config later stored).2 = size stored - 1).
Proof.
  intros c stored entry ttl.
  assert (wellFormed stored) as [Hnd _].
  { apply (CacheFacts.wellFormed_call toUpperCase searchParams c
             (CallSet config response ttlMs now)).
    apply CacheFacts.wellFormed_calls, CacheFacts.wellFormed_new. }
  assert (defaultTtl stored = defaultTtlMs) as Httl.
  { unfold stored, set. simpl. unfold c.
    by rewrite CacheFacts.defaultTtl_calls. }
  assert (omap_get (keyOf config) (cache stored) = Some entry) as Hget
    by apply CacheFacts.omap_get_set_eq.
  assert (effectiveTtl stored entry = ttl) as Heff.
  { unfold effectiveTtl, ttl. rewrite Httl. reflexivity. }
  unfold get. rewrite Hget, Heff. simpl. split.
  - intros Hfresh. by assert ((later - now >? ttl) = false) as -> by lia.
  - intros Hold. assert ((later - now >? ttl) = true) as -> by lia. simpl.
    split_and!; [done | by apply CacheFacts.omap_keys_delete_absent |].
    assert (keyOf config ∈ omap_keys (cache stored)) as Hin
      by by eapply CacheFacts.omap_get_Some_keys.
    pose proof (omap_length_delete_present _ _ Hin) as Hlen.
    change (Z.of_nat (length (omap_delete (keyOf config) (cache stored))) =
            Z.of_nat (length (cache stored)) - 1). lia.
Qed.

(** X14: What a store does to the number of entries of a full cache: the
    first entry of the map is removed before the key is looked at, so
    storing under a key that the cache holds at another place shrinks
    the cache by one, while storing under a new key, or under the key
    of the first entry itself, leaves it full with the stored key as
    the last of the map. *)
Theorem store_into_full_cache
    (defaultTtlMs limit : Z) (ops : list (@CacheCall Data Params))
    config response (ttlMs : option Z) (now : Z) :
  let c := calls_ ops (@newResponseCache Data defaultTtlMs limit) in
  let stored := set_ config response ttlMs now c in
  1 <= limit -> limit <= size c ->
  size c = limit /\
  (keyOf config ∈ omap_keys (cache c) ->
   omap_first_key (cache c) <> Some (keyOf config) ->
   size stored = limit - 1 /\
   omap_keys (cache stored) = tail (omap_keys (cache c))) /\
  ((keyOf config ∉ omap_keys (cache c) \/
    omap_first_key (cache c) = Some (keyOf config)) ->
   size stored = limit /\
   omap_keys (cache stored) = tail (omap_keys (cache c)) ++ [keyOf config]).
Proof.
  intros c stored Hmax Hfull.
  assert (wellFormed c) as Hwf
    by apply CacheFacts.wellFormed_calls, CacheFacts.wellFormed_new.
  assert (maxSize c = limit) as Hms by (unfold c; by rewrite CacheFacts.maxSize_calls).
  assert (size c <= limit) as Hle.
  { apply (CacheFacts.size_calls toUpperCase searchParams ops
             (newResponseCache defaultTtlMs limit)); simpl;
      [done | apply CacheFacts.wellFormed_new | unfold size; simpl; lia]. }
  destruct (cache c) as [|[oldest e] rest] eqn:Hc.
  { unfold size in Hfull. rewrite Hc in Hfull. simpl in Hfull. lia. }
  assert (evictOldest c = rest) as Hevict
    by (apply (CacheFacts.evictOldest_full c oldest e rest Hwf Hc); lia).
  assert (Z.of_nat (length rest) = limit - 1) as Hrest.
  { unfold size in *. rewrite Hc in *. simpl in *. lia. }
  destruct Hwf as [Hnd _]. rewrite Hc in Hnd.
  change (omap_keys ((oldest, e) :: rest)) with (oldest :: omap_keys rest) in *.
  apply NoDup_cons in Hnd as [Hnotin _].
  assert (cache stored = omap_set (keyOf config)
            {| data := resp_data response; timestamp := now;
               etag := resp_etag response;
               lastModified := resp_lastModified response;
               expires := ttlMs |} rest) as Hstored.
  { unfold stored, set. simpl. by rewrite Hevict. }
  unfold size at 2 3. rewrite Hstored, omap_length_set_present, CacheFacts.omap_keys_set.
  simpl. split_and!; [lia | |].
  - intros Hin Hfirst. apply elem_of_cons in Hin as [Hin|Hin]; [congruence|].
    rewrite !bool_decide_true by done. split; [lia | done].
  - intros [Hnin|[= ->]].
    + apply not_elem_of_cons in Hnin as [_ Hnin].
      rewrite !bool_decide_false by done. split; [lia | done].
    + rewrite !bool_decide_false by done. split; [lia | done].
Qed.

End MoreResponseCacheFacts.

(** A cache for two responses holds /a and /b; storing /b again removes
    /a and leaves one entry. *)
Lemma store_into_full_cache_witness :
  size (set exampleUpper exampleSearchParams (exampleConfig "/b") (exampleResponse 3)
            None 3000
            (calls exampleUpper exampleSearchParams
                   [CallSet (exampleConfig "/a") (exampleResponse 1) None 1000;
                    CallSet (exampleConfig "/b") (exampleResponse 2) None 2000]
                   (newResponseCache 300000 2))) = 2 - 1.
Proof.
  refine (proj1 (proj1 (proj2 (store_into_full_cache exampleUpper exampleSearchParams
                   300000 2
                   [CallSet (exampleConfig "/a") (exampleResponse 1) None 1000;
                    CallSet (exampleConfig "/b") (exampleResponse 2) None 2000]
                   (exampleConfig "/b") (exampleResponse 3) None 3000 _ _)) _ _)).
  - lia.
  - vm_compute. discriminate.
  - vm_compute. apply list_elem_of_further, list_elem_of_here.
  - vm_compute. discriminate.
Defined.

End CacheMoreFacts.

(** ** performance.ts: where the promises of a batcher are *)

Module BatcherAccountFacts.
Import JsText Performance.

Section Accounting.
Context {Params Executor Result Error : Type}.
Variable toUpperCase : string -> string.

Local Abbreviation World := (@RequestBatcher Params Executor Result Error).
Local Abbreviation keyOf := (@getBatchKey Params toUpperCase).
Local Abbreviation add_ := (@add Params toUpperCase Executor Result Error).
Local Abbreviation enqueue_ := (@enqueue Params toUpperCase Executor Result Error).
Local Abbreviation step_ := (@step Params toUpperCase Executor Result Error).
Local Abbreviation run_ := (@run Params toUpperCase Executor Result Error).

Implicit Types (w : World) (config : @AxiosRequestConfig Params) (executor : Executor)
         (batch : @Batch Params) (inv : @Invocation Params Executor)
         (outcome : @Outcome Result Error).

Lemma StronglySorted_lt_NoDup (l : list nat) : StronglySorted lt l -> NoDup l.
Proof.
  induction 1 as [|x l Hl IH Hx]; constructor; [|done].
  intros Hin. rewrite Forall_forall in Hx. specialize (Hx x Hin). lia.
Qed.

Lemma deliveries_promises inv outcome :
  settledPromise <$> deliveries inv outcome = promisesOf (inv_batch inv).
Proof.
  unfold deliveries, promisesOf. destruct outcome as [results|error].
  - apply list_eq. intros i. rewrite !list_lookup_fmap, list_lookup_imap.
    by destruct (batch_requests (inv_batch inv) !! i).
  - rewrite <- list_fmap_compose. by apply list_fmap_ext.
Qed.

Lemma accounted_new (batchWindowMs maxBatch : Z) :
  accounted (@newRequestBatcher Params Executor Result Error batchWindowMs maxBatch).
Proof.
  split; simpl.
  - intros inv p Hin. by apply elem_of_nil in Hin.
  - intros key key' batch batch' p Hb. by rewrite lookup_empty in Hb.
  - intros key batch inv p Hb. by rewrite lookup_empty in Hb.
  - intros inv inv' p Hin. by apply elem_of_nil in Hin.
  - constructor.
  - intros p Hin. by apply elem_of_nil in Hin.
  - intros p Hp. lia.
  - intros inv Hin. by apply elem_of_nil in Hin.
Qed.

(** [batch.requests.push]: the promise just made joins the batch of
    its key. *)
Lemma accounted_push w w' (key : string) (batch' : @Batch Params) :
  consistent w -> accounted w ->
  batches w' = <[key := batch']> (batches w) ->
  promisesOf batch' =
    default [] (promisesOf <$> batches w !! key) ++ [nextPromise w] ->
  nextPromise w' = S (nextPromise w) ->
  flushed w' = flushed w -> awaiting w' = awaiting w -> settled w' = settled w ->
  accounted w'.
Proof.
  intros Hw [A1 A2 A3 A4 A5 A6 A7 A8] Hb Hp Hn Hf Ha Hs.
  assert (forall k b p, batches w !! k = Some b -> p ∈ promisesOf b ->
                        (p < nextPromise w)%nat) as Hopen.
  { intros k b p Hk Hin.
    destruct (open_groups w Hw k b Hk) as (first & ex0 & _ & _ & _ & _ & Hall).
    rewrite Forall_forall in Hall. by apply Hall. }
  assert (forall p, p ∈ promisesOf batch' ->
            p = nextPromise w \/
            exists b, batches w !! key = Some b /\ p ∈ promisesOf b) as Hnew.
  { intros p. rewrite Hp. intros [Hin| ->%list_elem_of_singleton]%elem_of_app; [|by left].
    right. destruct (batches w !! key) as [b|]; simpl in Hin.
    - by exists b.
    - by apply elem_of_nil in Hin. }
  split; rewrite ?Hb, ?Hn, ?Hf, ?Ha, ?Hs.
  - intros inv p Hin Hpin. specialize (A1 inv p Hin Hpin). lia.
  - intros k1 k2 b1 b2 p H1 H2 Hp1 Hp2.
    apply lookup_insert_Some in H1 as [[<- <-]|[Hne1 H1]];
      apply lookup_insert_Some in H2 as [[<- <-]|[Hne2 H2]]; try done.
    + exfalso. pose proof (Hopen _ _ _ H2 Hp2) as Hlt.
      destruct (Hnew p Hp1) as [->|(b & Hk & Hin)]; [lia|].
      apply Hne2. by eapply (A2 key k2 b b2 p).
    + exfalso. pose proof (Hopen _ _ _ H1 Hp1) as Hlt.
      destruct (Hnew p Hp2) as [->|(b & Hk & Hin)]; [lia|].
      apply Hne1. by eapply (A2 key k1 b b1 p).
    + by eapply A2.
  - intros k b inv p H1 Hin Hp1 Hp2.
    apply lookup_insert_Some in H1 as [[<- <-]|[Hne1 H1]].
    + destruct (Hnew p Hp1) as [->|(b0 & Hk & Hin')].
      * specialize (A1 inv _ Hin Hp2). lia.
      * by apply (A3 key b0 inv p).
    + by apply (A3 k b inv p).
  - done.
  - done.
  - done.
  - intros p Hlt. destruct (decide (p = nextPromise w)) as [->|Hne].
    + left. exists key, batch'. split; [apply lookup_insert_eq|].
      rewrite Hp. apply elem_of_app. right. by apply list_elem_of_singleton.
    + destruct (A7 p) as [(k & b & Hk & Hin)|Hflushed]; [lia | | by right].
      left. destruct (decide (k = key)) as [->|Hk'].
      * exists key, batch'. split; [apply lookup_insert_eq|].
        rewrite Hp, Hk. simpl. apply elem_of_app. by left.
      * exists k, b. by rewrite lookup_insert_ne.
  - done.
Qed.

(** A flush: the batch of [key] leaves the map and waits for its
    executor. *)
Lemma accounted_flush w w' (key : string) batch inv :
  consistent w -> accounted w ->
  batches w !! key = Some batch -> inv_batch inv = batch ->
  batches w' = delete key (batches w) ->
  flushed w' = flushed w ++ [inv] ->
  awaiting w' = <[timeout batch := inv]> (awaiting w) ->
  nextPromise w' = nextPromise w -> settled w' = settled w ->
  accounted w'.
Proof.
  intros Hw [A1 A2 A3 A4 A5 A6 A7 A8] Hk Hinv Hb Hf Ha Hn Hs.
  destruct (open_groups w Hw key batch Hk) as (first & ex0 & _ & _ & Htimer & _ & Hall).
  rewrite Forall_forall in Hall.
  assert (forall inv', inv' ∈ flushed w -> handleOf inv' <> timeout batch) as Hother.
  { intros inv' Hin Heq.
    destruct (flushed_groups w Hw inv' Hin) as (_ & Hnone & _). congruence. }
  split; rewrite ?Hb, ?Hn, ?Hf, ?Ha, ?Hs.
  - intros inv' p [Hin| ->%list_elem_of_singleton]%elem_of_app Hp.
    + by eapply A1.
    + rewrite Hinv in Hp. by apply Hall.
  - intros k1 k2 b1 b2 p [_ H1]%lookup_delete_Some [_ H2]%lookup_delete_Some.
    by apply A2.
  - intros k b inv' p [Hne H1]%lookup_delete_Some
           [Hin| ->%list_elem_of_singleton]%elem_of_app Hp1.
    + by eapply A3.
    + rewrite Hinv. intros Hp2. apply Hne. symmetry. by eapply (A2 k key b batch p).
  - intros inv1 inv2 p [H1| ->%list_elem_of_singleton]%elem_of_app
           [H2| ->%list_elem_of_singleton]%elem_of_app Hp1 Hp2; try done.
    + by eapply A4.
    + exfalso. rewrite Hinv in Hp2. by apply (A3 key batch inv1 p).
    + exfalso. rewrite Hinv in Hp1. by apply (A3 key batch inv2 p).
  - done.
  - intros p Hp. destruct (A6 p Hp) as (inv' & Hin & Hnone & Hpin).
    exists inv'. split_and!; [apply elem_of_app; by left | | done].
    rewrite lookup_insert_ne; [done|]. intros Heq. by apply (Hother inv').
  - intros p Hlt. destruct (A7 p Hlt) as [(k & b & Hkb & Hin)|(inv' & Hin & Hp)].
    + destruct (decide (k = key)) as [->|Hne].
      * right. exists inv. split; [apply elem_of_app; right; by apply list_elem_of_singleton|].
        rewrite Hinv. rewrite Hk in Hkb. by injection Hkb as ->.
      * left. exists k, b. by rewrite lookup_delete_ne.
    + right. exists inv'. split; [apply elem_of_app; by left | done].
  - intros inv' [Hin| ->%list_elem_of_singleton]%elem_of_app.
    + destruct (A8 inv' Hin) as [Hwait|Hdone]; [left | by right].
      rewrite lookup_insert_ne; [done|]. intros Heq. by apply (Hother inv').
    + left. unfold handleOf. rewrite Hinv. apply lookup_insert_eq.
Qed.

Lemma accounted_afterFlush (trigger : Trigger) (key : string) executor batch w :
  consistent w -> accounted w -> batches w !! key = Some batch ->
  accounted (afterFlush trigger key executor batch w).
Proof.
  intros Hw Ha Hb. rewrite (BatcherFacts.afterFlush_eq _ _ _ _ _ Hb).
  eapply (accounted_flush w _ key batch); [exact Hw | exact Ha | exact Hb | ..];
    simpl; try reflexivity.
  all: reflexivity.
Qed.

Lemma accounted_enqueue config executor w :
  consistent w -> accounted w -> accounted (enqueue_ config executor w).2.
Proof.
  intros Hw Ha. destruct (batches w !! keyOf config) as [batch|] eqn:Hb.
  - rewrite (BatcherFacts.enqueue_open _ _ _ _ _ Hb). simpl.
    eapply (accounted_push w _ (keyOf config)); [exact Hw | exact Ha | ..];
      simpl; try reflexivity.
    rewrite Hb. unfold promisesOf. simpl. by rewrite fmap_app.
  - rewrite (BatcherFacts.enqueue_fresh _ _ _ _ Hb). simpl.
    eapply (accounted_push w _ (keyOf config)); [exact Hw | exact Ha | ..];
      simpl; try reflexivity.
    by rewrite Hb.
Qed.

Lemma accounted_add config executor w :
  consistent w -> accounted w -> accounted (add_ config executor w).2.
Proof.
  intros Hw Ha. rewrite BatcherFacts.add_eq. simpl.
  pose proof (BatcherFacts.consistent_enqueue toUpperCase config executor w Hw) as Hw2.
  pose proof (accounted_enqueue config executor w Hw Ha) as Ha2.
  destruct (BatcherFacts.enqueue_result toUpperCase config executor w Hw) as (Hb & _).
  destruct (_ >=? _); [|done].
  by apply accounted_afterFlush.
Qed.

Lemma accounted_fireTimer (handle : nat) w :
  consistent w -> accounted w -> accounted (fireTimer handle w).
Proof.
  intros Hw Ha. destruct (timers w !! handle) as [callback|] eqn:Ht.
  - destruct (BatcherFacts.armed_timer_group w handle callback Hw Ht)
      as (batch & first & Hb & Hh & Hhead & Hsup).
    rewrite (BatcherFacts.fireTimer_eq handle w callback batch Hw Ht Hb).
    by apply accounted_afterFlush.
  - unfold fireTimer. by rewrite Ht.
Qed.

Lemma accounted_settle (handle : nat) outcome w :
  consistent w -> accounted w -> accounted (settle handle outcome w).
Proof.
  intros Hw [A1 A2 A3 A4 A5 A6 A7 A8]. unfold settle.
  destruct (awaiting w !! handle) as [inv0|] eqn:Hwait;
    [|by split].
  destruct (awaiting_flushed w Hw _ _ Hwait) as [Hin0 Hh0].
  destruct (flushed_groups w Hw inv0 Hin0) as (_ & _ & _ & Hsorted & _).
  split; simpl; try done.
  - rewrite fmap_app, deliveries_promises. apply NoDup_app. split_and!; [done | |].
    + intros p Hp Hp0. destruct (A6 p Hp) as (inv1 & Hin1 & Hnone & Hp1).
      rewrite (A4 inv1 inv0 p Hin1 Hin0 Hp1 Hp0), Hh0 in Hnone. congruence.
    + by apply StronglySorted_lt_NoDup.
  - intros p. rewrite fmap_app, deliveries_promises.
    intros [Hp|Hp]%elem_of_app.
    + destruct (A6 p Hp) as (inv1 & Hin1 & Hnone & Hp1). exists inv1.
      split_and!; [done | | done]. rewrite lookup_delete_None. by right.
    + exists inv0. split_and!; [done | | done]. rewrite Hh0. apply lookup_delete_eq.
  - intros inv1 Hin1. rewrite fmap_app, deliveries_promises.
    destruct (A8 inv1 Hin1) as [Hwait1|Hdone].
    + destruct (decide (handleOf inv1 = handle)) as [Heq|Hne].
      * right. intros p Hp. apply elem_of_app. right.
        rewrite Heq, Hwait in Hwait1. by injection Hwait1 as ->.
      * left. by rewrite lookup_delete_ne.
    + right. intros p Hp. apply elem_of_app. left. by apply Hdone.
Qed.

Lemma accounted_step w (ev : @BatcherEvent Params Executor Result Error) :
  consistent w -> accounted w -> accounted (step_ w ev).
Proof.
  intros Hw Ha. destruct ev as [config executor|handle|handle outcome]; simpl.
  - by apply accounted_add.
  - by apply accounted_fireTimer.
  - by apply accounted_settle.
Qed.

Lemma accounted_run (evs : list (@BatcherEvent Params Executor Result Error)) w :
  consistent w -> accounted w -> accounted (run_ evs w).
Proof.
  revert w. induction evs as [|ev evs IH]; intros w Hw Ha; [done|].
  rewrite BatcherFacts.run_cons.
  apply IH; [by apply BatcherFacts.consistent_step | by apply accounted_step].
Qed.

Lemma nextPromise_add config executor w :
  nextPromise (add_ config executor w).2 = S (nextPromise w).
Proof.
  unfold add, enqueue, executeBatch, clearTimeout, setTimeout.
  repeat (case_match; simpl in *; simplify_eq); done.
Qed.

(** X15: On every batcher reached from a new one by [add] calls, timers
    firing and executors settling: [add] returns a promise not returned
    before; no promise is settled twice, and only promises returned by
    [add] are settled; and every promise returned so far is in exactly
    one of three places: in an open batch, in a flushed batch whose
    executor has not settled yet, or among the settled ones.  So no
    request is lost and none is answered twice. *)
Theorem every_promise_settled_at_most_once
    (batchWindowMs maxBatch : Z)
    (evs : list (@BatcherEvent Params Executor Result Error)) :
  let w := run_ evs (newRequestBatcher batchWindowMs maxBatch) in
  let isOpen p := exists key batch, batches w !! key = Some batch /\ p ∈ promisesOf batch in
  let isAwaited p :=
    exists handle inv, awaiting w !! handle = Some inv /\ p ∈ promisesOf (inv_batch inv) in
  let isSettled p := p ∈ settledPromise <$> settled w in
  (forall config executor,
      (add_ config executor w).1 = nextPromise w /\
      nextPromise (add_ config executor w).2 = S (nextPromise w)) /\
  NoDup (settledPromise <$> settled w) /\
  (forall p, isSettled p -> (p < nextPromise w)%nat) /\
  (forall p, (p < nextPromise w)%nat -> isOpen p \/ isAwaited p \/ isSettled p) /\
  (forall p, ~ (isOpen p /\ isAwaited p) /\ ~ (isOpen p /\ isSettled p) /\
             ~ (isAwaited p /\ isSettled p)).
Proof.
  intros w isOpen isAwaited isSettled.
  assert (consistent w) as Hw by apply BatcherFacts.consistent_reached.
  assert (accounted w) as [A1 A2 A3 A4 A5 A6 A7 A8].
  { apply accounted_run; [apply BatcherFacts.consistent_new | apply accounted_new]. }
  split_and!.
  - intros config executor. split; [|apply nextPromise_add].
    rewrite BatcherFacts.add_eq. reflexivity.
  - done.
  - intros p Hp. destruct (A6 p Hp) as (inv & Hin & _ & Hpin). by eapply A1.
  - intros p Hlt. destruct (A7 p Hlt) as [Hopen|(inv & Hin & Hp)]; [by left|].
    right. destruct (A8 inv Hin) as [Hwait|Hdone].
    + left. by exists (handleOf inv), inv.
    + right. by apply Hdone.
  - intros p. split_and!.
    + intros [(key & batch & Hb & Hp) (handle & inv & Hwait & Hpin)].
      destruct (awaiting_flushed w Hw _ _ Hwait) as [Hin _].
      by apply (A3 key batch inv p).
    + intros [(key & batch & Hb & Hp) Hs].
      destruct (A6 p Hs) as (inv & Hin & _ & Hpin).
      by apply (A3 key batch inv p).
    + intros [(handle & inv & Hwait & Hpin) Hs].
      destruct (A6 p Hs) as (inv1 & Hin1 & Hnone & Hp1).
      destruct (awaiting_flushed w Hw _ _ Hwait) as [Hin Hh].
      rewrite (A4 inv1 inv p Hin1 Hin Hp1 Hpin), Hh in Hnone. congruence.
Qed.

Lemma below_limit_step w (ev : @BatcherEvent Params Executor Result Error) :
  consistent w ->
  (forall key batch, batches w !! key = Some batch ->
                     Z.of_nat (length (batch_requests batch)) < maxBatchSize w) ->
  forall key batch, batches (step_ w ev) !! key = Some batch ->
                    Z.of_nat (length (batch_requests batch)) < maxBatchSize (step_ w ev).
Proof.
  intros Hw Hbelow key batch. rewrite BatcherFacts.maxBatchSize_step.
  destruct ev as [config executor|handle|handle outcome]; simpl.
  - rewrite BatcherFacts.add_eq. simpl.
    destruct (BatcherFacts.enqueue_result toUpperCase config executor w Hw)
      as (Hb & _ & _ & Hmax & _).
    assert (forall k b, k <> keyOf config ->
              batches (enqueue_ config executor w).2 !! k = Some b ->
              batches w !! k = Some b) as Hother.
    { intros k b Hne. destruct (batches w !! keyOf config) as [b0|] eqn:Hb0.
      - rewrite (BatcherFacts.enqueue_open _ _ _ _ _ Hb0). simpl.
        by rewrite lookup_insert_ne.
      - rewrite (BatcherFacts.enqueue_fresh _ _ _ _ Hb0). simpl.
        by rewrite lookup_insert_ne. }
    destruct (Z.geb_spec (Z.of_nat (length (batch_requests (enqueue_ config executor w).1)))
                         (maxBatchSize (enqueue_ config executor w).2)) as [Hfull|Hroom].
    + rewrite (BatcherFacts.afterFlush_eq _ _ _ _ _ Hb). simpl.
      intros [Hne Hopen]%lookup_delete_Some. eapply Hbelow, Hother; done.
    + intros Hopen. destruct (decide (key = keyOf config)) as [->|Hne].
      * rewrite Hb in Hopen. injection Hopen as <-. lia.
      * eapply Hbelow, Hother; done.
  - destruct (timers w !! handle) as [callback|] eqn:Ht.
    + destruct (BatcherFacts.armed_timer_group w handle callback Hw Ht)
        as (b & first & Hb & _).
      rewrite (BatcherFacts.fireTimer_eq handle w callback b Hw Ht Hb).
      rewrite (BatcherFacts.afterFlush_eq _ _ _ _ _ Hb). simpl.
      intros [_ Hopen]%lookup_delete_Some. by eapply Hbelow.
    + unfold fireTimer. rewrite Ht. apply Hbelow.
  - unfold settle. destruct (awaiting w !! handle); apply Hbelow.
Qed.

Lemma below_limit_run (evs : list (@BatcherEvent Params Executor Result Error)) w :
  consistent w ->
  (forall key batch, batches w !! key = Some batch ->
                     Z.of_nat (length (batch_requests batch)) < maxBatchSize w) ->
  forall key batch, batches (run_ evs w) !! key = Some batch ->
                    Z.of_nat (length (batch_requests batch)) < maxBatchSize (run_ evs w).
Proof.
  revert w. induction evs as [|ev evs IH]; intros w Hw Hbelow; [done|].
  rewrite BatcherFacts.run_cons.
  apply IH; [by apply BatcherFacts.consistent_step | by apply below_limit_step].
Qed.

(** X16: On every batcher reached from a new one: a batch that is open
    holds at least one request and fewer than [maxBatchSize], and its
    timer is armed with its key; every armed timer belongs to an open
    batch; so with [maxBatchSize] 1 or less nothing waits, each request
    being passed to its executor by the [add] that brought it. *)
Theorem open_batch_is_short_and_timed
    (batchWindowMs maxBatch : Z)
    (evs : list (@BatcherEvent Params Executor Result Error)) :
  let w := run_ evs (newRequestBatcher batchWindowMs maxBatch) in
  (forall key batch,
      batches w !! key = Some batch ->
      1 <= Z.of_nat (length (batch_requests batch)) < maxBatch /\
      exists callback,
        timers w !! timeout batch = Some callback /\ cb_batchKey callback = key) /\
  (forall handle callback,
      timers w !! handle = Some callback ->
      exists batch,
        batches w !! cb_batchKey callback = Some batch /\ timeout batch = handle) /\
  (maxBatch <= 1 -> batches w = ∅ /\ timers w = ∅).
Proof.
  intros w.
  assert (consistent w) as Hw by apply BatcherFacts.consistent_reached.
  assert (forall key batch,
             batches w !! key = Some batch ->
             1 <= Z.of_nat (length (batch_requests batch)) < maxBatch /\
             exists callback,
               timers w !! timeout batch = Some callback /\ cb_batchKey callback = key)
    as Hopen.
  { intros key batch Hb.
    destruct (open_groups w Hw key batch Hb) as (first & ex0 & Hhead & _ & Htimer & _).
    split_and!.
    - destruct (batch_requests batch); [done | simpl; lia].
    - pose proof (below_limit_run evs (newRequestBatcher batchWindowMs maxBatch)
                    (BatcherFacts.consistent_new _ _)) as Hbelow.
      rewrite BatcherFacts.maxBatchSize_run in Hbelow. simpl in Hbelow.
      apply (Hbelow ltac:(intros k b Hk; by rewrite lookup_empty in Hk) key batch Hb).
    - by eexists. }
  assert (forall handle callback,
             timers w !! handle = Some callback ->
             exists batch,
               batches w !! cb_batchKey callback = Some batch /\ timeout batch = handle)
    as Harmed.
  { intros handle callback Ht. by destruct (armed_timers w Hw _ _ Ht) as (_ & Hb). }
  split_and!; [done | done |].
  intros Hone.
  assert (batches w = ∅) as Hnone.
  { apply map_empty. intros key. destruct (batches w !! key) as [batch|] eqn:Hb; [|done].
    destruct (Hopen key batch Hb) as [Hlen _]. lia. }
  split; [done|]. apply map_empty. intros handle.
  destruct (timers w !! handle) as [callback|] eqn:Ht; [|done].
  destruct (Harmed handle callback Ht) as (batch & Hb & _).
  rewrite Hnone in Hb. by rewrite lookup_empty in Hb.
Qed.

End Accounting.
End BatcherAccountFacts.

(** ** logging.ts and performance.ts: the request statistics *)

Module StatisticsFacts.

(** The window of response times: what is kept after one more push
    is the last 1000 of what was pushed. *)
Lemma window_push {A} (pushedBefore : list A) (x : A) :
  let times := drop (length pushedBefore - 1000) pushedBefore in
  (if (1000 <? length (times ++ [x]))%nat then drop 1 (times ++ [x]) else times ++ [x]) =
  drop (length (pushedBefore ++ [x]) - 1000) (pushedBefore ++ [x]).
Proof.
  intros times. unfold times. rewrite !length_app, length_drop. simpl.
  destruct (decide (length pushedBefore < 1000)%nat) as [Hlt|Hge].
  - assert ((1000 <? length pushedBefore - (length pushedBefore - 1000) + 1)%nat = false)
      as -> by (apply Nat.ltb_ge; lia).
    replace (length pushedBefore - 1000)%nat with 0%nat by lia.
    replace (length pushedBefore + 1 - 1000)%nat with 0%nat by lia. done.
  - assert ((1000 <? length pushedBefore - (length pushedBefore - 1000) + 1)%nat = true)
      as -> by (apply Nat.ltb_lt; lia).
    rewrite drop_app_le by (rewrite length_drop; lia).
    rewrite drop_drop.
    replace (length pushedBefore + 1 - 1000)%nat
      with (length pushedBefore - 1000 + 1)%nat by lia.
    by rewrite drop_app_le by lia.
Qed.

Lemma count_snoc {A} (P : A -> bool) (l : list A) (x : A) :
  N.of_nat (length (filter (fun a => P a = true) (l ++ [x]))) =
  (N.of_nat (length (filter (fun a => P a = true) l)) + if P x then 1 else 0)%N.
Proof.
  rewrite filter_app, length_app. rewrite filter_cons, filter_nil.
  destruct (decide (P x = true)) as [->|Hx]; simpl; [lia|].
  apply not_true_is_false in Hx. rewrite Hx. lia.
Qed.

End StatisticsFacts.

Module RequestMetricsFacts.
Import Performance.

Lemma recordRequests_snoc (samples : list (bool * PrimFloat.float * bool))
      (sample : bool * PrimFloat.float * bool) (m : RequestMetrics) :
  recordRequests (samples ++ [sample]) m =
  recordRequest sample.1.1 sample.1.2 sample.2 (recordRequests samples m).
Proof. unfold recordRequests. by rewrite foldl_app. Qed.

(** X17: After any sequence of [recordRequest] calls on new metrics:
    [totalRequests] is the number of calls, the success and failure
    counters are the numbers of calls with and without [success] and add
    up to the total, and so do [cacheHits] and [cacheMisses];
    [responseTimes] holds the last 1000 response times in call order
    (all of them while there are no more than 1000); once a call was
    made, [averageResponseTime] is the sum of the response times kept,
    added up from 0 in the order kept, divided by their number, so a
    response time older than the last 1000 no longer counts;
    [getMetrics] reports the metrics as they are, and both rates as 0
    while nothing was recorded. *)
Theorem metrics_follow_recorded_requests (samples : list (bool * PrimFloat.float * bool)) :
  let m := recordRequests samples newRequestMetrics in
  totalRequests m = N.of_nat (length samples) /\
  successfulRequests m =
    N.of_nat (length (filter (fun s => s.1.1 = true) samples)) /\
  failedRequests m =
    N.of_nat (length (filter (fun s => negb s.1.1 = true) samples)) /\
  cacheHits m = N.of_nat (length (filter (fun s => s.2 = true) samples)) /\
  cacheMisses m = N.of_nat (length (filter (fun s => negb s.2 = true) samples)) /\
  (successfulRequests m + failedRequests m = totalRequests m)%N /\
  (cacheHits m + cacheMisses m = totalRequests m)%N /\
  Performance.responseTimes m =
    drop (length samples - 1000) ((fun s => s.1.2) <$> samples) /\
  length (Performance.responseTimes m) = Nat.min (length samples) 1000 /\
  (samples <> [] ->
   averageResponseTime m =
     PrimFloat.div (JsNumber.sum (Performance.responseTimes m))
                   (JsNumber.ofNat (length (Performance.responseTimes m)))) /\
  report (getMetrics m) = m /\
  (samples = [] ->
   averageResponseTime m = JsNumber.ofN 0 /\
   Performance.cacheHitRate (getMetrics m) = JsNumber.ofN 0 /\
   Performance.successRate (getMetrics m) = JsNumber.ofN 0).
Proof.
  intros m.
  assert (totalRequests m = N.of_nat (length samples) /\
          successfulRequests m =
            N.of_nat (length (filter (fun s => s.1.1 = true) samples)) /\
          failedRequests m =
            N.of_nat (length (filter (fun s => negb s.1.1 = true) samples)) /\
          cacheHits m = N.of_nat (length (filter (fun s => s.2 = true) samples)) /\
          cacheMisses m = N.of_nat (length (filter (fun s => negb s.2 = true) samples)) /\
          (successfulRequests m + failedRequests m = totalRequests m)%N /\
          (cacheHits m + cacheMisses m = totalRequests m)%N /\
          Performance.responseTimes m =
            drop (length samples - 1000) ((fun s => s.1.2) <$> samples))
    as (Ht & Hs & Hf & Hh & Hm & Hsf & Hhm & Htimes).
  { unfold m. clear m. induction samples as [|[[ok t] hit] samples IH] using rev_ind.
    - by split_and!.
    - destruct IH as (Ht & Hs & Hf & Hh & Hm & Hsf & Hhm & Htimes).
      rewrite recordRequests_snoc. unfold recordRequest. cbn [fst snd].
      cbn [totalRequests successfulRequests failedRequests cacheHits cacheMisses
           Performance.responseTimes].
      rewrite (StatisticsFacts.count_snoc (fun s => s.1.1)),
        (StatisticsFacts.count_snoc (fun s => negb s.1.1)),
        (StatisticsFacts.count_snoc (fun s => s.2)),
        (StatisticsFacts.count_snoc (fun s => negb s.2)).
      cbn [fst snd]. rewrite Ht, Hs, Hf, Hh, Hm in *.
      rewrite length_app. simpl.
      split_and!; try (destruct ok, hit; simpl; lia).
      rewrite Htimes, fmap_app. simpl.
      pose proof (StatisticsFacts.window_push ((fun s => s.1.2) <$> samples) t) as Hw.
      simpl in Hw. rewrite !length_fmap in Hw. rewrite Hw.
      by rewrite length_app, length_fmap. }
  split_and!; try done.
  - rewrite Htimes, length_drop, length_fmap. lia.
  - intros Hne. unfold m.
    destruct samples as [|s samples _] using rev_ind; [done|].
    by rewrite recordRequests_snoc.
  - intros ->. vm_compute. by split_and!.
Qed.

(** The rates are rounded from the double-precision product: of 160
    requests with 41 successes and 23 cache hits, [getMetrics] reports
    the numbers 2562 / 100 and 1437 / 100, where the rates rounded from
    the exact ratios would be 25.63 and 14.38. *)
Example rates_are_rounded_doubles :
  Performance.successRate
    (getMetrics (recordRequests
                   (replicate 23 (true, JsNumber.ofN 200, true)
                    ++ replicate 18 (true, JsNumber.ofN 200, false)
                    ++ replicate 119 (false, JsNumber.ofN 200, false))
                   newRequestMetrics))
    = PrimFloat.div (JsNumber.ofN 2562) (JsNumber.ofN 100) /\
  Performance.cacheHitRate
    (getMetrics (recordRequests
                   (replicate 23 (true, JsNumber.ofN 200, true)
                    ++ replicate 18 (true, JsNumber.ofN 200, false)
                    ++ replicate 119 (false, JsNumber.ofN 200, false))
                   newRequestMetrics))
    = PrimFloat.div (JsNumber.ofN 1437) (JsNumber.ofN 100) /\
  Qround.Qfloor ((41 # 160) * 100 * 100 + (1 # 2)) = 2563 /\
  Qround.Qfloor ((23 # 160) * 100 * 100 + (1 # 2)) = 1438.
Proof. vm_compute. by split_and!. Qed.

(** The mean is taken in doubles: of the number just below 5000 and
    5000, the sum rounds to 10000 and the mean kept is 5000. *)
Example mean_is_taken_in_doubles :
  averageResponseTime
    (recordRequests [(true, PrimFloat.next_down (JsNumber.ofN 5000), false);
                     (true, JsNumber.ofN 5000, false)]
                    newRequestMetrics) = JsNumber.ofN 5000 /\
  PrimFloat.ltb (PrimFloat.next_down (JsNumber.ofN 5000)) (JsNumber.ofN 5000) = true.
Proof. vm_compute. by split. Qed.

End RequestMetricsFacts.

(** ** logging.ts: what a monitor has recorded *)

Module MonitorFacts.
Import Logging.

Lemma recordAll_app (evs1 evs2 : list Recorded) (h : HealthMonitor) :
  recordAll (evs1 ++ evs2) h = recordAll evs2 (recordAll evs1 h).
Proof. unfold recordAll. by rewrite foldl_app. Qed.

Lemma startTime_recordAll (evs : list Recorded) (h : HealthMonitor) :
  startTime (metrics (recordAll evs h)) = startTime (metrics h).
Proof.
  induction evs as [|ev evs IH] using rev_ind; [done|].
  rewrite recordAll_app. simpl. rewrite <- IH. by destruct ev.
Qed.

(** X18: After any sequence of recorded events on a new monitor, every
    counter is the number of recorded events of its kind: [total] the
    requests, [successful] and [failed] those with and without
    [success], which add up to [total]; [hits] and [misses] the cache
    lookups; the three [auth] counters the authentication events; the
    error count the errors.  The monitor keeps the last 1000 response
    times in the order recorded (all of them while there are no more
    than 1000).  The report of [getHealthStatus] carries these metrics
    as they are, and [uptime] is the time since the monitor was made. *)
Theorem monitor_follows_recorded_requests (t0 now : Z) (evs : list Recorded) :
  let h := recordAll evs (newHealthMonitor t0) in
  let m := metrics h in
  let count (kind : Recorded -> bool) :=
    N.of_nat (length (filter (fun ev => kind ev = true) evs)) in
  let times := omap (fun ev => match ev with
                               | RecRequest _ t => Some t
                               | _ => None
                               end) evs in
  total (requests m)
    = count (fun ev => match ev with RecRequest _ _ => true | _ => false end) /\
  successful (requests m)
    = count (fun ev => match ev with RecRequest true _ => true | _ => false end) /\
  failed (requests m)
    = count (fun ev => match ev with RecRequest false _ => true | _ => false end) /\
  (successful (requests m) + failed (requests m) = total (requests m))%N /\
  hits (cache m)
    = count (fun ev => match ev with RecCacheHit true => true | _ => false end) /\
  misses (cache m)
    = count (fun ev => match ev with RecCacheHit false => true | _ => false end) /\
  auth_successful (auth m)
    = count (fun ev => match ev with RecAuth AuthSuccess => true | _ => false end) /\
  auth_failed (auth m)
    = count (fun ev => match ev with RecAuth AuthFailure => true | _ => false end) /\
  auth_rateLimited (auth m)
    = count (fun ev => match ev with RecAuth AuthRateLimited => true | _ => false end) /\
  err_count (errors m)
    = count (fun ev => match ev with RecError _ _ => true | _ => false end) /\
  responseTimes h = drop (length times - 1000) times /\
  length (responseTimes h) = Nat.min (length times) 1000 /\
  report_metrics (getHealthStatus now h) = m /\
  uptime (getHealthStatus now h) = now - t0.
Proof.
  intros h m count times.
  assert (total (requests m)
            = count (fun ev => match ev with RecRequest _ _ => true | _ => false end) /\
          successful (requests m)
            = count (fun ev => match ev with RecRequest true _ => true | _ => false end) /\
          failed (requests m)
            = count (fun ev => match ev with RecRequest false _ => true | _ => false end) /\
          hits (cache m)
            = count (fun ev => match ev with RecCacheHit true => true | _ => false end) /\
          misses (cache m)
            = count (fun ev => match ev with RecCacheHit false => true | _ => false end) /\
          auth_successful (auth m)
            = count (fun ev => match ev with RecAuth AuthSuccess => true | _ => false end) /\
          auth_failed (auth m)
            = count (fun ev => match ev with RecAuth AuthFailure => true | _ => false end) /\
          auth_rateLimited (auth m)
            = count (fun ev => match ev with
                               | RecAuth AuthRateLimited => true
                               | _ => false
                               end) /\
          err_count (errors m)
            = count (fun ev => match ev with RecError _ _ => true | _ => false end) /\
          (successful (requests m) + failed (requests m) = total (requests m))%N /\
          responseTimes h = drop (length times - 1000) times)
    as (Ht & Hs & Hf & Hh & Hmiss & Has & Haf & Har & He & Hsf & Htimes).
  { unfold count, times, m, h. clear.
    induction evs as [|ev evs IH] using rev_ind.
    - by split_and!.
    - rewrite recordAll_app, omap_app, !StatisticsFacts.count_snoc.
      destruct IH as (Ht & Hs & Hf & Hh & Hmiss & Has & Haf & Har & He & Hsf & Htimes).
      rewrite <- Ht, <- Hs, <- Hf, <- Hh, <- Hmiss, <- Has, <- Haf, <- Har, <- He.
      destruct ev as [[] t|[]|[]|message t];
        cbn [recordAll foldl record omap list_omap];
        unfold recordRequest, recordAuth, recordCacheHit, recordError;
        cbn [metrics requests cache auth errors with_requests with_auth with_cache
             with_errors total successful failed hits misses auth_successful
             auth_failed auth_rateLimited err_count responseTimes];
        rewrite ?app_nil_r;
        (split_and!; [lia..|]); try exact Htimes.
      all: rewrite Htimes;
        pose proof (StatisticsFacts.window_push
                      (omap (fun ev => match ev with
                                       | RecRequest _ t => Some t
                                       | _ => None
                                       end) evs) t) as Hw;
        simpl in Hw; exact Hw. }
  split_and!; try done.
  - rewrite Htimes, length_drop. lia.
  - unfold getHealthStatus. cbn [uptime]. unfold m, h. by rewrite startTime_recordAll.
Qed.

(** The rates of the report are rounded from the double-precision
    product, like those of [RequestMetrics]: 41 successes in 160
    requests and 23 hits in 160 lookups are reported as the numbers
    2562 / 100 and 1437 / 100. *)
Example report_rates_are_rounded_doubles :
  report_successRate
    (getHealthStatus 0
       (recordAll (replicate 41 (RecRequest true 200) ++ replicate 119 (RecRequest false 200)
                   ++ replicate 23 (RecCacheHit true) ++ replicate 137 (RecCacheHit false))
                  (newHealthMonitor 0)))
    = PrimFloat.div (JsNumber.ofN 2562) (JsNumber.ofN 100) /\
  report_hitRate
    (getHealthStatus 0
       (recordAll (replicate 41 (RecRequest true 200) ++ replicate 119 (RecRequest false 200)
                   ++ replicate 23 (RecCacheHit true) ++ replicate 137 (RecCacheHit false))
                  (newHealthMonitor 0)))
    = PrimFloat.div (JsNumber.ofN 1437) (JsNumber.ofN 100).
Proof. vm_compute. by split. Qed.

Lemma errors_kept (h : HealthMonitor) (ev : Recorded) :
  match ev with RecError _ _ => False | _ => True end ->
  errors (metrics (record h ev)) = errors (metrics h).
Proof. by destruct ev. Qed.

Lemma errors_kept_all (evs : list Recorded) (h : HealthMonitor) :
  Forall (fun ev => match ev with RecError _ _ => False | _ => True end) evs ->
  errors (metrics (recordAll evs h)) = errors (metrics h).
Proof.
  induction evs as [|ev evs IH] using rev_ind; [done|].
  intros [Hevs Hev]%Forall_app. rewrite Forall_singleton in Hev.
  rewrite recordAll_app. cbn [recordAll foldl].
  rewrite (errors_kept _ ev Hev). by apply IH.
Qed.

(** X19: An error recorded at a non-zero clock reading [t] keeps the monitor
    from being healthy for the five minutes that follow, whatever else
    is recorded meanwhile, as long as it is the last error: up to
    [t + 300000] the check [noRecentErrors] fails and the status is not
    [healthy]; after that the check passes again.  The report carries
    the message of that error. *)
Theorem recorded_error_degrades_for_five_minutes
    (h : HealthMonitor) (message : string) (t now : Z) (evs : list Recorded) :
  t <> 0 ->
  Forall (fun ev => match ev with RecError _ _ => False | _ => True end) evs ->
  let h' := recordAll evs (recordError message t h) in
  let report := getHealthStatus now h' in
  lastError (errors (report_metrics report)) = Some message /\
  err_count (errors (report_metrics report)) = (err_count (errors (metrics h)) + 1)%N /\
  (now - t <= 300000 ->
   noRecentErrors (checks report) = false /\ status report <> healthy) /\
  (300000 < now - t -> noRecentErrors (checks report) = true).
Proof.
  intros Ht Hevs h' report.
  assert (errors (metrics h') =
          {| err_count := err_count (errors (metrics h)) + 1;
             lastError := Some message; lastErrorTime := Some t |}) as Herr.
  { unfold h'. by rewrite errors_kept_all. }
  assert (noRecentErrors (checks report) = (t =? 0) || (now - t >? 5 * 60 * 1000)) as Hcheck.
  { unfold report, getHealthStatus. cbn [checks computeChecks noRecentErrors].
    by rewrite Herr. }
  unfold report at 1 2. unfold getHealthStatus. cbn [report_metrics]. rewrite Herr.
  split_and!; [done | done | |].
  - intros Hrecent.
    assert (noRecentErrors (checks report) = false) as Hfalse.
    { rewrite Hcheck. apply orb_false_iff. split; lia. }
    split; [done|]. intros Hhealthy.
    apply (LoggingFacts.status_of_checks now h') in Hhealthy.
    apply LoggingFacts.healthyChecks_all in Hhealthy as (_ & Htrue & _).
    fold report in Htrue. congruence.
  - intros Hold. rewrite Hcheck. apply orb_true_iff. right. lia.
Qed.

Lemma recorded_error_degrades_for_five_minutes_witness :
  noRecentErrors (checks (getHealthStatus 301000
     (recordAll [RecRequest true 200] (recordError "timeout" 1000 scenarioMonitor)))) = false /\
  status (getHealthStatus 301000
     (recordAll [RecRequest true 200] (recordError "timeout" 1000 scenarioMonitor)))
    <> healthy.
Proof.
  refine (proj1 (proj2 (proj2 (recorded_error_degrades_for_five_minutes
            scenarioMonitor "timeout" 1000 301000 [RecRequest true 200] _ _))) _).
  - lia.
  - repeat constructor.
  - lia.
Defined.

End MonitorFacts.

(** ** logging.ts: levels *)

Module LoggerFacts.
Import JsText Logging.

Lemma toLowerCaseChar_idemp (c : ascii) :
  toLowerCaseChar (toLowerCaseChar c) = toLowerCaseChar c.
Proof. destruct c as [[] [] [] [] [] [] [] []]; reflexivity. Qed.

Lemma toLowerCase_idemp (s : list ascii) : toLowerCase (toLowerCase s) = toLowerCase s.
Proof.
  unfold toLowerCase. rewrite <- list_fmap_compose. apply list_fmap_ext.
  intros _ c _. apply toLowerCaseChar_idemp.
Qed.

(** X20: What a configured level lets through.  Errors are logged under
    every configuration; a level that is logged brings every more
    severe level with it; the configured text counts without regard to
    case; debug messages are logged only when it is "debug", info
    messages unless it is "error" or "warn", warnings unless it is
    "error"; a text that names no level counts as "info". *)
Theorem configured_level_decides_what_is_logged (configured : list ascii) :
  let minLevel := parseLogLevel configured in
  shouldLog minLevel ERROR = true /\
  (forall level level' : LogLevel,
      levelNumber level <= levelNumber level' ->
      shouldLog minLevel level' = true -> shouldLog minLevel level = true) /\
  parseLogLevel (toLowerCase configured) = minLevel /\
  (shouldLog minLevel DEBUG = true <-> toLowerCase configured = str "debug") /\
  (shouldLog minLevel INFO = false <->
   toLowerCase configured = str "error" \/ toLowerCase configured = str "warn") /\
  (shouldLog minLevel WARN = false <-> toLowerCase configured = str "error") /\
  (toLowerCase configured ∉ [str "error"; str "warn"; str "info"; str "debug"] ->
   minLevel = INFO).
Proof.
  intros minLevel. split_and!.
  - unfold shouldLog. destruct minLevel; reflexivity.
  - unfold shouldLog. intros level level' Hle H. apply Z.leb_le in H. apply Z.leb_le. lia.
  - unfold minLevel, parseLogLevel. by rewrite toLowerCase_idemp.
  - unfold minLevel, parseLogLevel.
    repeat case_bool_decide; unfold str, shouldLog, levelNumber in *; simpl in *;
      split; intros; solve [congruence | lia].
  - unfold minLevel, parseLogLevel.
    repeat case_bool_decide; unfold str, shouldLog, levelNumber in *; simpl in *;
      (split; [intros; solve [lia | by left | by right]
              | intros [?|?]; solve [congruence | lia]]).
  - unfold minLevel, parseLogLevel.
    repeat case_bool_decide; unfold str, shouldLog, levelNumber in *; simpl in *;
      split; intros; solve [congruence | lia].
  - intros Hnone. unfold minLevel, parseLogLevel.
    repeat case_bool_decide; try done; exfalso; apply Hnone;
      repeat (apply elem_of_cons; first [by left | right]).
Qed.

End LoggerFacts.

(** ** logging.ts: masking of messages and contexts *)

Module MaskingFacts.
Import JsText Security Logging.

Local Abbreviation tokenText := (Forall (fun c => isTokenChar c = true)).

Lemma runsBelow_lt (bound k : nat) (s : list ascii) :
  runsBelow bound k s -> (k < bound)%nat.
Proof. destruct s; simpl; tauto. Qed.

Lemma runsBelow_run (bound k : nat) (run after : list ascii) :
  runsBelow bound k (run ++ after) -> tokenText run -> (k + length run < bound)%nat.
Proof.
  revert k. induction run as [|c run IH]; intros k Hs Hrun; simpl in *.
  - destruct after; simpl in Hs; lia.
  - apply Forall_cons in Hrun as [Hc Hrun]. rewrite Hc in Hs.
    destruct Hs as [_ Hs]. specialize (IH _ Hs Hrun). lia.
Qed.

Lemma runsBelow_substring (bound k : nat) (before run after : list ascii) :
  runsBelow bound k (before ++ run ++ after) -> tokenText run ->
  (length run < bound)%nat.
Proof.
  revert k. induction before as [|c before IH]; intros k Hs Hrun; simpl in *.
  - pose proof (runsBelow_run _ _ _ _ Hs Hrun). lia.
  - destruct Hs as [_ Hs]. destruct (isTokenChar c); eauto.
Qed.

Lemma runsBelow_short_app (bound k : nat) (x y : list ascii) :
  (k + length x < bound)%nat -> runsBelow bound 0 y -> endsRun y ->
  runsBelow bound k (x ++ y).
Proof.
  revert k. induction x as [|c x IH]; intros k Hk Hy Hends; simpl in *.
  - destruct y as [|c y]; simpl in *; [lia|]. rewrite Hends in *.
    split; [lia | tauto].
  - split; [lia|]. destruct (isTokenChar c); apply IH; try done; lia.
Qed.

Lemma takeRun_tokenText (s : list ascii) : tokenText (takeRun isTokenChar s).
Proof.
  induction s as [|c s IH]; simpl; [done|].
  destruct (isTokenChar c) eqn:Hc; [by constructor | done].
Qed.

Lemma takeRun_prefix (s : list ascii) :
  s = takeRun isTokenChar s ++ drop (length (takeRun isTokenChar s)) s.
Proof.
  induction s as [|c s IH]; simpl; [done|].
  destruct (isTokenChar c); simpl; [by rewrite <- IH | done].
Qed.

Lemma takeRun_ends (s : list ascii) :
  endsRun (drop (length (takeRun isTokenChar s)) s).
Proof.
  induction s as [|c s IH]; simpl; [done|].
  destruct (isTokenChar c) eqn:Hc; simpl; done.
Qed.

Lemma takeRun_length (p : ascii -> bool) (s : list ascii) :
  (length (takeRun p s) <= length s)%nat.
Proof. induction s as [|c s IH]; simpl; [lia|]. destruct (p c); simpl; lia. Qed.

Lemma replaceAll_skip matchAt replacer (skip : nat) (s : list ascii) :
  (skip <= length s)%nat ->
  replaceAll matchAt replacer skip s = replaceAll matchAt replacer 0 (drop skip s).
Proof.
  revert skip. induction s as [|c s IH]; intros skip Hskip; simpl in *.
  - by destruct skip.
  - destruct skip as [|skip]; [done|]. simpl. apply IH. lia.
Qed.

(** One step of the global replace at a position where the search is
    not inside a match. *)
Lemma replaceAll_step matchAt replacer (s : list ascii) :
  (forall matched, matchAt s = Some matched ->
                   (1 <= length matched <= length s)%nat) ->
  replaceAll matchAt replacer 0 s =
    match s with
    | [] => []
    | c :: s' =>
        match matchAt s with
        | Some matched =>
            replacer matched ++ replaceAll matchAt replacer 0 (drop (length matched) s)
        | None => c :: replaceAll matchAt replacer 0 s'
        end
    end.
Proof.
  intros Hlen. destruct s as [|c s]; [done|]. cbn [replaceAll].
  destruct (matchAt (c :: s)) as [matched|] eqn:Hm; [|done].
  specialize (Hlen _ eq_refl). simpl in Hlen.
  rewrite replaceAll_skip by lia.
  destruct (length matched) as [|n]; [lia|]. simpl. by rewrite Nat.sub_0_r.
Qed.

Lemma replaceAll_none matchAt replacer (s : list ascii) :
  (forall i : nat, matchAt (drop i s) = None) ->
  replaceAll matchAt replacer 0 s = s.
Proof.
  induction s as [|c s IH]; intros Hnone; [done|]. cbn [replaceAll].
  pose proof (Hnone 0%nat) as H0. simpl in H0. rewrite H0.
  f_equal. apply IH. intros i. apply (Hnone (S i)).
Qed.

Lemma tokenChar_not_white_space (c : ascii) :
  isTokenChar c = true -> is_white_space c = false.
Proof. destruct c as [[] [] [] [] [] [] [] []]; vm_compute; congruence. Qed.

Lemma tokenText_cleanStart (s : list ascii) : tokenText s -> cleanStart s.
Proof.
  destruct s as [|c s]; [done|]. intros [Hc _]%Forall_cons.
  by apply tokenChar_not_white_space.
Qed.

Lemma cleanToken_tokenText (s : list ascii) : tokenText s -> cleanToken s = s.
Proof.
  intros Hs. unfold cleanToken.
  assert (replace_bearer_prefix s = s) as ->.
  { destruct s as [|c1 [|c2 [|c3 [|c4 [|c5 [|c6 [|w rest]]]]]]]; try done.
    unfold replace_bearer_prefix.
    do 6 apply Forall_cons in Hs as [_ Hs]. apply Forall_cons in Hs as [Hw _].
    rewrite (tokenChar_not_white_space w Hw). by rewrite andb_false_r. }
  apply JsTextFacts.trim_fixed; [by apply tokenText_cleanStart|].
  apply tokenText_cleanStart. by apply Forall_rev.
Qed.

Lemma maskToken_tokenText (s : list ascii) :
  tokenText s -> (20 <= length s)%nat ->
  maskToken s = take 4 s ++ replicate 12 "*"%char ++ drop (length s - 4) s.
Proof.
  intros Hs Hlen. rewrite SecurityFacts.maskToken_nonempty by (by destruct s; simpl in *; [lia|]).
  rewrite (cleanToken_tokenText s Hs).
  assert ((length s <=? 8)%nat = false) as -> by (apply Nat.leb_gt; lia).
  by replace (Nat.min 12 (length s - 8)) with 12%nat by lia.
Qed.

Lemma matchLongRun_Some (s matched : list ascii) :
  matchLongRun s = Some matched ->
  matched = takeRun isTokenChar s /\ (32 <= length matched)%nat.
Proof.
  unfold matchLongRun. destruct (32 <=? _)%nat eqn:Hlen; [|done].
  intros [= <-]. split; [done | by apply Nat.leb_le].
Qed.

Lemma matchLongRun_bounds (s matched : list ascii) :
  matchLongRun s = Some matched -> (1 <= length matched <= length s)%nat.
Proof.
  intros [-> Hlen]%matchLongRun_Some. pose proof (takeRun_length isTokenChar s). lia.
Qed.

Lemma maskLongRun_short (matched : list ascii) :
  tokenText matched -> (32 <= length matched)%nat -> length (maskLongRun matched) = 20%nat.
Proof.
  intros Hs Hlen. unfold maskLongRun.
  assert ((30 <? length matched)%nat = true) as -> by (apply Nat.ltb_lt; lia).
  rewrite maskToken_tokenText by (done || lia).
  rewrite !length_app, length_take, length_replicate, length_drop. lia.
Qed.

Lemma secondPass_ends (s : list ascii) :
  endsRun s -> endsRun (replaceAll matchLongRun maskLongRun 0 s).
Proof.
  destruct s as [|c s]; [done|]. simpl. intros Hc. unfold matchLongRun. simpl.
  by rewrite Hc.
Qed.

(** The second pass leaves no 32 token characters in a row. *)
Lemma secondPass_runsBelow (n : nat) (s : list ascii) :
  (length s <= n)%nat ->
  (forall k, (k + length (takeRun isTokenChar s) < 32)%nat ->
             runsBelow 32 k (replaceAll matchLongRun maskLongRun 0 s)) /\
  runsBelow 32 0 (replaceAll matchLongRun maskLongRun 0 s).
Proof.
  revert s. induction n as [|n IH]; intros s Hn.
  { destruct s; simpl in *; [|lia]. split; [intros k Hk; simpl; lia | simpl; lia]. }
  assert (forall k, (k + length (takeRun isTokenChar s) < 32)%nat ->
             runsBelow 32 k (replaceAll matchLongRun maskLongRun 0 s)) as Hshort.
  { intros k Hk. destruct s as [|c s]; [simpl in *; lia|]. cbn [replaceAll].
    assert (matchLongRun (c :: s) = None) as ->.
    { unfold matchLongRun.
      by assert ((32 <=? length (takeRun isTokenChar (c :: s)))%nat = false) as ->
          by (apply Nat.leb_gt; lia). }
    simpl in Hn, Hk. cbn [runsBelow]. split; [lia|].
    destruct (isTokenChar c) eqn:Hc.
    - apply (IH s); [lia|]. simpl in Hk. lia.
    - apply (IH s). lia. }
  split; [done|].
  destruct (matchLongRun s) as [matched|] eqn:Hm.
  - rewrite (replaceAll_step _ _ s)
      by (intros ? H; by apply matchLongRun_bounds).
    destruct s as [|c s]; [done|]. rewrite Hm.
    apply matchLongRun_Some in Hm as [-> Hlen].
    apply runsBelow_short_app.
    + rewrite maskLongRun_short; [lia | apply takeRun_tokenText | done].
    + apply (IH (drop _ (c :: s))). rewrite length_drop. simpl in *. lia.
    + apply secondPass_ends, takeRun_ends.
  - apply Hshort. unfold matchLongRun in Hm.
    destruct (32 <=? _)%nat eqn:Hlen; [done|]. apply Nat.leb_gt in Hlen. lia.
Qed.

Lemma substring_drop (s : list ascii) (i : nat) (run : list ascii) (j : nat) :
  run = takeRun isTokenChar (drop j (drop i s)) ->
  exists before after, s = before ++ run ++ after.
Proof.
  intros ->. exists (take (i + j) s), (drop (length (takeRun isTokenChar (drop j (drop i s)))) (drop j (drop i s))).
  rewrite <- takeRun_prefix. rewrite drop_drop. by rewrite take_drop.
Qed.

(** X21: With masking on, the masked message has no 32 characters of
    [[A-Za-z0-9+/=]] in a row, whatever the message was.  A message
    without 20 such characters in a row is logged as it is; so is every
    message when masking is off. *)
Theorem masked_message_has_no_long_token
    (message : list ascii) :
  (forall before run after : list ascii,
      maskSensitiveData true message = before ++ run ++ after ->
      Forall (fun c => isTokenChar c = true) run ->
      (length run < 32)%nat) /\
  ((forall before run after : list ascii,
       message = before ++ run ++ after ->
       Forall (fun c => isTokenChar c = true) run ->
       (length run < 20)%nat) ->
   maskSensitiveData true message = message) /\
  maskSensitiveData false message = message.
Proof.
  split_and!; [| |done].
  - intros before run after Heq Hrun. unfold maskSensitiveData in Heq.
    destruct (secondPass_runsBelow _ (replaceAll matchBearerToken maskToken 0 message)
                (le_n _)) as [_ Hbelow].
    rewrite Heq in Hbelow. by eapply runsBelow_substring.
  - intros Hshort. unfold maskSensitiveData.
    rewrite (replaceAll_none matchBearerToken).
    + apply replaceAll_none. intros i.
      destruct (matchLongRun (drop i message)) as [matched|] eqn:Hm; [|done].
      apply matchLongRun_Some in Hm as [Hrun Hlen].
      destruct (substring_drop message i matched 0 Hrun) as (before & after & Heq).
      specialize (Hshort _ _ _ Heq). rewrite Hrun in Hshort at 1.
      specialize (Hshort (takeRun_tokenText _)). lia.
    + intros i. unfold matchBearerToken.
      destruct (startsWith _ _); [|done].
      set (spaces := takeRun is_white_space (drop 6 (drop i message))).
      set (token := takeRun isTokenChar (drop (6 + length spaces) (drop i message))).
      destruct (20 <=? length token)%nat eqn:Hlen; [|by rewrite andb_false_r].
      apply Nat.leb_le in Hlen.
      destruct (substring_drop message i token (6 + length spaces) eq_refl)
        as (before & after & Heq).
      specialize (Hshort _ _ _ Heq (takeRun_tokenText _)). lia.
Qed.

Lemma maskToken_length (token : list ascii) : (length (maskToken token) <= 20)%nat.
Proof.
  destruct token as [|c token]; [simpl; lia|].
  rewrite SecurityFacts.maskToken_nonempty by done.
  destruct (length _ <=? 8)%nat; [simpl; lia|].
  rewrite !length_app, length_take, length_replicate, length_drop. lia.
Qed.

Lemma maskField_lookup (field name : string) (context : gmap string (list ascii)) :
  maskField field context !! name =
    if bool_decide (name = field) then
      match context !! field with
      | Some (c :: value) => Some (maskToken (c :: value))
      | other => other
      end
    else context !! name.
Proof.
  unfold maskField. case_bool_decide as Hname.
  - subst. destruct (context !! field) as [[|c value]|] eqn:Hfield; try done.
    apply lookup_insert_eq.
  - destruct (context !! field) as [[|c value]|]; try done.
    by rewrite lookup_insert_ne.
Qed.

(** X22: With masking on, the [authorization] and [token] fields of a log
    context are replaced by their [maskToken] text when they are
    non-empty, so neither carries more than 20 characters afterwards;
    an absent or empty one stays as it is, and so does every other
    field.  With masking off the context is logged as it is. *)
Theorem masked_context_hides_tokens (context : gmap string (list ascii)) :
  let masked := maskSensitiveContext true context in
  (forall name : string,
      name = "authorization" \/ name = "token" ->
      masked !! name =
        match context !! name with
        | Some (c :: value) => Some (maskToken (c :: value))
        | other => other
        end) /\
  (forall (name : string) (value : list ascii),
      name = "authorization" \/ name = "token" ->
      masked !! name = Some value -> (length value <= 20)%nat) /\
  (forall name : string,
      name <> "authorization" -> name <> "token" ->
      masked !! name = context !! name) /\
  maskSensitiveContext false context = context.
Proof.
  intros masked.
  assert (forall name : string,
             name = "authorization" \/ name = "token" ->
             masked !! name =
               match context !! name with
               | Some (c :: value) => Some (maskToken (c :: value))
               | other => other
               end) as Hfields.
  { intros name [->| ->]; unfold masked, maskSensitiveContext;
      rewrite !maskField_lookup; simpl; reflexivity. }
  split_and!; [done | | | done].
  - intros name value Hname Hvalue. rewrite (Hfields name Hname) in Hvalue.
    destruct (context !! name) as [[|c original]|]; simplify_eq;
      [simpl; lia | apply maskToken_length].
  - intros name Ha Ht. unfold masked, maskSensitiveContext.
    rewrite !maskField_lookup. by rewrite !bool_decide_false.
Qed.

Lemma takeRun_app_all (p : ascii -> bool) (run rest : list ascii) :
  Forall (fun c => p c = true) run ->
  match rest with c :: _ => p c = false | [] => True end ->
  takeRun p (run ++ rest) = run.
Proof.
  intros Hrun Hrest. induction Hrun as [|c run Hc Hrun IH]; simpl.
  - destruct rest as [|c rest]; [done|]. simpl. by rewrite Hrest.
  - by rewrite Hc, IH.
Qed.

Lemma trimStart_white_space (spaces rest : list ascii) :
  Forall (fun c => is_white_space c = true) spaces -> cleanStart rest -> trimStart (spaces ++ rest) = rest.
Proof.
  intros Hs Hrest. induction Hs as [|c spaces Hc Hs IH]; simpl.
  - by apply JsTextFacts.trimStart_fixed.
  - by rewrite Hc.
Qed.

(** X23: With masking on, a message that is an Authorization header value,
    the word Bearer, white space and a token of 20 or more characters
    of [[A-Za-z0-9+/=]], is logged as the first four characters of the
    token, twelve asterisks and its last four characters: the word
    Bearer and all but eight characters of the token are gone. *)
Theorem bearer_header_is_masked (spaces token : list ascii) :
  spaces <> [] ->
  Forall (fun c => is_white_space c = true) spaces ->
  Forall (fun c => isTokenChar c = true) token ->
  (20 <= length token)%nat ->
  maskSensitiveData true (str "Bearer" ++ spaces ++ token) =
    take 4 token ++ replicate 12 "*"%char ++ drop (length token - 4) token.
Proof.
  intros Hne Hspaces Htoken Hlen.
  assert (cleanStart token) as Hclean by by apply tokenText_cleanStart.
  assert (takeRun is_white_space (spaces ++ token) = spaces) as Hrun1.
  { apply takeRun_app_all; [done|]. destruct token as [|c token]; [done|].
    apply Forall_cons in Htoken as [Hc _]. by apply tokenChar_not_white_space. }
  assert (takeRun isTokenChar token = token) as Hrun2.
  { rewrite <- (app_nil_r token) at 1. by apply takeRun_app_all. }
  set (message := str "Bearer" ++ spaces ++ token).
  assert (matchBearerToken message = Some message) as Hmatch.
  { unfold matchBearerToken, message.
    rewrite JsTextFacts.startsWith_app.
    change (drop 6 (str "Bearer" ++ spaces ++ token)) with (spaces ++ token).
    rewrite Hrun1.
    replace (drop (6 + length spaces) (str "Bearer" ++ spaces ++ token)) with token.
    2:{ change (6 + length spaces)%nat with (S (S (S (S (S (S (length spaces))))))).
        change (str "Bearer") with ["B"; "e"; "a"; "r"; "e"; "r"]%char.
        simpl. by rewrite drop_app_length. }
    rewrite Hrun2.
    assert ((1 <=? length spaces)%nat = true) as ->
        by (apply Nat.leb_le; destruct spaces; simpl; [done | lia]).
    by assert ((20 <=? length token)%nat = true) as -> by by apply Nat.leb_le. }
  assert (maskToken message =
          take 4 token ++ replicate 12 "*"%char ++ drop (length token - 4) token) as Hmask.
  { rewrite <- (maskToken_tokenText token Htoken Hlen).
    assert (token <> []) as Htne by (intros ->; simpl in Hlen; lia).
    assert (message <> []) as Hmne by done.
    rewrite (SecurityFacts.maskToken_nonempty message Hmne),
      (SecurityFacts.maskToken_nonempty token Htne).
    assert (cleanToken message = cleanToken token) as ->; [|done].
    rewrite (cleanToken_tokenText token Htoken). unfold cleanToken.
    assert (replace_bearer_prefix message = token) as ->.
    { unfold message. destruct spaces as [|w spaces]; [done|].
      apply Forall_cons in Hspaces as [Hw Hspaces].
      change (str "Bearer" ++ (w :: spaces) ++ token)
        with ("B" :: "e" :: "a" :: "r" :: "e" :: "r" :: w :: spaces ++ token)%char.
      unfold replace_bearer_prefix. rewrite Hw.
      change (matches_ci "B" "b" "B" && matches_ci "E" "e" "e" && matches_ci "A" "a" "a"
              && matches_ci "R" "r" "r" && matches_ci "E" "e" "e"
              && matches_ci "R" "r" "r" && true)%char with true.
      by apply trimStart_white_space. }
    apply JsTextFacts.trim_fixed; [done|].
    apply tokenText_cleanStart. by apply Forall_rev. }
  unfold maskSensitiveData.
  assert (replaceAll matchBearerToken maskToken 0 message = maskToken message) as ->.
  { rewrite replaceAll_step.
    - destruct message as [|c rest] eqn:Hm; [done|]. rewrite Hmatch.
      rewrite drop_all. simpl. by rewrite app_nil_r.
    - intros matched Hsome. rewrite Hmatch in Hsome. injection Hsome as <-.
      unfold message. rewrite !length_app. simpl. lia. }
  rewrite Hmask. apply replaceAll_none. intros i.
  destruct (matchLongRun _) as [matched|] eqn:Hlong; [|done].
  apply matchLongRun_Some in Hlong as [-> Hlong].
  pose proof (takeRun_length isTokenChar
                (drop i (take 4 token ++ replicate 12 "*"%char
                         ++ drop (length token - 4) token))) as Hle.
  rewrite length_drop, !length_app, length_take, length_replicate, length_drop in Hle.
  lia.
Qed.

Lemma bearer_header_is_masked_witness :
  maskSensitiveData true (str "Bearer abcdefghijklmnopqrstuvwx") =
    str "abcd************uvwx".
Proof.
  apply (bearer_header_is_masked (str " ") (str "abcdefghijklmnopqrstuvwx")).
  - discriminate.
  - repeat constructor.
  - repeat constructor.
  - vm_compute. lia.
Defined.

End MaskingFacts.
